(** * QuantumAwesomeness: puzzle generation, scoring and calibration engine

    A shallow embedding of the core of [QuantumAwesomeness.py] and the
    properties its specification states about it.

    Conventions of the embedding.
    - Python floats are modelled by the real numbers [R]: every statement
      below is a statement of exact arithmetic.  The range of the floats
      is modelled where the code can leave it with an exception, in
      [math.exp].
    - A Python exception is a value [Raise e] of the error monad [result].
    - A dict is an association list in insertion order whose keys are
      pairwise distinct; a qubit index is a [nat]. *)

From Stdlib Require Import Ascii String Reals Lra Lia ZArith Bool Arith List.
Import ListNotations.

(** ** Exceptions and the error monad *)

Inductive exn : Type :=
| ValueError        (* math domain error, empty range for randint *)
| IndexError        (* list index out of range *)
| KeyError          (* missing dict key *)
| ZeroDivisionError
| OverflowError.    (* math range error *)

Inductive result (A : Type) : Type :=
| Ok (a : A)
| Raise (e : exn).

Arguments Ok {A} a.
Arguments Raise {A} e.

Definition bind {A B : Type} (m : result A) (k : A -> result B) : result B :=
  match m with
  | Ok a => k a
  | Raise e => Raise e
  end.

Declare Scope result_scope.
Delimit Scope result_scope with result.
Notation "x <- m ;; k" := (bind m (fun x => k))
  (at level 61, m at next level, right associativity) : result_scope.
Notation "' pat <- m ;; k" := (bind m (fun x => match x with pat => k end))
  (at level 61, pat pattern, m at next level, right associativity) : result_scope.
Open Scope result_scope.

(** [l[n]] for a non-negative index. *)
Definition index {A : Type} (l : list A) (n : nat) : result A :=
  match nth_error l n with
  | Some a => Ok a
  | None => Raise IndexError
  end.

(** A layout's [pairs] dict: pair name to the two qubits of the pair. *)
Definition Pairs : Type := list (string * (nat * nat)).

(** [pairs[p]]. *)
Fixpoint lookup {V : Type} (d : list (string * V)) (p : string) : result V :=
  match d with
  | [] => Raise KeyError
  | (k, v) :: d' => if String.eqb k p then Ok v else lookup d' p
  end.

(** [d.keys()]. *)
Definition keys {V : Type} (d : list (string * V)) : list string := map fst d.

(** ** Probability-angle transform *)

Module Transform.

Local Open Scope R_scope.

(** [math.sqrt]: raises [ValueError] on a negative argument. *)
Definition math_sqrt (x : R) : result R :=
  if Rle_dec 0 x then Ok (sqrt x) else Raise ValueError.

(** The largest float, [sys.float_info.max], and half the smallest
    positive one: a result above the first overflows, a result below the
    second is rounded to 0. *)
Definition float_max : R := (2 - / 2 ^ 52) * 2 ^ 1023.
Definition float_tiny : R := / 2 ^ 1075.

(** [math.exp] of a finite float: it raises [OverflowError] (math range
    error) when the result overflows and gives 0.0 when it underflows. *)
Definition math_exp (x : R) : result R :=
  if Rlt_dec float_max (exp x) then Raise OverflowError
  else if Rlt_dec (exp x) float_tiny then Ok 0
  else Ok (exp x).

(** [math.asin]: raises [ValueError] outside [-1, 1]. *)
Definition math_asin (x : R) : result R :=
  if Rle_dec (-1) x then
    if Rle_dec x 1 then Ok (asin x) else Raise ValueError
  else Raise ValueError.

(** [calculateFrac]: [frac = math.asin(math.sqrt(oneProb)) * 2 / math.pi]. *)
Definition calculateFrac (oneProb : R) : result R :=
  s <- math_sqrt oneProb ;;
  a <- math_asin s ;;
  Ok (a * 2 / PI).

(** [calculateEntanglement]: [min(2 * calculateFrac(oneProb), 1)]. *)
Definition calculateEntanglement (oneProb : R) : result R :=
  f <- calculateFrac oneProb ;;
  Ok (Rmin (2 * f) 1).

(** [calculateFracDifference]. *)
Definition calculateFracDifference (frac1 frac2 : R) : R :=
  let delta := Rmax frac1 frac2 - Rmin frac1 frac2 in
  Rmin delta (1 - delta).

(** The body of the loop of [calculateFuzz], run over the matching that
    remains; [n] is [len(matchingPairs)] of the whole matching. *)
Fixpoint fuzz_loop (oneProb : list R) (pairs : Pairs) (n : nat)
    (rest : list string) (fuzzAv : R) : result R :=
  match rest with
  | [] => Ok fuzzAv
  | p :: rest' =>
      '(a, b) <- lookup pairs p ;;
      pa <- index oneProb a ;;
      pb <- index oneProb b ;;
      fuzz_loop oneProb pairs n rest' (fuzzAv + Rabs (pa - pb) / INR n)
  end.

(** [calculateFuzz]. *)
Definition calculateFuzz (oneProb : list R) (pairs : Pairs)
    (matchingPairs : list string) : result R :=
  fuzz_loop oneProb pairs (length matchingPairs) matchingPairs 0.

(** The quantities the specification speaks of. *)

Definition Rsum (l : list R) : R := fold_right Rplus 0 l.

(** The mean of a list of numbers, 0 by convention for the empty list. *)
Definition mean (l : list R) : R :=
  match l with
  | [] => 0
  | _ :: _ => Rsum l / INR (length l)
  end.

(** [clamp(p, 0, 1)]. *)
Definition clamp01 (p : R) : R := Rmax 0 (Rmin p 1).

(** [fracFromProb] as the specification words it:
    (2/pi) * asin(sqrt(clamp(p,0,1))), a total function. *)
Definition fracFromProb (p : R) : R := 2 / PI * asin (sqrt (clamp01 p)).

(** |oneProb[a] - oneProb[b]| for the two qubits of pair [p]. *)
Definition gap (oneProb : list R) (pairs : Pairs) (p : string) : R :=
  match lookup pairs p with
  | Ok (a, b) => Rabs (nth a oneProb 0 - nth b oneProb 0)
  | Raise _ => 0
  end.

(** The matching only names pairs of the layout whose qubits index
    into [oneProb]. *)
Definition indexes_into (oneProb : list R) (pairs : Pairs)
    (matchingPairs : list string) : Prop :=
  forall p, In p matchingPairs ->
    exists a b, lookup pairs p = Ok (a, b) /\
                (a < length oneProb)%nat /\ (b < length oneProb)%nat.

End Transform.

(** ** Matching engine *)

Module Matching.

Import Transform.
Local Open Scope R_scope.

(** An element of [edges]: the tuple [(pairs[p][0], pairs[p][1], weight[p])]. *)
Definition Edge : Type := (nat * nat * R)%type.

Definition edge_a (e : Edge) : nat := fst (fst e).
Definition edge_b (e : Edge) : nat := snd (fst e).
Definition edge_w (e : Edge) : R := snd e.

(** [p[0:4] != 'fake'] is [negb (is_fake p)]. *)
Definition is_fake (p : string) : bool :=
  String.eqb (substring 0 4 p) "fake".

(** The weight of one pair: the negated disagreement of the fractions of
    its two qubits when [oneProb] is supplied (a non-empty list),
    the draw [randint] of [random.randint(0,100)] otherwise. *)
Definition pair_weight (oneProb : list R) (randint : Z) (ab : nat * nat)
    : result R :=
  match oneProb with
  | _ :: _ =>
      pa <- index oneProb (fst ab) ;;
      fa <- calculateFrac pa ;;
      pb <- index oneProb (snd ab) ;;
      fb <- calculateFrac pb ;;
      Ok (- calculateFracDifference fa fb)
  | [] => Ok (IZR randint)
  end.

(** First loop of [getDisjointPairs]: the dict [weight], in the order of
    [pairs.keys()]; [draws k] is the k-th draw of [random.randint(0,100)]
    and [k] counts the keys already visited. *)
Fixpoint weights (oneProb : list R) (draws : nat -> Z) (k : nat)
    (pairs : Pairs) : result (list (string * R)) :=
  match pairs with
  | [] => Ok []
  | (p, ab) :: rest =>
      w <- pair_weight oneProb (draws k) ab ;;
      ws <- weights oneProb draws (S k) rest ;;
      Ok ((p, w) :: ws)
  end.

(** Second loop: [edges.append((pairs[p][0], pairs[p][1], weight[p]))]. *)
Fixpoint make_edges (weight : list (string * R)) (pairs : Pairs)
    : result (list Edge) :=
  match pairs with
  | [] => Ok []
  | (p, ab) :: rest =>
      w <- lookup weight p ;;
      es <- make_edges weight rest ;;
      Ok ((fst ab, snd ab, w) :: es)
  end.

(** The edge list handed to the matcher. *)
Definition getEdges (pairs : Pairs) (oneProb : list R) (draws : nat -> Z)
    : result (list Edge) :=
  weight <- weights oneProb draws 0 pairs ;;
  make_edges weight pairs.

(** [pairs[p] == [v, match[v]]]; an unmatched vertex has [match[v] = -1]. *)
Definition pair_is (ab : nat * nat) (v : nat) (m : Z) : bool :=
  Nat.eqb (fst ab) v && Z.eqb (Z.of_nat (snd ab)) m.

(** Inner loop of the last part, for one vertex [v]. *)
Fixpoint names_at (pairs : Pairs) (v : nat) (m : Z) : list string :=
  match pairs with
  | [] => []
  | (p, ab) :: rest =>
      if pair_is ab v m && negb (is_fake p)
      then p :: names_at rest v m
      else names_at rest v m
  end.

(** Outer loop: [for v in range(len(match))], over the vertices [vs]. *)
Fixpoint names_of_match (pairs : Pairs) (mate : list Z) (vs : list nat)
    : list string :=
  match vs with
  | [] => []
  | v :: vs' =>
      names_at pairs v (nth v mate (-1)%Z) ++ names_of_match pairs mate vs'
  end.

Definition matchingPairs_of (pairs : Pairs) (mate : list Z) : list string :=
  names_of_match pairs mate (seq 0 (length mate)).

Section GetDisjointPairs.

(** [mw.maxWeightMatching(edges, maxcardinality=True)]: the matcher of
    the imported module [mwmatching].  What it is required to return is
    [MaxWeightMatching] below. *)
Variable maxWeightMatching : list Edge -> list Z.

(** [getDisjointPairs(pairs, oneProb)]; [oneProb = []] is the default
    argument, for which the weights are the random [draws]. *)
Definition getDisjointPairs (pairs : Pairs) (oneProb : list R)
    (draws : nat -> Z) : result (list string) :=
  edges <- getEdges pairs oneProb draws ;;
  let mate := maxWeightMatching edges in
  Ok (matchingPairs_of pairs mate).

End GetDisjointPairs.

(** *** The matcher's contract *)

(** The qubits covered by a list of edges. *)
Definition endpoints (M : list Edge) : list nat :=
  flat_map (fun e => [edge_a e; edge_b e]) M.

(** [M] is a matching of the graph [edges]: each of its edges is an edge
    of the graph and no vertex is covered twice. *)
Definition is_matching (edges M : list Edge) : Prop :=
  incl M edges /\ NoDup (endpoints M).

Definition total_weight (M : list Edge) : R := Rsum (map edge_w M).

(** Number of vertices: one more than the largest vertex named by an edge. *)
Definition nvertex (edges : list Edge) : nat :=
  fold_right (fun e n => Nat.max (S (edge_a e)) (Nat.max (S (edge_b e)) n))
             0%nat edges.

(** The vertex matched to [v] by [M], [-1] when [v] is single. *)
Fixpoint partner (M : list Edge) (v : nat) : Z :=
  match M with
  | [] => (-1)%Z
  | e :: M' =>
      if Nat.eqb (edge_a e) v then Z.of_nat (edge_b e)
      else if Nat.eqb (edge_b e) v then Z.of_nat (edge_a e)
      else partner M' v
  end.

(** The array [match]: [match[v]] is the partner of [v]. *)
Definition mate_of (M : list Edge) (n : nat) : list Z :=
  map (partner M) (seq 0 n).

(** Modelled from the spec: the result of [mw.maxWeightMatching(edges,
    maxcardinality=True)], whose module [mwmatching] is missing from the
    sources.  The specification says that it runs exact maximum-weight
    matching on the graph whose edges are the candidate pairs, with
    cardinality maximized, and that a layout without pairs gives an empty
    matching; the source adds that [match[j] = k] means that [j] and [k]
    are matched.  So [mate] is the partner array, indexed by vertex, of a
    matching [M] of [edges] such that no matching has more edges and no
    matching with as many edges is heavier. *)
Definition MaxWeightMatching (edges : list Edge) (mate : list Z) : Prop :=
  exists M,
    is_matching edges M /\
    mate = mate_of M (nvertex edges) /\
    (forall M', is_matching edges M' -> (length M' <= length M)%nat) /\
    (forall M', is_matching edges M' -> length M' = length M ->
                total_weight M' <= total_weight M).

(** *** Vocabulary of the properties *)

(** The qubits of the pairs named by [names]. *)
Definition qubits_of (pairs : Pairs) (names : list string) : list nat :=
  flat_map (fun p => match lookup pairs p with
                     | Ok (a, b) => [a; b]
                     | Raise _ => []
                     end) names.

(** A set of disjoint pairs of the layout: distinct names of the layout
    among whose qubits none occurs twice. *)
Definition disjoint_pairs (pairs : Pairs) (names : list string) : Prop :=
  NoDup names /\ incl names (keys pairs) /\ NoDup (qubits_of pairs names).

(** No two names of the layout stand for the same two qubits. *)
Definition no_parallel (pairs : Pairs) : Prop :=
  forall p q a b, In (p, (a, b)) pairs ->
    (In (q, (a, b)) pairs \/ In (q, (b, a)) pairs) -> p = q.

(** No pair of the layout is flagged fake. *)
Definition no_fakes (pairs : Pairs) : Prop :=
  forall p, In p (keys pairs) -> is_fake p = false.

(** The layout connects the qubits [0 .. k-1], every two of them. *)
Definition fully_connected (pairs : Pairs) (k : nat) : Prop :=
  (forall p a b, In (p, (a, b)) pairs -> (a < k)%nat /\ (b < k)%nat) /\
  (forall a b, (a < b)%nat -> (b < k)%nat ->
     exists p, In (p, (a, b)) pairs \/ In (p, (b, a)) pairs).

(** Pair [p] of the layout joins the two ends of an edge of [M]. *)
Definition joins (pairs : Pairs) (M : list Edge) (p : string) : Prop :=
  exists a b e, In (p, (a, b)) pairs /\ In e M /\
    ((edge_a e = a /\ edge_b e = b) \/ (edge_a e = b /\ edge_b e = a)).

(** The names of all matched pairs, the fake ones included. *)
Fixpoint matched_at (pairs : Pairs) (v : nat) (m : Z) : list string :=
  match pairs with
  | [] => []
  | (p, ab) :: rest =>
      if pair_is ab v m then p :: matched_at rest v m else matched_at rest v m
  end.

Definition matched_names (pairs : Pairs) (mate : list Z) : list string :=
  flat_map (fun v => matched_at pairs v (nth v mate (-1)%Z))
           (seq 0 (length mate)).

(** *** Sample layouts *)

(** One pair on two qubits. *)
Definition single_layout : Pairs := [("A"%string, (0, 1))]%nat.
Definition single_edges : list Edge := [(0%nat, 1%nat, 50)].

(** Two names for the same two qubits. *)
Definition twin_layout : Pairs :=
  [("A"%string, (0, 1)); ("B"%string, (1, 0))]%nat.
Definition twin_edges : list Edge := [(0%nat, 1%nat, 50); (1%nat, 0%nat, 50)].

(** Three qubits in a row, the second pair flagged fake. *)
Definition fake_layout : Pairs :=
  [("A"%string, (0, 1)); ("fake1"%string, (1, 2))]%nat.
Definition fake_oneProb : list R := [1 / 2; 0; 0].
Definition fake_edges : list Edge :=
  [(0%nat, 1%nat, - (1 / 2)); (1%nat, 2%nat, 0)].

(** Every draw of [random.randint(0,100)] gives 50. *)
Definition draws50 : nat -> Z := fun _ => 50%Z.

End Matching.
(** ** Waiting for the backend *)

Module Backend.

(** What [getResults] gets from the backend: bit string to frequency. *)
Definition Counts : Type := list (string * R).

(** A value of the dict that [get_counts] gives: the count of a bit
    string, or the text of a status report. *)
Inductive Value : Type :=
| Count (n : nat)
| Text (s : string).

(** How far the loop [while noResults] has come: it has ended with the
    results, or it is still running after the attempts it was given;
    [slept] lists the calls of [time.sleep] so far, in seconds. *)
Inductive Outcome (A : Type) : Type :=
| Returned (resultsVeryRaw : A) (attempts : nat) (slept : list nat)
| Retrying (attempts : nat) (slept : list nat).

Arguments Returned {A} resultsVeryRaw attempts slept.
Arguments Retrying {A} attempts slept.

(** ['status' not in resultsVeryRaw.keys()]. *)
Definition is_data {V : Type} (resultsVeryRaw : list (string * V)) : bool :=
  negb (existsb (String.eqb "status") (keys resultsVeryRaw)).

(** The loop of the QISKit branch; [execute k] is what the calls of
    [engine.execute(...)] and [get_counts] give in pass [k] of the loop,
    [None] when one of them raised; [fuel] is the number of passes
    observed. *)
Fixpoint getResults_QISKit {V : Type} (fuel : nat)
    (execute : nat -> option (list (string * V)))
    (k : nat) (slept : list nat) : Outcome (list (string * V)) :=
  match fuel with
  | O => Retrying k slept
  | S fuel' =>
      match execute k with
      | Some resultsVeryRaw =>
          if is_data resultsVeryRaw
          then Returned resultsVeryRaw (S k) slept
          else getResults_QISKit fuel' execute (S k) (slept ++ [300])
      | None => getResults_QISKit fuel' execute (S k) (slept ++ [600])
      end
  end.

(** The loop of the Forest branch; [run_and_measure k] is [None] when
    call [k] of [engine.run_and_measure] raised. *)
Fixpoint getResults_Forest {A : Type} (fuel : nat)
    (run_and_measure : nat -> option A)
    (k : nat) (slept : list nat) : Outcome A :=
  match fuel with
  | O => Retrying k slept
  | S fuel' =>
      match run_and_measure k with
      | Some samples => Returned samples (S k) slept
      | None =>
          getResults_Forest fuel' run_and_measure (S k) (slept ++ [1800])
      end
  end.

(** The pass of the QISKit loop is a failure: a call raised or the dict
    has a 'status' key. *)
Definition no_data {V : Type} (a : option (list (string * V))) : Prop :=
  match a with
  | Some resultsVeryRaw => is_data resultsVeryRaw = false
  | None => True
  end.

(** The sleep that follows a failed pass of the QISKit loop. *)
Definition sleep_after {V : Type} (a : option (list (string * V))) : nat :=
  match a with
  | Some _ => 300
  | None => 600
  end.

(** The loop has ended. *)
Definition ended {A : Type} (o : Outcome A) : Prop :=
  match o with
  | Returned _ _ _ => True
  | Retrying _ _ => False
  end.

(** Backends that never answer. *)
Definition qiskit_down : nat -> option (list (string * Value)) :=
  fun _ => None.
Definition forest_down : nat -> option (list (list bool)) := fun _ => None.

(** A QISKit backend that raises, then reports a status, then answers;
    a Forest backend that raises twice and then answers. *)
Definition qiskit_flaky : nat -> option (list (string * Value)) :=
  fun i => match i with
           | O => None
           | S O => Some [("status"%string, Text "ERROR")]
           | _ => Some [("00"%string, Count 1024)]
           end.
Definition forest_flaky : nat -> option (list (list bool)) :=
  fun i => if Nat.ltb i 2 then None else Some [].

End Backend.

(** ** Round engine *)

Module RoundEngine.

Import Transform Matching.
Local Open Scope R_scope.

(** One slice of [gates]: a dict from pair name to fraction of pi. *)
Definition GateRecord : Type := list (string * R).

(** The rotation axis of a conjugation, ['X'] or ['Z']. *)
Inductive Axis : Type := AxisX | AxisZ.

(** One entry of [conjugates]: for each qubit the list [axis, fraction]. *)
Definition ConjugateRecord : Type := list (Axis * R).

(** A gate handed to [implementGate]. *)
Inductive Op : Type :=
| Rot (axis : Axis) (qubit : nat) (frac : R)
| XX (qubit0 qubit1 : nat) (frac : R).

(** [d[p] = v]. *)
Fixpoint dict_set {V : Type} (d : list (string * V)) (p : string) (v : V)
    : list (string * V) :=
  match d with
  | [] => [(p, v)]
  | (k, w) :: d' =>
      if String.eqb k p then (k, v) :: d' else (k, w) :: dict_set d' p v
  end.

(** [p in d.keys()]. *)
Definition has_key {V : Type} (d : list (string * V)) (p : string) : bool :=
  existsb (String.eqb p) (keys d).

(** The layout of the device, as [getLayout(device)] gives it. *)
Record Layout : Type := {
  num : nat;
  pairs : Pairs
}.

(** *** [entangle] *)

(** [rounds = int( (len(gates)+1)/2 )]. *)
Definition entangle_rounds (gates : list GateRecord) : nat :=
  (length gates + 1) / 2.

(** [q[n]]: the register has [num] qubits. *)
Definition qubit (l : Layout) (n : nat) : result nat :=
  if Nat.ltb n (num l) then Ok n else Raise IndexError.

(** One half of the conjugation of round [r]: for each qubit [n] of [ns]
    the rotation [conjugates[r][n]], by the fraction [turn frac]: its
    opposite for the first half, itself for the second. *)
Fixpoint conjugation (l : Layout) (conjugates : list ConjugateRecord)
    (r : nat) (turn : R -> R) (ns : list nat) : result (list Op) :=
  match ns with
  | [] => Ok []
  | n :: ns' =>
      c <- index conjugates r ;;
      '(axis, frac) <- index c n ;;
      qn <- qubit l n ;;
      ops <- conjugation l conjugates r turn ns' ;;
      Ok (Rot axis qn (turn frac) :: ops)
  end.

(** The XX gates of the pairs [ps], with the fraction [frac_of p]. *)
Fixpoint entangling (l : Layout) (frac_of : string -> result R)
    (ps : list string) : result (list Op) :=
  match ps with
  | [] => Ok []
  | p :: ps' =>
      '(a, b) <- lookup (pairs l) p ;;
      qa <- qubit l a ;;
      qb <- qubit l b ;;
      f <- frac_of p ;;
      ops <- entangling l frac_of ps' ;;
      Ok (XX qa qb f :: ops)
  end.

(** The gates of the past round [r].  Python lists each of the three
    sets of pair names in an order that the hashes of the names decide;
    here they are listed in the order of the dicts they come from. *)
Definition past_round (l : Layout) (gates : list GateRecord)
    (conjugates : list ConjugateRecord) (r : nat) : result (list Op) :=
  inverse <- conjugation l conjugates r Ropp (seq 0 (num l)) ;;
  gates_create <- index gates (2 * r) ;;
  gates_remove <- index gates (2 * r + 1) ;;
  let pairs_both := filter (has_key gates_remove) (keys gates_create) in
  let pairs_create :=
    filter (fun p => negb (has_key gates_remove p)) (keys gates_create) in
  let pairs_remove :=
    filter (fun p => negb (has_key gates_create p)) (keys gates_remove) in
  both <- entangling l
            (fun p => c1 <- lookup gates_create p ;;
                      c2 <- lookup gates_remove p ;; Ok (c1 + c2))
            pairs_both ;;
  create <- entangling l (lookup gates_create) pairs_create ;;
  remove <- entangling l (lookup gates_remove) pairs_remove ;;
  forward <- conjugation l conjugates r (fun frac => frac) (seq 0 (num l)) ;;
  Ok (inverse ++ both ++ create ++ remove ++ forward).

Fixpoint past_rounds (l : Layout) (gates : list GateRecord)
    (conjugates : list ConjugateRecord) (rs : list nat) : result (list Op) :=
  match rs with
  | [] => Ok []
  | r :: rs' =>
      ops <- past_round l gates conjugates r ;;
      rest <- past_rounds l gates conjugates rs' ;;
      Ok (ops ++ rest)
  end.

(** The circuit that [entangle] builds from all gates so far. *)
Definition circuit (l : Layout) (gates : list GateRecord)
    (conjugates : list ConjugateRecord) : result (list Op) :=
  let rounds := entangle_rounds gates in
  past <- past_rounds l gates conjugates (seq 0 (rounds - 1)) ;;
  current <- match rounds with
             | O => Raise IndexError
             | S r => index gates (2 * r)
             end ;;
  now_ops <- entangling l (lookup current) (keys current) ;;
  Ok (past ++ now_ops).

(** [bitString[v] == "1"]. *)
Definition bit_is_one (bitString : string) (v : nat) : result bool :=
  match String.get v bitString with
  | Some c => Ok (Ascii.eqb c "1"%char)
  | None => Raise IndexError
  end.

(** The share of one bit string in [oneProb[v]], for the qubits [vs]. *)
Fixpoint add_string (bitString : string) (prob : R) (vs : list nat)
    (oneProb : list R) : result (list R) :=
  match vs, oneProb with
  | [], _ => Ok []
  | v :: vs', pv :: oneProb' =>
      one <- bit_is_one bitString v ;;
      rest <- add_string bitString prob vs' oneProb' ;;
      Ok ((if one then pv + prob else pv) :: rest)
  | _ :: _, [] => Raise IndexError
  end.

(** The fraction of results that came out as 1, for each qubit. *)
Fixpoint oneProb_of (n : nat) (results : list (string * R))
    (oneProb : list R) : result (list R) :=
  match results with
  | [] => Ok oneProb
  | (bitString, prob) :: rest =>
      oneProb' <- add_string bitString prob (seq 0 n) oneProb ;;
      oneProb_of n rest oneProb'
  end.

(** *** What a round takes from outside *)

(** The random draws of a round and the answers of the backend and of the
    player. *)
Record RoundWorld : Type := {
  (* the draws of [random.randint] in [getDisjointPairs(pairs)], step 1 *)
  puzzle_draws : nat -> Z;
  (* the successive draws of [random.random()] for the fractions *)
  puzzle_fracs : nat -> R;
  (* the dict [results] that [entangle] gets for a circuit: from
     [getResults], sampled again when simulated *)
  backend : list Op -> result (list (string * R));
  (* the draws of [getDisjointPairs(pairs)] for move 'R' *)
  guess_draws : nat -> Z;
  (* move 'M': the pairs the player chose and whether 'restart' was typed *)
  manual_guess : list string * bool;
  (* the draws of the bot's guess printed at the end of the round *)
  bot_draws : nat -> Z;
  (* [numpy.random.choice(['X','Z'])] and [random.random()] per qubit *)
  conj_axis : nat -> Axis;
  conj_frac : nat -> R
}.

(** [entangle]: the circuit of all gates so far is run and the results
    are reduced to [oneProb]. *)
Definition entangle (l : Layout) (w : RoundWorld) (gates : list GateRecord)
    (conjugates : list ConjugateRecord) : result (list R) :=
  ops <- circuit l gates conjugates ;;
  results <- backend w ops ;;
  oneProb_of (num l) results (repeat 0 (num l)).

(** *** [runGame] *)

(** The lists that [runGame] builds, the round counter and the flag
    [restart]. *)
Record GameState : Type := {
  gates : list GateRecord;
  conjugates : list ConjugateRecord;
  totalFuzz : list R;
  oneProbs : list (list R);
  score : nat;
  restart : bool
}.

(** Where the loop stands. *)
Inductive Phase : Type :=
| AwaitingPuzzle                      (* at the head of the loop *)
| AwaitingGuess (oneProb : list R) (matchingPairs : list string)
                                      (* step 1 is done *)
| RoundScored (gameOn : bool)         (* the body of the loop is done *)
| GameOver.

Definition Config : Type := (Phase * GameState)%type.

(** The saved game that is loaded when [dataNeeded] is false. *)
Record Recording : Type := {
  rec_oneProbs : list (list R);     (* [eval( oneProbSamples[ game ] )] *)
  rec_gates : list GateRecord;      (* [eval( gateSamples[ game ] )] *)
  rec_first_rounds : nat            (* [len( eval( oneProbSamples[0] ) )] *)
}.

(** The dict [appliedGates]: a fraction [random.random() / 2] for each
    matched pair. *)
Fixpoint apply_gates (fracs : nat -> R) (k : nat) (ps : list string)
    (appliedGates : GateRecord) : GateRecord :=
  match ps with
  | [] => appliedGates
  | p :: ps' =>
      apply_gates fracs (S k) ps' (dict_set appliedGates p (fracs k / 2))
  end.

(** The dict [guessedGates]: for each guessed pair the opposite of the
    fraction deduced from the mean of the [oneProb] of its two qubits. *)
Fixpoint guess_gates (pairs : Pairs) (oneProb : list R) (ps : list string)
    (guessedGates : GateRecord) : result GateRecord :=
  match ps with
  | [] => Ok guessedGates
  | p :: ps' =>
      '(a, b) <- lookup pairs p ;;
      pa <- index oneProb a ;;
      pb <- index oneProb b ;;
      guessedFrac <- calculateFrac (0 + pa / 2 + pb / 2) ;;
      guess_gates pairs oneProb ps' (dict_set guessedGates p (- guessedFrac))
  end.

(** [newconjugates]. *)
Definition new_conjugates (n : nat) (w : RoundWorld) : ConjugateRecord :=
  map (fun q => (conj_axis w q, conj_frac w q)) (seq 0 n).

Section RunGame.

Variable maxWeightMatching : list Edge -> list Z.
Variable layout : Layout.
Variable move : string.
Variable maxScore : nat.
Variable dataNeeded : bool.
Variable recording : Recording.
(** [world r] is what round [r] takes from outside. *)
Variable world : nat -> RoundWorld.

(** [maxScore] after the data is loaded: a [maxScore] of 0 stands for
    the number of rounds of the first saved game. *)
Definition max_score : nat :=
  if dataNeeded then maxScore
  else if Nat.eqb maxScore 0 then rec_first_rounds recording else maxScore.

(** The state before the loop. *)
Definition initial : Config :=
  (AwaitingPuzzle,
   if dataNeeded
   then {| gates := []; conjugates := []; totalFuzz := []; oneProbs := [];
           score := 0; restart := false |}
   else {| gates := rec_gates recording; conjugates := []; totalFuzz := [];
           oneProbs := rec_oneProbs recording;
           score := 0; restart := false |}).

(** Step 1 of a round: get a new puzzle. *)
Definition get_puzzle (st : GameState) : result Config :=
  let r := S (score st) in
  let w := world r in
  if dataNeeded then
    matchingPairs <-
      getDisjointPairs maxWeightMatching (pairs layout) [] (puzzle_draws w) ;;
    let appliedGates := apply_gates (puzzle_fracs w) 0 matchingPairs [] in
    let gates' := gates st ++ [appliedGates] in
    oneProb <- entangle layout w gates' (conjugates st) ;;
    Ok (AwaitingGuess oneProb matchingPairs,
        {| gates := gates'; conjugates := conjugates st;
           totalFuzz := totalFuzz st; oneProbs := oneProbs st;
           score := r; restart := restart st |})
  else
    oneProb <- index (oneProbs st) (r - 1) ;;
    gate <- index (gates st) (2 * (r - 1)) ;;
    Ok (AwaitingGuess oneProb (keys gate),
        {| gates := gates st; conjugates := conjugates st;
           totalFuzz := totalFuzz st; oneProbs := oneProbs st;
           score := r; restart := restart st |}).

(** Step 2: the guess of the player, by kind of move, and the flag
    [restart]. *)
Definition get_guess (st : GameState) (oneProb : list R)
    (matchingPairs : list string) : result (list string * bool) :=
  let w := world (score st) in
  if String.eqb move "C" then Ok (matchingPairs, restart st)
  else if String.eqb move "R" then
    g <- getDisjointPairs maxWeightMatching (pairs layout) []
           (guess_draws w) ;;
    Ok (g, restart st)
  else if String.eqb move "B" then
    g <- getDisjointPairs maxWeightMatching (pairs layout) oneProb
           (guess_draws w) ;;
    Ok (g, restart st)
  else if String.eqb move "M" then Ok (manual_guess w)
  else Ok ([], restart st).

(** The rest of the body of the loop, from step 2 on. *)
Definition score_round (st : GameState) (oneProb : list R)
    (matchingPairs : list string) : result Config :=
  let w := world (score st) in
  '(guessedPairs, restart') <- get_guess st oneProb matchingPairs ;;
  fuzz <- calculateFuzz oneProb (pairs layout) matchingPairs ;;
  let gameOn := Nat.ltb (score st) max_score && negb restart' in
  guessedGates <- guess_gates (pairs layout) oneProb guessedPairs [] ;;
  let st' :=
    {| gates := gates st ++ [guessedGates];
       conjugates := conjugates st ++ [new_conjugates (num layout) w];
       totalFuzz := totalFuzz st ++ [fuzz];
       oneProbs := oneProbs st ++ [oneProb];
       score := score st; restart := restart' |} in
  (* the bot's guess, computed for the report of the round *)
  _ <- getDisjointPairs maxWeightMatching (pairs layout) oneProb
         (bot_draws w) ;;
  Ok (RoundScored gameOn, st').

(** One move of the loop. *)
Definition step (c : Config) : result Config :=
  match c with
  | (AwaitingPuzzle, st) => get_puzzle st
  | (AwaitingGuess oneProb matchingPairs, st) =>
      score_round st oneProb matchingPairs
  | (RoundScored gameOn, st) =>
      Ok (if gameOn then AwaitingPuzzle else GameOver, st)
  | (GameOver, st) => Ok (GameOver, st)
  end.

(** The configurations that a game goes through. *)
Inductive reachable : Config -> Prop :=
| reach_initial : reachable initial
| reach_step : forall c c', reachable c -> step c = Ok c' -> reachable c'.

(** [fuel] moves of the loop. *)
Fixpoint run (fuel : nat) (c : Config) : result Config :=
  match fuel with
  | O => Ok c
  | S fuel' => c' <- step c ;; run fuel' c'
  end.

(** [runGame]: three moves per round, [max_score] rounds and one at
    least.  It returns [gates, conjugates, totalFuzz, oneProbs]. *)
Definition runGame : result Config :=
  run (3 * Nat.max 1 max_score) initial.

End RunGame.

(** *** The lengths of [gates] and [conjugates] *)

(** In a game on new data: after round [r] the list [gates] has [2r]
    entries, and [2r - 1] while round [r] waits for the guess;
    [conjugates] has [r - 1] entries while round [r] is under way. *)
Definition fresh_lengths (c : Config) : Prop :=
  let st := snd c in
  match fst c with
  | AwaitingPuzzle =>
      length (gates st) = (2 * score st)%nat /\
      length (conjugates st) = score st
  | AwaitingGuess _ _ =>
      (1 <= score st)%nat /\
      length (gates st) = (2 * score st - 1)%nat /\
      length (conjugates st) = (score st - 1)%nat
  | RoundScored _ | GameOver =>
      length (gates st) = (2 * score st)%nat /\
      length (conjugates st) = score st
  end.

(** In a game on saved data the gates of the puzzles are those loaded,
    [n0] of them, and a round adds the guessed gates only. *)
Definition replay_lengths (n0 : nat) (c : Config) : Prop :=
  let st := snd c in
  match fst c with
  | AwaitingPuzzle =>
      length (gates st) = (n0 + score st)%nat /\
      length (conjugates st) = score st
  | AwaitingGuess _ _ =>
      (1 <= score st)%nat /\
      length (gates st) = (n0 + score st - 1)%nat /\
      length (conjugates st) = (score st - 1)%nat
  | RoundScored _ | GameOver =>
      length (gates st) = (n0 + score st)%nat /\
      length (conjugates st) = score st
  end.

(** *** A saved game *)

Definition quiet_world : nat -> RoundWorld := fun _ =>
  {| puzzle_draws := draws50; puzzle_fracs := fun _ => 0;
     backend := fun _ => Ok [];
     guess_draws := draws50; manual_guess := ([], false);
     bot_draws := draws50;
     conj_axis := fun _ => AxisX; conj_frac := fun _ => 0 |}.

Definition two_qubits : Layout := {| num := 2; pairs := single_layout |}.

(** One saved round on [two_qubits]: the puzzle, the guess, the
    measurement. *)
Definition saved_round : Recording :=
  {| rec_oneProbs := [[0; 0]];
     rec_gates := [[("A"%string, 0)]; [("A"%string, - 0)]];
     rec_first_rounds := 1 |}.

End RoundEngine.

(** ** Calibration engine *)

Module Calibration.

Import Transform Matching RoundEngine.
Local Open Scope R_scope.

(** A quality [[fractionCorrect, closenessToIdeal]]. *)
Definition Quality : Type := (R * R)%type.

(** [x[n] = v]. *)
Fixpoint list_set (x : list R) (n : nat) (v : R) : list R :=
  match x, n with
  | [], _ => []
  | _ :: x', O => v :: x'
  | a :: x', S n' => a :: list_set x' n' v
  end.

(** [x[n] += delta]. *)
Definition add_at (x : list R) (n : nat) (delta : R) : result (list R) :=
  v <- index x n ;;
  Ok (list_set x n (v + delta)).

(** [x[n] -= delta]. *)
Definition sub_at (x : list R) (n : nat) (delta : R) : result (list R) :=
  v <- index x n ;;
  Ok (list_set x n (v - delta)).

(** *** [CleanData] and [CalculateQuality] *)

(** [CleanData]: the affine correction of each probability, cut to [0, 1];
    [n] is the index of the head of [oneProb]. *)
Fixpoint CleanData_from (x : list R) (n : nat) (oneProb : list R)
    : result (list R) :=
  match oneProb with
  | [] => Ok []
  | p :: rest =>
      scale <- index x (2 * n) ;;
      offset <- index x (2 * n + 1) ;;
      rest' <- CleanData_from x (S n) rest ;;
      Ok (Rmax 0 (Rmin 1 (scale * p + offset)) :: rest')
  end.

Definition CleanData (x : list R) (oneProb : list R) : result (list R) :=
  CleanData_from x 0 oneProb.

(** [realFracs]: the fraction of its pair for each qubit, 0 for a single
    qubit. *)
Fixpoint real_fracs (pairs : Pairs) (gate : GateRecord) (realFracs : list R)
    : result (list R) :=
  match gate with
  | [] => Ok realFracs
  | (p, frac) :: rest =>
      '(a, b) <- lookup pairs p ;;
      _ <- index realFracs a ;;
      let realFracs1 := list_set realFracs a frac in
      _ <- index realFracs1 b ;;
      real_fracs pairs rest (list_set realFracs1 b frac)
  end.

(** The sum over the qubits of
    [(calculateFrac(prob)-realFrac)**2 / len(oneProb)]. *)
Fixpoint closeness_sum (n : nat) (probs realFracs : list R) (acc : R)
    : result R :=
  match probs, realFracs with
  | prob :: probs', realFrac :: realFracs' =>
      f <- calculateFrac prob ;;
      closeness_sum n probs' realFracs'
        (acc + (f - realFrac) * (f - realFrac) / INR n)
  | _, _ => Ok acc
  end.

(** [score - 1], the index of Python: -1 is the last entry. *)
Definition round_index {A : Type} (l : list A) (score : nat) : result A :=
  match score with
  | O => match rev l with
         | a :: _ => Ok a
         | [] => Raise IndexError
         end
  | S r => index l r
  end.

(** [a / len]. *)
Definition div_len (a : R) (len : nat) : result R :=
  match len with
  | O => Raise ZeroDivisionError
  | S _ => Ok (a / INR len)
  end.

Section Quality.

Variable maxWeightMatching : list Edge -> list Z.
(** The saved games, read: for each game the [oneProb] of each round and
    its gate records. *)
Variable oneProbSamples : list (list (list R)).
Variable gateSamples : list (list GateRecord).
Variable pairs : Pairs.
Variable score : nat.
(** [randint i] are the draws of [random.randint] in the call of
    [getDisjointPairs] for game [i]; they are used when [oneProb] is
    empty. *)
Variable randint : nat -> nat -> Z.

(** The share of saved game [i] in the two sums of [CalculateQuality]. *)
Definition quality_of_sample (x : list R) (i : nat)
    (oneProbs : list (list R)) (gates : list GateRecord) (acc : Quality)
    : result Quality :=
  raw <- round_index oneProbs score ;;
  oneProb <- match x with
             | [] => Ok raw
             | _ :: _ => CleanData x raw
             end ;;
  gate <- match score with
          | O => match rev gates with
                 | _ :: g :: _ => Ok g
                 | _ => Raise IndexError
                 end
          | S r => index gates (2 * r)
          end ;;
  let matchingPairs := keys gate in
  guessedPairs <- getDisjointPairs maxWeightMatching pairs oneProb
                    (randint i) ;;
  let correctGuesses :=
    filter (fun p => existsb (String.eqb p) matchingPairs)
           (nodup string_dec guessedPairs) in
  share <- div_len (INR (length correctGuesses)) (length matchingPairs) ;;
  realFracs <- real_fracs pairs gate (repeat 0 (length oneProb)) ;;
  closeness <- closeness_sum (length oneProb) oneProb realFracs (snd acc) ;;
  Ok (fst acc + share, closeness).

Fixpoint quality_loop (x : list R) (i : nat) (ops : list (list (list R)))
    (gs : list (list GateRecord)) (acc : Quality) : result Quality :=
  match ops, gs with
  | oneProbs :: ops', gates :: gs' =>
      acc' <- quality_of_sample x i oneProbs gates acc ;;
      quality_loop x (S i) ops' gs' acc'
  | _, _ => Ok acc
  end.

(** [CalculateQuality(x, oneProbSamples, gateSamples, pairs, score)]. *)
Definition CalculateQuality (x : list R) : result Quality :=
  '(fractionCorrect, closenessToIdeal) <-
     quality_loop x 0 oneProbSamples gateSamples (0, 0) ;;
  fc <- div_len fractionCorrect (length oneProbSamples) ;;
  mse <- div_len closenessToIdeal (length oneProbSamples) ;;
  root <- math_sqrt mse ;;
  Ok (fc, 1 - root).

End Quality.

(** *** [Metropolis] *)

(** The random draws of one step: the coordinate
    [random.randint(0,2*num-1)], the change [random.uniform(+delta,-delta)]
    and the draw [random.random()] of the acceptance test. *)
Record Draw : Type := {
  coord : nat;
  random_delta : R;
  uniform : R
}.

(** The variables that the loops of [Metropolis] update. *)
Record MState : Type := {
  x : list R;
  quality : Quality;
  best_x : list R;
  bestQuality : Quality
}.

(** [diff]. *)
Definition proposal_diff (proposedQuality quality : Quality) : R :=
  1 * (fst proposedQuality - fst quality) +
  2 * (snd proposedQuality - snd quality).

(** [accept = ( random.random() < math.exp(diff/T) )].  The division by
    [T = 0] raises [ZeroDivisionError]; a quotient above the largest
    float is inf, of which [math.exp] is inf without an error, so that
    the test holds; [math.exp] of a finite quotient raises
    [OverflowError] when its result overflows. *)
Definition accept (u diff T : R) : result bool :=
  if Req_dec_T T 0 then Raise ZeroDivisionError
  else if Rlt_dec float_max (diff / T) then Ok true
  else
    e <- math_exp (diff / T) ;;
    Ok (if Rlt_dec u e then true else false).

(** [x = copy.deepcopy(best_x); quality = copy.deepcopy(bestQuality)]. *)
Definition restart_from_best (s : MState) : MState :=
  {| x := best_x s; quality := bestQuality s;
     best_x := best_x s; bestQuality := bestQuality s |}.

Section Metropolis.

(** [CalculateQuality ( x, oneProbSamples, gateSamples, pairs, score )] as
    a function of [x], its other arguments being those of [Metropolis]. *)
Variable quality_of : list R -> result Quality.
Variable num : nat.
Variable T : R.

(** The body of the loop over [step]. *)
Definition proposal_step (s : MState) (d : Draw) : result MState :=
  _ <- (if Nat.eqb num 0 then Raise ValueError else Ok tt) ;;
  x1 <- add_at (x s) (coord d) (random_delta d) ;;
  proposedQuality <- quality_of x1 ;;
  let diff := proposal_diff proposedQuality (quality s) in
  accepted <- accept (uniform d) diff T ;;
  '(x2, quality2) <-
     (if accepted : bool then Ok (x1, proposedQuality)
      else x' <- sub_at x1 (coord d) (random_delta d) ;;
           Ok (x', quality s)) ;;
  if Rlt_dec (fst (bestQuality s)) (fst quality2)
  then Ok {| x := x2; quality := quality2;
             best_x := x2; bestQuality := quality2 |}
  else Ok {| x := x2; quality := quality2;
             best_x := best_x s; bestQuality := bestQuality s |}.

(** The loop over [step]: [steps] steps are left, [k] are done. *)
Fixpoint run_steps (steps : nat) (draws : nat -> Draw) (k : nat)
    (s : MState) : result MState :=
  match steps with
  | O => Ok s
  | S steps' =>
      s' <- proposal_step s (draws k) ;;
      run_steps steps' draws (S k) s'
  end.

(** The loop over [rep]: [reps] repetitions are left, [rep] are done;
    [draws rep k] are the draws of step [k] of repetition [rep]. *)
Fixpoint run_repetitions (steps : nat) (draws : nat -> nat -> Draw)
    (reps rep : nat) (s : MState) : result MState :=
  match reps with
  | O => Ok s
  | S reps' =>
      s' <- run_steps steps (draws rep) 0 (restart_from_best s) ;;
      run_repetitions steps draws reps' (S rep) s'
  end.

(** The variables before the loops. *)
Definition start (x0 : list R) (q0 : Quality) : MState :=
  {| x := x0; quality := q0; best_x := x0; bestQuality := q0 |}.

(** [Metropolis]. *)
Definition Metropolis (x0 : list R) (steps repetitions : nat)
    (draws : nat -> nat -> Draw) : result (list R) :=
  q0 <- quality_of x0 ;;
  s <- run_repetitions steps draws repetitions 0 (start x0 q0) ;;
  Ok (best_x s).

(** One move of the search: a step of the inner loop, on some draws, or
    the start of a repetition. *)
Inductive move : MState -> MState -> Prop :=
| move_step : forall s d s', proposal_step s d = Ok s' -> move s s'
| move_restart : forall s, move s (restart_from_best s).

(** The states that follow [s] in a search, [s] included. *)
Inductive follows (s : MState) : MState -> Prop :=
| follows_refl : follows s s
| follows_move : forall t t', follows s t -> move t t' -> follows s t'.

End Metropolis.

(** A quality function for examples: the sum of [x] as the fraction of
    correct pairs, closeness 0. *)
Definition sum_quality (x : list R) : result Quality := Ok (Rsum x, 0).

(** Another one: the fraction rises with the sum of [x] as the closeness
    falls. *)
Definition fraction_against_closeness (x : list R) : result Quality :=
  Ok (Rsum x, - Rsum x).

(** A step that adds [-1] to [x[0]] with the draw 1/2 for the test. *)
Definition down_draw : Draw :=
  {| coord := 0; random_delta := -1; uniform := 1 / 2 |}.

(** A step that adds [1] to [x[0]]. *)
Definition up_draw : Draw :=
  {| coord := 0; random_delta := 1; uniform := 1 / 2 |}.

(** The search from [x = [0]] after the step [up_draw], and after the
    step [down_draw] that follows it at temperature 100. *)
Definition up_state : MState :=
  {| x := [0 + 1]; quality := (Rsum [0 + 1], 0);
     best_x := [0 + 1]; bestQuality := (Rsum [0 + 1], 0) |}.

Definition down_state : MState :=
  {| x := [0 + 1 + -1]; quality := (Rsum [0 + 1 + -1], 0);
     best_x := [0 + 1]; bestQuality := (Rsum [0 + 1], 0) |}.

End Calibration.

(** ** The Born rule *)

Module Born.

Local Open Scope R_scope.

(** [Prob(1) = sin(frac*pi/2)^2]: the probability of outcome 1 after a
    rotation by the fraction [frac] of pi, which [calculateFrac] inverts. *)
Definition born (frac : R) : R := Rsqr (sin (frac * PI / 2)).

End Born.

(** ** From the answer of the backend to [resultsRaw] *)

Module Readout.

Import Transform Backend RoundEngine Calibration.
Local Open Scope R_scope.

(** [string[::-1]]. *)
Definition reverse_string (s : string) : string :=
  string_of_list_ascii (rev (list_ascii_of_string s)).

(** QISKit: the order of each bit string is inverted and its count is
    turned into a frequency, [resultsVeryRaw[string]/shots]. *)
Fixpoint invert_counts (shots : nat) (resultsVeryRaw resultsRaw : Counts)
    : result Counts :=
  match resultsVeryRaw with
  | [] => Ok resultsRaw
  | (s, count) :: rest =>
      prob <- div_len count shots ;;
      invert_counts shots rest (dict_set resultsRaw (reverse_string s) prob)
  end.

(** ProjectQ: [[''.join(x) for x in product('01', repeat=num)]]. *)
Fixpoint all_strings (n : nat) : list string :=
  match n with
  | O => [EmptyString]
  | S n' =>
      map (String "0"%char) (all_strings n') ++
      map (String "1"%char) (all_strings n')
  end.

(** [qubit in qubits_active]. *)
Definition is_active (qubits_active : list nat) (qubit : nat) : bool :=
  existsb (Nat.eqb qubit) qubits_active.

(** [str(b)] for a measured bit. *)
Definition str_bit (b : bool) : ascii := if b then "1"%char else "0"%char.

(** Forest: the bit string of one sample, over the qubits [qubits]; a
    sample holds the bits of the active qubits only, a dead qubit reads
    "0". *)
Fixpoint bit_string (qubits_active : list nat) (sample : list bool)
    (qubits : list nat) (disabled_so_far : nat) : result string :=
  match qubits with
  | [] => Ok EmptyString
  | qubit :: rest =>
      if is_active qubits_active qubit then
        b <- index sample (qubit - disabled_so_far) ;;
        bits <- bit_string qubits_active sample rest disabled_so_far ;;
        Ok (String (str_bit b) bits)
      else
        bits <- bit_string qubits_active sample rest (S disabled_so_far) ;;
        Ok (String "0"%char bits)
  end.

(** Forest: the loop over the samples; each adds [1/shots] to the entry
    of its bit string. *)
Fixpoint count_samples (num shots : nat) (qubits_active : list nat)
    (resultsVeryRaw : list (list bool)) (resultsRaw : Counts)
    : result Counts :=
  match resultsVeryRaw with
  | [] => Ok resultsRaw
  | sample :: rest =>
      bitString <- bit_string qubits_active sample (seq 0 num) 0 ;;
      let resultsRaw1 :=
        if has_key resultsRaw bitString then resultsRaw
        else dict_set resultsRaw bitString 0 in
      old <- lookup resultsRaw1 bitString ;;
      share <- div_len 1 shots ;;
      count_samples num shots qubits_active rest
        (dict_set resultsRaw1 bitString (old + share))
  end.

(** What the bit string of an entry of [results] adds to [oneProb[v]]:
    its frequency when its bit [v] is "1". *)
Definition share_at (v : nat) (e : string * R) : R :=
  match String.get v (fst e) with
  | Some c => if Ascii.eqb c "1"%char then snd e else 0
  | None => 0
  end.

(** The total frequency of the bit strings whose bit [v] is "1". *)
Definition ones_at (v : nat) (results : Counts) : R :=
  Rsum (map (share_at v) results).

(** The map from an entry of QISKit's counts to the entry of
    [resultsRaw]. *)
Definition inverted (shots : nat) (e : string * R) : string * R :=
  (reverse_string (fst e), snd e / INR shots).

(** Two samples of three qubits of which the second is dead. *)
Definition two_samples : list (list bool) := [[true; false]; [true; true]].

End Readout.

(** ** Vocabulary of further properties *)

Module Vocabulary.

Import Transform Matching RoundEngine Calibration.
Local Open Scope R_scope.

(** The two qubits of a pair index probabilities of [oneProb]. *)
Definition measured (oneProb : list R) (ab : nat * nat) : Prop :=
  exists pa pb, nth_error oneProb (fst ab) = Some pa /\
                nth_error oneProb (snd ab) = Some pb /\
                0 <= pa <= 1 /\ 0 <= pb <= 1.

(** The two qubits of a pair index entries of [oneProb] that are not
    negative. *)
Definition not_negative (oneProb : list R) (ab : nat * nat) : Prop :=
  exists pa pb, nth_error oneProb (fst ab) = Some pa /\
                nth_error oneProb (snd ab) = Some pb /\
                0 <= pa /\ 0 <= pb.

(** Every pair of the layout joins two qubits of the register. *)
Definition in_register (l : Layout) : Prop :=
  forall p a b, In (p, (a, b)) (pairs l) ->
                (a < num l)%nat /\ (b < num l)%nat.

(** The history of a game holds a rotation for each qubit in every entry
    of [conjugates] and names of the layout only in [gates]. *)
Definition history_ok (l : Layout) (st : GameState) : Prop :=
  (forall c, In c (conjugates st) -> length c = num l) /\
  (forall g p, In g (gates st) -> In p (keys g) -> In p (keys (pairs l))).

(** What holds of the round counter in a game whose player never types
    'restart': [M] is [maxScore] as the game uses it. *)
Definition rounds_invariant (M : nat) (c : Config) : Prop :=
  let st := snd c in
  restart st = false /\
  match fst c with
  | AwaitingPuzzle =>
      (score st = 0 \/ score st < M)%nat /\
      length (totalFuzz st) = score st
  | AwaitingGuess _ _ =>
      (1 <= score st)%nat /\ (score st = 1 \/ score st <= M)%nat /\
      length (totalFuzz st) = (score st - 1)%nat
  | RoundScored gameOn =>
      (1 <= score st)%nat /\ (score st = 1 \/ score st <= M)%nat /\
      gameOn = Nat.ltb (score st) M /\
      length (totalFuzz st) = score st
  | GameOver =>
      score st = Nat.max 1 M /\ length (totalFuzz st) = score st
  end.

(** [[1,0]*num], the profile from which [CreateCleaningProfile] starts
    each search. *)
Definition identity_profile (num : nat) : list R :=
  concat (repeat [1; 0] num).

(** [xs] has the entries of [x0], each moved by [d] at most. *)
Definition within (d : R) (x0 xs : list R) : Prop :=
  length xs = length x0 /\
  forall i a b, nth_error x0 i = Some a -> nth_error xs i = Some b ->
                Rabs (b - a) <= d.

End Vocabulary.

(** ** The manual move *)

Module Manual.

Import Transform Matching RoundEngine Calibration.
Local Open Scope R_scope.

(** The variables of the loop in which the player of move 'M' chooses
    pairs. *)
Record Choosing : Type := {
  guessedPairs : list string;
  displayedOneProb : list R;
  unpaired : nat;
  asked_restart : bool
}.

(** [l[n] = v], which raises [IndexError] out of range. *)
Definition set_at (l : list R) (n : nat) (v : R) : result (list R) :=
  _ <- index l n ;;
  Ok (list_set l n v).

(** [for n in pos.keys(): unpaired += ( displayedOneProb[n] <= 1 )]. *)
Fixpoint count_unpaired (displayed : list R) (ns : list nat) (acc : nat)
    : result nat :=
  match ns with
  | [] => Ok acc
  | n :: ns' =>
      v <- index displayed n ;;
      count_unpaired displayed ns' (if Rle_dec v 1 then S acc else acc)
  end.

Section Choose.

(** [str.upper]. *)
Variable str_upper : string -> string.
Variable layout : Layout.
(** [pos.keys()]: the qubits to which the layout gives a position. *)
Variable pos_keys : list nat.
(** [printPuzzle( device, displayedOneProb, move )]: it returns nothing;
    what it draws is not modelled, what it raises ends the game. *)
Variable printPuzzle : list R -> result unit.

(** The variables before the loop. *)
Definition first_choice (oneProb : list R) : Choosing :=
  {| guessedPairs := []; displayedOneProb := oneProb;
     unpaired := num layout; asked_restart := false |}.

(** The body of the loop, for the line [input] that the player types. *)
Definition choose (c : Choosing) (input : string) : result Choosing :=
  _ <- printPuzzle (displayedOneProb c) ;;
  let pairGuess :=
    if Nat.leb (num layout) 26 then str_upper input else input in
  if has_key (pairs layout) pairGuess
     && negb (existsb (String.eqb pairGuess) (guessedPairs c))
  then
    '(a, b) <- lookup (pairs layout) pairGuess ;;
    d1 <- set_at (displayedOneProb c) a 2 ;;
    d2 <- set_at d1 b 2 ;;
    u <- count_unpaired d2 pos_keys 0 ;;
    Ok {| guessedPairs := guessedPairs c ++ [pairGuess];
          displayedOneProb := d2; unpaired := u;
          asked_restart := asked_restart c |}
  else if String.eqb (str_upper pairGuess) "DONE" then
    Ok {| guessedPairs := guessedPairs c;
          displayedOneProb := displayedOneProb c; unpaired := 0;
          asked_restart := asked_restart c |}
  else if String.eqb (str_upper pairGuess) "RESTART" then
    Ok {| guessedPairs := guessedPairs c;
          displayedOneProb := displayedOneProb c; unpaired := 0;
          asked_restart := true |}
  else Ok c.

(** The loop [while (unpaired>1)] on the lines typed so far: what comes
    back is the state at the exit of the loop, or the state in which the
    loop waits for the next line. *)
Fixpoint choosing (inputs : list string) (c : Choosing) : result Choosing :=
  match inputs with
  | [] => Ok c
  | input :: rest =>
      if Nat.ltb 1 (unpaired c)
      then c' <- choose c input ;; choosing rest c'
      else Ok c
  end.

End Choose.

(** What the loop keeps: the pairs chosen are names of the layout, none
    twice; the qubits of a chosen pair are shown as 2, the others as
    measured. *)
Definition choices_ok (layout : Layout) (oneProb : list R) (c : Choosing)
    : Prop :=
  NoDup (guessedPairs c) /\
  (forall p, In p (guessedPairs c) -> In p (keys (pairs layout))) /\
  length (displayedOneProb c) = length oneProb /\
  (forall p a b, In p (guessedPairs c) ->
                 lookup (pairs layout) p = Ok (a, b) ->
                 nth_error (displayedOneProb c) a = Some 2 /\
                 nth_error (displayedOneProb c) b = Some 2) /\
  (forall n, (forall p a b, In p (guessedPairs c) ->
                            lookup (pairs layout) p = Ok (a, b) ->
                            n <> a /\ n <> b) ->
             nth_error (displayedOneProb c) n = nth_error oneProb n).

(** [str.upper] on the letters a to z. *)
Definition upper_ascii (c : ascii) : ascii :=
  let n := nat_of_ascii c in
  if Nat.leb 97 n && Nat.leb n 122 then ascii_of_nat (n - 32) else c.

Fixpoint upper (s : string) : string :=
  match s with
  | EmptyString => EmptyString
  | String c s' => String (upper_ascii c) (upper s')
  end.

End Manual.
(** * Properties *)

(** ** Lists and dicts *)

Lemma index_Ok : forall {A : Type} (l : list A) n d,
  n < length l -> index l n = Ok (nth n l d).
Proof.
  intros A l n d H. unfold index.
  rewrite (nth_error_nth' l d H). reflexivity.
Qed.

Lemma index_Raise : forall {A : Type} (l : list A) n,
  length l <= n -> index l n = Raise IndexError.
Proof.
  intros A l n H. unfold index.
  apply nth_error_None in H. rewrite H. reflexivity.
Qed.

Lemma lookup_In : forall {V : Type} (d : list (string * V)) p v,
  lookup d p = Ok v -> In (p, v) d.
Proof.
  induction d as [|[k w] d IH]; simpl; intros p v H.
  - discriminate.
  - destruct (String.eqb k p) eqn:E.
    + apply String.eqb_eq in E. inversion H. subst. now left.
    + right. now apply IH.
Qed.

Lemma In_lookup : forall {V : Type} (d : list (string * V)) p v,
  NoDup (keys d) -> In (p, v) d -> lookup d p = Ok v.
Proof.
  induction d as [|[k w] d IH]; simpl; intros p v ND H.
  - contradiction.
  - inversion ND as [|? ? Hk ND']; subst.
    destruct H as [H|H].
    + inversion H; subst. now rewrite String.eqb_refl.
    + destruct (String.eqb k p) eqn:E.
      * apply String.eqb_eq in E. subst k.
        exfalso. apply Hk. unfold keys.
        change p with (fst (p, v)). now apply in_map.
      * now apply IH.
Qed.



Lemma pairs_functional : forall {V : Type} (d : list (string * V)) p v v',
  NoDup (keys d) -> In (p, v) d -> In (p, v') d -> v = v'.
Proof.
  intros V d p v v' ND H H'.
  apply (In_lookup d p v ND) in H. apply (In_lookup d p v' ND) in H'.
  congruence.
Qed.

Lemma In_keys : forall {V : Type} (d : list (string * V)) p,
  In p (keys d) -> exists v, In (p, v) d.
Proof.
  intros V d p H. unfold keys in H. apply in_map_iff in H.
  destruct H as ([k v] & E & H). simpl in E. subst k. now exists v.
Qed.

Lemma keys_In : forall {V : Type} (d : list (string * V)) p v,
  In (p, v) d -> In p (keys d).
Proof.
  intros V d p v H. unfold keys. change p with (fst (p, v)). now apply in_map.
Qed.

(** A concatenation of duplicate-free blocks that pairwise share nothing
    is duplicate-free. *)
Lemma NoDup_flat_map : forall {A B : Type} (f : A -> list B) (l : list A),
  NoDup l ->
  (forall x, In x l -> NoDup (f x)) ->
  (forall x y z, In x l -> In y l -> In z (f x) -> In z (f y) -> x = y) ->
  NoDup (flat_map f l).
Proof.
  intros A B f l ND. induction ND as [|x l Hx ND IH]; intros Hf Hd.
  - constructor.
  - simpl. apply NoDup_app.
    + apply Hf. now left.
    + apply IH.
      * intros y Hy. apply Hf. now right.
      * intros y y' z Hy Hy'. apply Hd; now right.
    + intros z Hz Hz'. apply in_flat_map in Hz'.
      destruct Hz' as (y & Hy & Hzy).
      assert (x = y) by (apply (Hd x y z); auto; [now left | now right]).
      subst y. contradiction.
Qed.

Lemma NoDup_filter : forall {A : Type} (f : A -> bool) (l : list A),
  NoDup l -> NoDup (filter f l).
Proof.
  intros A f l ND. induction ND as [|x l Hx ND IH]; simpl.
  - constructor.
  - destruct (f x); [|exact IH].
    constructor; [|exact IH].
    intros H. apply filter_In in H. tauto.
Qed.

Lemma lookup_keys : forall {V : Type} (d : list (string * V)) p,
  In p (keys d) -> exists v, lookup d p = Ok v.
Proof.
  induction d as [|[k w] d IH]; simpl; intros p H.
  - contradiction.
  - destruct (String.eqb k p) eqn:E.
    + now exists w.
    + destruct H as [H|H].
      * subst k. rewrite String.eqb_refl in E. discriminate.
      * now apply IH.
Qed.

Lemma filter_all : forall {A : Type} (f : A -> bool) (l : list A),
  (forall x, In x l -> f x = true) -> filter f l = l.
Proof.
  intros A f l. induction l as [|x l IH]; intros H; simpl.
  - reflexivity.
  - rewrite (H x (or_introl eq_refl)). f_equal.
    apply IH. intros y Hy. apply H. now right.
Qed.
(** ** Properties of the probability-angle transform *)

Module TransformFacts.

Import Transform.
Local Open Scope R_scope.

Lemma calculateFrac_in_domain : forall p,
  0 <= p <= 1 -> calculateFrac p = Ok (asin (sqrt p) * 2 / PI).
Proof.
  intros p [H0 H1]. unfold calculateFrac, math_sqrt, math_asin.
  destruct (Rle_dec 0 p) as [_|N]; [|contradiction]. simpl.
  assert (Hs0 : 0 <= sqrt p) by apply sqrt_pos.
  assert (Hs1 : sqrt p <= 1).
  { rewrite <- sqrt_1. apply sqrt_le_1; lra. }
  destruct (Rle_dec (-1) (sqrt p)) as [_|N]; [|lra].
  destruct (Rle_dec (sqrt p) 1) as [_|N]; [|contradiction].
  reflexivity.
Qed.

Lemma calculateFrac_negative : forall p,
  p < 0 -> calculateFrac p = Raise ValueError.
Proof.
  intros p H. unfold calculateFrac, math_sqrt.
  destruct (Rle_dec 0 p) as [P|_]; [lra|]. reflexivity.
Qed.

Lemma calculateFrac_above_one : forall p,
  1 < p -> calculateFrac p = Raise ValueError.
Proof.
  intros p H. unfold calculateFrac, math_sqrt, math_asin.
  destruct (Rle_dec 0 p) as [_|N]; [|lra]. simpl.
  assert (Hs : 1 < sqrt p).
  { rewrite <- sqrt_1 at 1. apply sqrt_lt_1; lra. }
  destruct (Rle_dec (-1) (sqrt p)) as [_|N]; [|lra].
  destruct (Rle_dec (sqrt p) 1) as [P|_]; [lra|]. reflexivity.
Qed.

Lemma asin_monotone : forall x y,
  -1 <= x -> x <= y -> y <= 1 -> asin x <= asin y.
Proof.
  intros x y Hx Hxy Hy.
  destruct (Rle_lt_dec (asin x) (asin y)) as [H|H]; [exact H|].
  exfalso.
  pose proof (asin_bound x) as Bx. pose proof (asin_bound y) as By.
  assert (S : sin (asin y) < sin (asin x)).
  { apply sin_increasing_1; lra. }
  rewrite !sin_asin in S; lra.
Qed.

Lemma frac_value_range : forall p,
  0 <= p <= 1 -> 0 <= asin (sqrt p) * 2 / PI <= 1.
Proof.
  intros p [H0 H1].
  pose proof PI_RGT_0 as HPI.
  assert (Hs0 : 0 <= sqrt p) by apply sqrt_pos.
  assert (Hs1 : sqrt p <= 1).
  { rewrite <- sqrt_1. apply sqrt_le_1; lra. }
  assert (A0 : 0 <= asin (sqrt p)).
  { rewrite <- asin_0. apply asin_monotone; lra. }
  assert (A1 : asin (sqrt p) <= PI / 2).
  { rewrite <- asin_1. apply asin_monotone; lra. }
  split.
  - apply Rmult_le_pos; [lra|]. left. now apply Rinv_0_lt_compat.
  - apply (Rmult_le_reg_r PI); [exact HPI|].
    unfold Rdiv. rewrite Rmult_assoc, Rinv_l; lra.
Qed.

Lemma frac_value_monotone : forall p q,
  0 <= p -> p <= q -> q <= 1 ->
  asin (sqrt p) * 2 / PI <= asin (sqrt q) * 2 / PI.
Proof.
  intros p q H0 Hpq H1.
  pose proof PI_RGT_0 as HPI.
  assert (Hs : sqrt p <= sqrt q) by (apply sqrt_le_1; lra).
  assert (Hp0 : 0 <= sqrt p) by apply sqrt_pos.
  assert (Hq1 : sqrt q <= 1).
  { rewrite <- sqrt_1. apply sqrt_le_1; lra. }
  assert (A : asin (sqrt p) <= asin (sqrt q)).
  { apply asin_monotone; lra. }
  unfold Rdiv. apply Rmult_le_compat_r.
  - left. now apply Rinv_0_lt_compat.
  - lra.
Qed.

Lemma calculateFrac_0 : calculateFrac 0 = Ok 0.
Proof.
  rewrite calculateFrac_in_domain by lra.
  rewrite sqrt_0, asin_0. f_equal. unfold Rdiv. lra.
Qed.

Lemma calculateFrac_1 : calculateFrac 1 = Ok 1.
Proof.
  rewrite calculateFrac_in_domain by lra.
  rewrite sqrt_1, asin_1. f_equal.
  pose proof PI_RGT_0. field. lra.
Qed.

(** C2: for probabilities [p <= q] of [0, 1], [calculateFrac] returns
    fractions of [0, 1], the one of [p] not above the one of [q]; and it
    returns 0 at 0 and 1 at 1. *)
Theorem calculateFrac_range_monotone : forall p q,
  0 <= p -> p <= q -> q <= 1 ->
  exists fp fq,
    calculateFrac p = Ok fp /\ calculateFrac q = Ok fq /\
    0 <= fp <= 1 /\ 0 <= fq <= 1 /\ fp <= fq /\
    calculateFrac 0 = Ok 0 /\ calculateFrac 1 = Ok 1.
Proof.
  intros p q H0 Hpq H1.
  exists (asin (sqrt p) * 2 / PI), (asin (sqrt q) * 2 / PI).
  repeat split.
  - apply calculateFrac_in_domain; lra.
  - apply calculateFrac_in_domain; lra.
  - apply frac_value_range; lra.
  - apply frac_value_range; lra.
  - apply frac_value_range; lra.
  - apply frac_value_range; lra.
  - now apply frac_value_monotone.
  - exact calculateFrac_0.
  - exact calculateFrac_1.
Qed.

Lemma calculateFrac_range_monotone_witness :
  exists fp fq,
    calculateFrac (1/4) = Ok fp /\ calculateFrac (1/2) = Ok fq /\
    0 <= fp <= 1 /\ 0 <= fq <= 1 /\ fp <= fq /\
    calculateFrac 0 = Ok 0 /\ calculateFrac 1 = Ok 1.
Proof.
  apply (calculateFrac_range_monotone (1/4) (1/2)); lra.
Defined.

(** C3, as stated, fails: at [p = -1] the specification's clamped formula
    has a value, but [calculateFrac] raises [ValueError]. *)
Lemma calculateFrac_not_total :
  calculateFrac (-1) = Raise ValueError /\
  calculateFrac (-1) <> Ok (fracFromProb (-1)).
Proof.
  assert (E : calculateFrac (-1) = Raise ValueError).
  { apply calculateFrac_negative. lra. }
  split; [exact E|]. rewrite E. discriminate.
Qed.

Lemma clamp01_id : forall p, 0 <= p <= 1 -> clamp01 p = p.
Proof.
  intros p [H0 H1]. unfold clamp01.
  rewrite Rmin_left by lra. now rewrite Rmax_right by lra.
Qed.

(** C3, amended: [calculateFrac] does not clamp.  On [0, 1] it returns
    (2/pi) * asin(sqrt(p)), which is the specification's formula there;
    below 0 it raises [ValueError] instead of returning the value at
    0. *)
Theorem calculateFrac_partial : forall p,
  (0 <= p <= 1 -> calculateFrac p = Ok (fracFromProb p)) /\
  (p < 0 -> calculateFrac p = Raise ValueError).
Proof.
  intros p. split.
  - intros H. rewrite calculateFrac_in_domain by exact H.
    unfold fracFromProb. rewrite clamp01_id by exact H.
    f_equal. unfold Rdiv. ring.
  - intros H. now apply calculateFrac_negative.
Qed.

Lemma calculateFrac_partial_witness :
  calculateFrac (1/2) = Ok (fracFromProb (1/2)) /\
  calculateFrac (- (1/2)) = Raise ValueError.
Proof.
  split.
  - apply (calculateFrac_partial (1/2)). lra.
  - apply (calculateFrac_partial (- (1/2))). lra.
Defined.

(** *** [calculateFracDifference] *)

Lemma max_minus_min : forall a b, Rmax a b - Rmin a b = Rabs (a - b).
Proof.
  intros a b. unfold Rmax, Rmin, Rabs.
  destruct (Rle_dec a b); destruct (Rcase_abs (a - b)); lra.
Qed.

(** C8, as stated, fails: two fractions that are 2 apart have a negative
    disagreement. *)
Lemma calculateFracDifference_out_of_bounds :
  calculateFracDifference (-1) 1 = -1 /\
  ~ (0 <= calculateFracDifference (-1) 1 <= 1/2).
Proof.
  assert (E : calculateFracDifference (-1) 1 = -1).
  { unfold calculateFracDifference.
    rewrite max_minus_min. unfold Rabs, Rmin.
    destruct (Rcase_abs (-1 - 1)); destruct (Rle_dec _ _); lra. }
  split; [exact E|]. rewrite E. lra.
Qed.

(** C8, amended: [calculateFracDifference] is symmetric, equals
    min(|f1-f2|, 1-|f1-f2|) and is at most 1/2 for all fractions; it is
    at least 0 when the two fractions are at most 1 apart, as two
    fractions of [0, 1] are. *)
Theorem calculateFracDifference_cyclic : forall f1 f2,
  calculateFracDifference f1 f2 = calculateFracDifference f2 f1 /\
  calculateFracDifference f1 f2 = Rmin (Rabs (f1 - f2)) (1 - Rabs (f1 - f2)) /\
  calculateFracDifference f1 f2 <= 1/2 /\
  (Rabs (f1 - f2) <= 1 -> 0 <= calculateFracDifference f1 f2).
Proof.
  intros f1 f2. unfold calculateFracDifference.
  rewrite !max_minus_min. rewrite (Rabs_minus_sym f2 f1).
  pose proof (Rabs_pos (f1 - f2)) as P.
  repeat split.
  - unfold Rmin. destruct (Rle_dec _ _); lra.
  - intros H. unfold Rmin. destruct (Rle_dec _ _); lra.
Qed.

Lemma calculateFracDifference_cyclic_witness :
  Rabs (1/4 - 1) <= 1 /\ 0 <= calculateFracDifference (1/4) 1.
Proof.
  assert (H : Rabs (1/4 - 1) <= 1).
  { unfold Rabs. destruct (Rcase_abs _); lra. }
  split; [exact H|].
  apply (calculateFracDifference_cyclic (1/4) 1). exact H.
Defined.

(** *** [calculateFuzz] *)

Lemma fuzz_loop_sum : forall oneProb pairs n rest acc,
  indexes_into oneProb pairs rest ->
  fuzz_loop oneProb pairs n rest acc =
    Ok (acc + Rsum (map (gap oneProb pairs) rest) / INR n).
Proof.
  intros oneProb pairs n rest. induction rest as [|p rest IH]; intros acc H.
  - simpl. f_equal. unfold Rdiv. ring.
  - destruct (H p (or_introl eq_refl)) as (a & b & L & Ha & Hb).
    simpl. rewrite L. simpl.
    rewrite (index_Ok oneProb a 0 Ha), (index_Ok oneProb b 0 Hb). simpl.
    rewrite IH.
    + f_equal. unfold gap at 2. rewrite L. unfold Rdiv. ring.
    + intros q Hq. apply H. now right.
Qed.

(** C7: when the matching names pairs of the layout whose qubits index
    into [oneProb], [calculateFuzz] returns the mean over the matching of
    |oneProb[a] - oneProb[b]|; for the empty matching it returns 0 and
    raises nothing. *)
Theorem calculateFuzz_mean : forall oneProb pairs matchingPairs,
  indexes_into oneProb pairs matchingPairs ->
  calculateFuzz oneProb pairs matchingPairs =
    Ok (mean (map (gap oneProb pairs) matchingPairs)) /\
  calculateFuzz oneProb pairs [] = Ok 0.
Proof.
  intros oneProb pairs matchingPairs H. split; [|reflexivity].
  unfold calculateFuzz. rewrite fuzz_loop_sum by exact H.
  destruct matchingPairs as [|p rest].
  - simpl. f_equal. unfold Rdiv. ring.
  - f_equal. unfold mean. rewrite length_map.
    cbn [map]. ring.
Qed.

Lemma calculateFuzz_mean_witness :
  indexes_into [1 / 4; 3 / 4] Matching.single_layout ["A"%string] /\
  calculateFuzz [1 / 4; 3 / 4] Matching.single_layout ["A"%string] =
    Ok (mean (map (gap [1 / 4; 3 / 4] Matching.single_layout) ["A"%string])) /\
  calculateFuzz [1 / 4; 3 / 4] Matching.single_layout [] = Ok 0.
Proof.
  assert (H : indexes_into [1 / 4; 3 / 4] Matching.single_layout
                           ["A"%string]).
  { intros p [<-|[]]. exists 0%nat, 1%nat. simpl. repeat split; lia. }
  split; [exact H|].
  apply (calculateFuzz_mean _ _ _ H).
Defined.

End TransformFacts.
(** ** Properties of the matching engine *)

Module MatchingFacts.

Import Transform Matching.
Local Open Scope R_scope.

(** *** The loops that read the matcher's array *)

Lemma pair_is_true : forall ab v m,
  pair_is ab v m = true <-> fst ab = v /\ m = Z.of_nat (snd ab).
Proof.
  intros [a b] v m. unfold pair_is. simpl.
  rewrite andb_true_iff, Nat.eqb_eq, Z.eqb_eq. intuition congruence.
Qed.

Lemma In_matched_at : forall pairs v m p,
  In p (matched_at pairs v m) <->
  exists ab, In (p, ab) pairs /\ pair_is ab v m = true.
Proof.
  induction pairs as [|[q cd] pairs IH]; intros v m p; simpl.
  - split; [tauto | intros (ab & [] & _)].
  - destruct (pair_is cd v m) eqn:E; simpl; rewrite IH; split.
    + intros [H|(ab & H & H')].
      * subst q. exists cd. auto.
      * exists ab. auto.
    + intros (ab & [H|H] & H').
      * inversion H; subst. now left.
      * right. now exists ab.
    + intros (ab & H & H'). exists ab. auto.
    + intros (ab & [H|H] & H').
      * inversion H; subst. congruence.
      * now exists ab.
Qed.

Lemma names_at_filter : forall pairs v m,
  names_at pairs v m =
  filter (fun p => negb (is_fake p)) (matched_at pairs v m).
Proof.
  induction pairs as [|[q cd] pairs IH]; intros v m; simpl.
  - reflexivity.
  - destruct (pair_is cd v m); simpl.
    + destruct (negb (is_fake q)); now rewrite IH.
    + apply IH.
Qed.

Lemma names_of_match_filter : forall pairs mate vs,
  names_of_match pairs mate vs =
  filter (fun p => negb (is_fake p))
         (flat_map (fun v => matched_at pairs v (nth v mate (-1)%Z)) vs).
Proof.
  intros pairs mate vs. induction vs as [|v vs IH]; simpl.
  - reflexivity.
  - now rewrite filter_app, IH, names_at_filter.
Qed.

Lemma matchingPairs_of_filter : forall pairs mate,
  matchingPairs_of pairs mate =
  filter (fun p => negb (is_fake p)) (matched_names pairs mate).
Proof.
  intros. apply names_of_match_filter.
Qed.

Lemma NoDup_matched_at : forall pairs v m,
  NoDup (keys pairs) -> NoDup (matched_at pairs v m).
Proof.
  induction pairs as [|[q cd] pairs IH]; intros v m ND; simpl.
  - constructor.
  - simpl in ND. apply NoDup_cons_iff in ND. destruct ND as [Hq ND].
    destruct (pair_is cd v m); [|now apply IH].
    constructor; [|now apply IH].
    intros H. apply In_matched_at in H. destruct H as (ab & H & _).
    apply Hq. eapply keys_In. exact H.
Qed.

(** [p] is listed exactly when the array matches the first qubit of its
    pair to the second. *)
Lemma In_matched_names : forall pairs mate p,
  In p (matched_names pairs mate) <->
  exists a b, In (p, (a, b)) pairs /\ (a < length mate)%nat /\
              nth a mate (-1)%Z = Z.of_nat b.
Proof.
  intros pairs mate p. unfold matched_names. rewrite in_flat_map. split.
  - intros (v & Hv & H). apply in_seq in Hv.
    apply In_matched_at in H. destruct H as ([a b] & H & E).
    apply pair_is_true in E. simpl in E. destruct E as [<- E].
    exists a, b. repeat split; auto; lia.
  - intros (a & b & H & Ha & E). exists a. split.
    + apply in_seq. lia.
    + apply In_matched_at. exists (a, b). split; [exact H|].
      apply pair_is_true. simpl. auto.
Qed.

Lemma NoDup_matched_names : forall pairs mate,
  NoDup (keys pairs) -> NoDup (matched_names pairs mate).
Proof.
  intros pairs mate ND. unfold matched_names. apply NoDup_flat_map.
  - apply seq_NoDup.
  - intros v _. now apply NoDup_matched_at.
  - intros v v' p _ _ H H'.
    apply In_matched_at in H, H'.
    destruct H as (ab & H & E). destruct H' as (ab' & H' & E').
    assert (ab = ab') by (eapply pairs_functional; eauto). subst ab'.
    apply pair_is_true in E, E'. destruct E, E'. congruence.
Qed.

(** *** Matchings and their partner arrays *)

Lemma In_endpoints : forall M e,
  In e M -> In (edge_a e) (endpoints M) /\ In (edge_b e) (endpoints M).
Proof.
  intros M e H. unfold endpoints. split; apply in_flat_map; exists e;
    (split; [exact H | simpl; auto]).
Qed.

Lemma endpoints_cons : forall e M,
  endpoints (e :: M) = edge_a e :: edge_b e :: endpoints M.
Proof. reflexivity. Qed.

Lemma matching_cons : forall e M,
  NoDup (endpoints (e :: M)) ->
  edge_a e <> edge_b e /\
  ~ In (edge_a e) (endpoints M) /\ ~ In (edge_b e) (endpoints M) /\
  NoDup (endpoints M).
Proof.
  intros e M H. rewrite endpoints_cons in H.
  apply NoDup_cons_iff in H. destruct H as [Ha H].
  apply NoDup_cons_iff in H. destruct H as [Hb H].
  simpl in Ha. split; [|tauto].
  intros E. apply Ha. left. now symmetry.
Qed.

Lemma edge_ends_differ : forall M e,
  NoDup (endpoints M) -> In e M -> edge_a e <> edge_b e.
Proof.
  induction M as [|e0 M IH]; intros e ND H; [contradiction|].
  apply matching_cons in ND. destruct H as [->|H]; [tauto|].
  apply IH; tauto.
Qed.

(** In a matching a vertex lies on one edge at most. *)
Lemma endpoint_unique : forall M e e' x,
  NoDup (endpoints M) -> In e M -> In e' M ->
  In x [edge_a e; edge_b e] -> In x [edge_a e'; edge_b e'] -> e = e'.
Proof.
  induction M as [|e0 M IH]; intros e e' x ND H H' Hx Hx'; [contradiction|].
  apply matching_cons in ND. destruct ND as (_ & Na & Nb & ND).
  assert (Out : forall e1, In e1 M -> In x [edge_a e1; edge_b e1] ->
                           In x [edge_a e0; edge_b e0] -> False).
  { intros e1 H1 X1 X0. apply In_endpoints in H1. destruct H1 as [A B].
    simpl in X1, X0.
    destruct X1 as [<-|[<-|[]]]; destruct X0 as [E|[E|[]]];
      rewrite E in *; contradiction. }
  destruct H as [->|H]; destruct H' as [->|H'].
  - reflexivity.
  - exfalso. eapply Out; eauto.
  - exfalso. eapply Out; eauto.
  - eapply IH; eauto.
Qed.

Lemma partner_of_edge : forall M e,
  NoDup (endpoints M) -> In e M ->
  partner M (edge_a e) = Z.of_nat (edge_b e) /\
  partner M (edge_b e) = Z.of_nat (edge_a e).
Proof.
  induction M as [|e0 M IH]; intros e ND H; [contradiction|].
  pose proof (matching_cons e0 M ND) as (Hab & Na & Nb & ND').
  destruct H as [->|H].
  - simpl. rewrite Nat.eqb_refl.
    destruct (Nat.eqb (edge_a e) (edge_b e)) eqn:E.
    + apply Nat.eqb_eq in E. contradiction.
    + now rewrite Nat.eqb_refl.
  - pose proof (In_endpoints M e H) as [Ia Ib].
    assert (A1 : Nat.eqb (edge_a e0) (edge_a e) = false).
    { apply Nat.eqb_neq. intros E. rewrite E in Na. contradiction. }
    assert (A2 : Nat.eqb (edge_b e0) (edge_a e) = false).
    { apply Nat.eqb_neq. intros E. rewrite E in Nb. contradiction. }
    assert (B1 : Nat.eqb (edge_a e0) (edge_b e) = false).
    { apply Nat.eqb_neq. intros E. rewrite E in Na. contradiction. }
    assert (B2 : Nat.eqb (edge_b e0) (edge_b e) = false).
    { apply Nat.eqb_neq. intros E. rewrite E in Nb. contradiction. }
    simpl. rewrite A1, A2, B1, B2. now apply IH.
Qed.

Lemma edge_of_partner : forall M v w,
  partner M v = Z.of_nat w ->
  exists e, In e M /\
    ((edge_a e = v /\ edge_b e = w) \/ (edge_a e = w /\ edge_b e = v)).
Proof.
  induction M as [|e0 M IH]; intros v w H; simpl in H.
  - exfalso. pose proof (Zle_0_nat w). lia.
  - destruct (Nat.eqb (edge_a e0) v) eqn:Ea.
    + apply Nat.eqb_eq in Ea. apply Nat2Z.inj in H.
      exists e0. split; [now left | left; auto].
    + destruct (Nat.eqb (edge_b e0) v) eqn:Eb.
      * apply Nat.eqb_eq in Eb. apply Nat2Z.inj in H.
        exists e0. split; [now left | right; auto].
      * destruct (IH v w H) as (e & He & D).
        exists e. split; [now right | exact D].
Qed.

Lemma nvertex_bound : forall edges e,
  In e edges ->
  (edge_a e < nvertex edges)%nat /\ (edge_b e < nvertex edges)%nat.
Proof.
  induction edges as [|e0 edges IH]; intros e H; [contradiction|].
  unfold nvertex. cbn [fold_right]. fold (nvertex edges).
  destruct H as [->|H].
  - lia.
  - apply IH in H. lia.
Qed.

Lemma length_mate_of : forall M n, length (mate_of M n) = n.
Proof.
  intros. unfold mate_of. now rewrite length_map, length_seq.
Qed.

Lemma nth_mate_of : forall M n v,
  (v < n)%nat -> nth v (mate_of M n) (-1)%Z = partner M v.
Proof.
  intros M n v H. unfold mate_of.
  rewrite (nth_indep _ (-1)%Z (partner M 0%nat))
    by now rewrite length_map, length_seq.
  rewrite map_nth, seq_nth by exact H. reflexivity.
Qed.

(** *** The edges built from the layout *)

Lemma make_edges_shape : forall weight pairs es,
  make_edges weight pairs = Ok es -> map fst es = map snd pairs.
Proof.
  intros weight. induction pairs as [|[p ab] pairs IH]; intros es H; simpl in H.
  - inversion H. reflexivity.
  - destruct (lookup weight p) as [w|]; [|discriminate]. simpl in H.
    destruct (make_edges weight pairs) as [es'|]; [|discriminate].
    simpl in H. inversion H; subst. simpl.
    rewrite (IH es' eq_refl). now destruct ab.
Qed.

Lemma getEdges_shape : forall pairs oneProb draws es,
  getEdges pairs oneProb draws = Ok es -> map fst es = map snd pairs.
Proof.
  intros pairs oneProb draws es H. unfold getEdges in H.
  destruct (weights oneProb draws 0 pairs) as [w|]; [|discriminate].
  simpl in H. eapply make_edges_shape; eauto.
Qed.

Lemma edge_of_pair : forall (pairs : Pairs) (es : list Edge) p a b,
  map fst es = map snd pairs -> In (p, (a, b)) pairs ->
  exists w, In (a, b, w) es.
Proof.
  intros pairs es p a b Sh H.
  assert (I : In (a, b) (map fst es)).
  { rewrite Sh. change (a, b) with (snd (p, (a, b))). now apply in_map. }
  apply in_map_iff in I. destruct I as ([[a' b'] w] & E & I).
  simpl in E. inversion E; subst. now exists w.
Qed.

Lemma pair_of_edge : forall (pairs : Pairs) (es : list Edge) e,
  map fst es = map snd pairs -> In e es ->
  exists p, In (p, (edge_a e, edge_b e)) pairs.
Proof.
  intros pairs es e Sh H.
  assert (I : In (fst e) (map snd pairs)).
  { rewrite <- Sh. now apply in_map. }
  apply in_map_iff in I. destruct I as ([p ab] & E & I).
  simpl in E. subst ab. exists p.
  destruct e as [[a b] w]. exact I.
Qed.

(** *** What the list read off the array is *)

Section ReadOff.

Variable pairs : Pairs.
Variable es M : list Edge.
Hypothesis keys_distinct : NoDup (keys pairs).
Hypothesis es_shape : map fst es = map snd pairs.
Hypothesis M_matching : is_matching es M.

Lemma matched_names_joins : forall p,
  In p (matched_names pairs (mate_of M (nvertex es))) <-> joins pairs M p.
Proof.
  intros p. rewrite In_matched_names. rewrite length_mate_of.
  destruct M_matching as [Hincl HND]. split.
  - intros (a & b & H & Ha & E).
    rewrite nth_mate_of in E by exact Ha.
    apply edge_of_partner in E. destruct E as (e & He & D).
    exists a, b, e. auto.
  - intros (a & b & e & H & He & D).
    pose proof (partner_of_edge M e HND He) as [Pa Pb].
    pose proof (nvertex_bound es e (Hincl e He)) as [Ba Bb].
    exists a, b. split; [exact H|].
    destruct D as [[<- <-]|[<- <-]].
    + split; [exact Ba|]. now rewrite nth_mate_of.
    + split; [exact Bb|]. now rewrite nth_mate_of.
Qed.

Lemma joins_lookup : forall p,
  joins pairs M p ->
  exists a b, lookup pairs p = Ok (a, b) /\ a <> b /\
    exists e, In e M /\ In a [edge_a e; edge_b e] /\
              In b [edge_a e; edge_b e].
Proof.
  intros p (a & b & e & H & He & D).
  destruct M_matching as [_ HND].
  pose proof (edge_ends_differ M e HND He) as Hd.
  exists a, b. split; [now apply In_lookup|]. split.
  - destruct D as [[<- <-]|[<- <-]]; auto.
  - exists e. split; [exact He|]. simpl.
    destruct D as [[<- <-]|[<- <-]]; auto.
Qed.

(** Pairs that join edges of a matching cover no qubit twice, as long as
    no two names stand for the same two qubits. *)
Lemma joins_disjoint : forall K,
  no_parallel pairs -> NoDup K -> (forall p, In p K -> joins pairs M p) ->
  NoDup (qubits_of pairs K).
Proof.
  intros K NP NDK HK. unfold qubits_of. apply NoDup_flat_map.
  - exact NDK.
  - intros p Hp. destruct (joins_lookup p (HK p Hp)) as (a & b & L & Hab & _).
    rewrite L. constructor.
    + simpl. intros [E|[]]. auto.
    + constructor; [simpl; tauto | constructor].
  - intros p q z Hp Hq Hz Hz'.
    destruct (HK p Hp) as (a & b & e & H & He & D).
    destruct (HK q Hq) as (c & d & e' & H' & He' & D').
    rewrite (In_lookup pairs p (a, b) keys_distinct H) in Hz.
    rewrite (In_lookup pairs q (c, d) keys_distinct H') in Hz'.
    destruct M_matching as [_ HND].
    assert (e = e').
    { apply (endpoint_unique M e e' z HND He He').
      - destruct D as [[<- <-]|[<- <-]]; simpl in *; tauto.
      - destruct D' as [[<- <-]|[<- <-]]; simpl in *; tauto. }
    subst e'. apply (NP p q a b H).
    destruct D as [[<- <-]|[<- <-]]; destruct D' as [[<- <-]|[<- <-]]; auto.
Qed.

(** A set of disjoint pairs of the layout is a matching of the edges. *)
Lemma matching_of_names : forall N,
  incl N (keys pairs) ->
  exists M', length M' = length N /\ incl M' es /\
             endpoints M' = qubits_of pairs N.
Proof.
  induction N as [|p N IH]; intros HN.
  - exists []. repeat split. intros e [].
  - destruct IH as (M' & Hl & Hi & He).
    { intros q Hq. apply HN. now right. }
    destruct (In_keys pairs p (HN p (or_introl eq_refl))) as ([a b] & H).
    destruct (edge_of_pair pairs es p a b es_shape H) as (w & Hw).
    exists ((a, b, w) :: M'). split; [|split].
    + simpl. now rewrite Hl.
    + intros e [<-|He']; auto.
    + rewrite endpoints_cons. simpl qubits_of.
      rewrite (In_lookup pairs p (a, b) keys_distinct H).
      simpl. now rewrite He.
Qed.

(** The edges of a matching have distinct names in the layout. *)
Lemma names_of_matching : forall M0,
  incl M0 es -> NoDup (endpoints M0) ->
  exists K, length K = length M0 /\ NoDup K /\
    forall p, In p K ->
      exists e, In e M0 /\ In (p, (edge_a e, edge_b e)) pairs.
Proof.
  induction M0 as [|e M0 IH]; intros Hi HND.
  - exists []. repeat split; [constructor | intros p []].
  - pose proof (matching_cons e M0 HND) as (_ & Na & _ & HND').
    destruct IH as (K & Hl & HK & Hp); [|exact HND'|].
    { intros e' He'. apply Hi. now right. }
    destruct (pair_of_edge pairs es e es_shape (Hi e (or_introl eq_refl)))
      as (p & H).
    exists (p :: K). split; [|split].
    + simpl. now rewrite Hl.
    + constructor; [|exact HK]. intros Hin.
      destruct (Hp p Hin) as (e1 & He1 & H1).
      pose proof (pairs_functional pairs p _ _ keys_distinct H H1) as E.
      inversion E as [[Ea Eb]].
      apply Na. rewrite Ea. now apply In_endpoints.
    + intros q [<-|Hq].
      * exists e. split; [now left | exact H].
      * destruct (Hp q Hq) as (e1 & He1 & H1).
        exists e1. split; [now right | exact H1].
Qed.

(** When [M] is a largest matching, no set of disjoint pairs has more
    members than the list of matched pairs. *)
Lemma matched_names_largest : forall N,
  (forall M', is_matching es M' -> (length M' <= length M)%nat) ->
  disjoint_pairs pairs N ->
  (length N <= length (matched_names pairs (mate_of M (nvertex es))))%nat.
Proof.
  intros N Hmax (NDN & HN & NDq).
  destruct (matching_of_names N HN) as (M' & Hl & Hi & He).
  assert (L1 : (length M' <= length M)%nat).
  { apply Hmax. split; [exact Hi|]. now rewrite He. }
  destruct M_matching as [HiM HND].
  destruct (names_of_matching M HiM HND) as (K & HlK & NDK & HK).
  assert (L2 : (length K <= length (matched_names pairs
                                     (mate_of M (nvertex es))))%nat).
  { apply NoDup_incl_length; [exact NDK|].
    intros p Hp. apply matched_names_joins.
    destruct (HK p Hp) as (e & He' & H).
    exists (edge_a e), (edge_b e), e. auto. }
  lia.
Qed.

End ReadOff.

(** *** Fully connected layouts *)

Lemma length_qubits_of : forall (pairs : Pairs) K,
  (forall p, In p K -> exists ab, lookup pairs p = Ok ab) ->
  length (qubits_of pairs K) = (2 * length K)%nat.
Proof.
  intros pairs K. induction K as [|p K IH]; intros H.
  - reflexivity.
  - destruct (H p (or_introl eq_refl)) as ([a b] & L).
    simpl qubits_of. rewrite L. simpl length.
    rewrite IH; [lia|]. intros q Hq. apply H. now right.
Qed.

Lemma In_qubits_of : forall (pairs : Pairs) K q,
  In q (qubits_of pairs K) ->
  exists p a b, In p K /\ lookup pairs p = Ok (a, b) /\ (q = a \/ q = b).
Proof.
  intros pairs K q H. unfold qubits_of in H. apply in_flat_map in H.
  destruct H as (p & Hp & Hq).
  destruct (lookup pairs p) as [[a b]|] eqn:L; [|contradiction].
  exists p, a, b. simpl in Hq. intuition.
Qed.

Lemma disjoint_pairs_bound : forall (pairs : Pairs) K k,
  (forall p a b, In (p, (a, b)) pairs -> (a < k)%nat /\ (b < k)%nat) ->
  disjoint_pairs pairs K -> (2 * length K <= k)%nat.
Proof.
  intros pairs K k Hk (NDK & HK & NDq).
  rewrite <- length_qubits_of with (pairs := pairs).
  - rewrite <- (length_seq k 0). apply NoDup_incl_length; [exact NDq|].
    intros q Hq. apply In_qubits_of in Hq.
    destruct Hq as (p & a & b & _ & L & D).
    apply lookup_In in L. apply Hk in L. apply in_seq.
    destruct D; subst; lia.
  - intros p Hp. apply lookup_keys. now apply HK.
Qed.

(** Qubits [0 .. 2j-1] of a fully connected layout can be paired off. *)
Lemma pairing_exists : forall (pairs : Pairs) k,
  NoDup (keys pairs) -> fully_connected pairs k ->
  forall j, (2 * j <= k)%nat ->
  exists N, length N = j /\ disjoint_pairs pairs N /\
            forall q, In q (qubits_of pairs N) -> (q < 2 * j)%nat.
Proof.
  intros pairs k ND [Hk Hc]. induction j as [|j IH]; intros Hj.
  - exists []. repeat split; try constructor.
    + intros p [].
    + intros q [].
  - destruct IH as (N & Hl & (NDN & HN & NDq) & Hq); [lia|].
    destruct (Hc (2 * j)%nat (2 * j + 1)%nat) as (p & Hp); [lia|lia|].
    assert (X : exists x y, In (p, (x, y)) pairs /\
                (2 * j <= x)%nat /\ (2 * j <= y)%nat /\ x <> y /\
                (x < 2 * S j)%nat /\ (y < 2 * S j)%nat).
    { destruct Hp as [Hp|Hp]; [exists (2 * j)%nat, (2 * j + 1)%nat
                              | exists (2 * j + 1)%nat, (2 * j)%nat];
        repeat split; auto; lia. }
    destruct X as (x & y & Hxy & Bx & By & Dxy & Ux & Uy).
    pose proof (In_lookup pairs p (x, y) ND Hxy) as L.
    assert (Nx : ~ In x (qubits_of pairs N)).
    { intros I. apply Hq in I. lia. }
    assert (Ny : ~ In y (qubits_of pairs N)).
    { intros I. apply Hq in I. lia. }
    exists (p :: N). split; [|split; [split; [|split]|]].
    + simpl. now rewrite Hl.
    + constructor; [|exact NDN]. intros I. apply Nx.
      unfold qubits_of. apply in_flat_map. exists p.
      split; [exact I|]. rewrite L. now left.
    + intros q [<-|I]; [eapply keys_In; eauto | now apply HN].
    + simpl qubits_of. rewrite L. simpl.
      constructor; [|constructor; [exact Ny | exact NDq]].
      simpl. intros [E|I]; [now apply Dxy | now apply Nx].
    + simpl qubits_of. rewrite L. simpl.
      intros q [<-|[<-|I]]; [exact Ux | exact Uy |].
      apply Hq in I. lia.
Qed.

(** A largest set of disjoint pairs of a fully connected layout on an
    even number [k] of qubits has [k/2] members. *)
Lemma fully_connected_half : forall (pairs : Pairs) k L,
  NoDup (keys pairs) -> fully_connected pairs k -> Nat.Even k ->
  disjoint_pairs pairs L ->
  (forall N, disjoint_pairs pairs N -> (length N <= length L)%nat) ->
  length L = (k / 2)%nat.
Proof.
  intros pairs k L ND FC [h Hh] DL Hmax. subst k.
  rewrite Nat.mul_comm, Nat.div_mul by lia.
  pose proof (disjoint_pairs_bound pairs L (2 * h) (proj1 FC) DL) as U.
  destruct (pairing_exists pairs (2 * h) ND FC h (le_n _))
    as (N & Hl & DN & _).
  apply Hmax in DN. lia.
Qed.

(** *** [getDisjointPairs] *)

Lemma getDisjointPairs_eq : forall mw pairs oneProb draws edges,
  getEdges pairs oneProb draws = Ok edges ->
  getDisjointPairs mw pairs oneProb draws =
    Ok (matchingPairs_of pairs (mw edges)).
Proof.
  intros mw pairs oneProb draws edges H.
  unfold getDisjointPairs. now rewrite H.
Qed.

(** C1, amended.  Let the names of the layout be distinct and let the
    matcher return the partner array of a largest matching of the edges.
    Then [getDisjointPairs] returns a list [L] of names of the layout, none
    flagged fake and none twice: the matched pairs without the fake ones.
    No set of disjoint pairs has more members than the list of matched
    pairs, fake ones included.  If no two names stand for the same two
    qubits, no qubit is in two matched pairs, so in two pairs of [L]
    neither.  If moreover no pair is fake, [L] is a largest set of disjoint
    pairs, of [k/2] pairs when the layout connects [k] qubits, [k] even,
    every two of them. *)
Theorem getDisjointPairs_matching :
  forall mw pairs oneProb draws edges,
    NoDup (keys pairs) ->
    getEdges pairs oneProb draws = Ok edges ->
    MaxWeightMatching edges (mw edges) ->
    exists L,
      getDisjointPairs mw pairs oneProb draws = Ok L /\
      (forall p, In p L -> is_fake p = false /\ In p (keys pairs)) /\
      NoDup L /\
      L = filter (fun p => negb (is_fake p))
                 (matched_names pairs (mw edges)) /\
      (forall N, disjoint_pairs pairs N ->
         (length N <= length (matched_names pairs (mw edges)))%nat) /\
      (no_parallel pairs ->
         disjoint_pairs pairs (matched_names pairs (mw edges)) /\
         NoDup (qubits_of pairs L)) /\
      (no_parallel pairs -> no_fakes pairs ->
         disjoint_pairs pairs L /\
         (forall N, disjoint_pairs pairs N ->
            (length N <= length L)%nat) /\
         (forall k, Nat.Even k -> fully_connected pairs k ->
            length L = (k / 2)%nat)).
Proof.
  intros mw pairs oneProb draws edges ND HE (M & HM & Hmate & Hcard & _).
  pose proof (getEdges_shape pairs oneProb draws edges HE) as Sh.
  set (L := matchingPairs_of pairs (mw edges)).
  assert (EL : L = filter (fun p => negb (is_fake p))
                          (matched_names pairs (mw edges))).
  { apply matchingPairs_of_filter. }
  assert (Hin : forall p, In p (matched_names pairs (mw edges)) ->
                          In p (keys pairs)).
  { intros p Hp. apply In_matched_names in Hp.
    destruct Hp as (a & b & H & _). eapply keys_In; eauto. }
  assert (NDm : NoDup (matched_names pairs (mw edges))).
  { now apply NoDup_matched_names. }
  assert (NDL : NoDup L).
  { rewrite EL. now apply NoDup_filter. }
  assert (Hlarge : forall N, disjoint_pairs pairs N ->
            (length N <= length (matched_names pairs (mw edges)))%nat).
  { intros N HN. rewrite Hmate.
    now apply (matched_names_largest pairs edges M ND Sh HM N Hcard). }
  assert (Hjoin : forall p, In p (matched_names pairs (mw edges)) ->
                            joins pairs M p).
  { intros p Hp. rewrite Hmate in Hp.
    now apply (matched_names_joins pairs edges M HM). }
  assert (Hdisj : no_parallel pairs ->
            disjoint_pairs pairs (matched_names pairs (mw edges))).
  { intros NP. split; [exact NDm|]. split; [exact Hin|].
    apply (joins_disjoint pairs edges M ND HM); auto. }
  exists L. split; [now apply getDisjointPairs_eq|].
  split; [|split; [exact NDL|split; [exact EL|split; [exact Hlarge|split]]]].
  - intros p Hp. rewrite EL in Hp. apply filter_In in Hp.
    destruct Hp as [Hp Hf]. split; [|now apply Hin].
    now destruct (is_fake p).
  - intros NP. split; [now apply Hdisj|].
    apply (joins_disjoint pairs edges M ND HM); auto.
    intros p Hp. apply Hjoin. rewrite EL in Hp.
    apply filter_In in Hp. tauto.
  - intros NP NF.
    assert (E : L = matched_names pairs (mw edges)).
    { rewrite EL. apply filter_all. intros p Hp.
      rewrite (NF p (Hin p Hp)). reflexivity. }
    assert (DL : disjoint_pairs pairs L).
    { rewrite E. now apply Hdisj. }
    assert (HmaxL : forall N, disjoint_pairs pairs N ->
                              (length N <= length L)%nat).
    { rewrite E. exact Hlarge. }
    split; [exact DL|]. split; [exact HmaxL|].
    intros k Hk FC. now apply (fully_connected_half pairs k L).
Qed.

(** *** Graphs all of whose edges meet in one vertex *)

Lemma star_matching : forall (es : list Edge) c M,
  (forall e, In e es -> In c [edge_a e; edge_b e]) ->
  is_matching es M ->
  M = [] \/ exists e, In e es /\ M = [e].
Proof.
  intros es c M Hc [Hi HND].
  destruct M as [|e [|e' M]].
  - now left.
  - right. exists e. split; [apply Hi; now left | reflexivity].
  - exfalso.
    pose proof (matching_cons e (e' :: M) HND) as (_ & Na & Nb & _).
    assert (Ce : In c [edge_a e; edge_b e]).
    { apply Hc, Hi. now left. }
    assert (Ce' : In c (endpoints (e' :: M))).
    { assert (C : In c [edge_a e'; edge_b e']).
      { apply Hc, Hi. right. now left. }
      rewrite endpoints_cons. simpl in C. simpl. tauto. }
    simpl in Ce. destruct Ce as [E|[E|[]]]; rewrite E in *; contradiction.
Qed.

Lemma single_edges_eq : getEdges single_layout [] draws50 = Ok single_edges.
Proof. reflexivity. Qed.

Lemma single_matching : MaxWeightMatching single_edges [1; 0]%Z.
Proof.
  assert (Star : forall e, In e single_edges ->
                           In 0%nat [edge_a e; edge_b e]).
  { intros e [<-|[]]. simpl. auto. }
  exists single_edges. split; [|split; [reflexivity|split]].
  - split; [apply incl_refl|].
    repeat constructor; simpl; intuition discriminate.
  - intros M' HM'.
    destruct (star_matching single_edges 0%nat M' Star HM')
      as [->|(e & _ & ->)]; simpl; lia.
  - intros M' HM' Hl.
    destruct (star_matching single_edges 0%nat M' Star HM')
      as [->|(e & [<-|[]] & ->)]; [discriminate|].
    apply Rle_refl.
Qed.

Lemma NoDup_single_keys : NoDup (keys single_layout).
Proof. repeat constructor. simpl. tauto. Qed.

Lemma getDisjointPairs_matching_witness :
  NoDup (keys single_layout) /\
  getEdges single_layout [] draws50 = Ok single_edges /\
  MaxWeightMatching single_edges [1; 0]%Z /\
  exists L,
    getDisjointPairs (fun _ => [1; 0]%Z) single_layout [] draws50 = Ok L /\
    (forall p, In p L -> is_fake p = false /\ In p (keys single_layout)) /\
    NoDup L.
Proof.
  split; [exact NoDup_single_keys|].
  split; [exact single_edges_eq|].
  split; [exact single_matching|].
  destruct (getDisjointPairs_matching (fun _ => [1; 0]%Z) single_layout []
              draws50 single_edges NoDup_single_keys single_edges_eq
              single_matching) as (L & H1 & H2 & H3 & _).
  exists L. auto.
Defined.

(** *** Two layouts on which C1 fails *)

Lemma twin_star : forall e, In e twin_edges -> In 0%nat [edge_a e; edge_b e].
Proof. intros e [<-|[<-|[]]]; simpl; auto. Qed.

Lemma twin_edges_eq : getEdges twin_layout [] draws50 = Ok twin_edges.
Proof. reflexivity. Qed.

Lemma twin_first_is_matching : is_matching twin_edges [(0%nat, 1%nat, 50)].
Proof.
  split.
  - intros e [<-|[]]. now left.
  - repeat constructor; simpl; intuition discriminate.
Qed.

Lemma twin_matching : MaxWeightMatching twin_edges [1; 0]%Z.
Proof.
  exists [(0%nat, 1%nat, 50)].
  split; [exact twin_first_is_matching|]. split; [reflexivity|]. split.
  - intros M' HM'.
    destruct (star_matching twin_edges 0%nat M' twin_star HM')
      as [->|(e & _ & ->)]; simpl; lia.
  - intros M' HM' Hl.
    destruct (star_matching twin_edges 0%nat M' twin_star HM')
      as [->|(e & [<-|[<-|[]]] & ->)]; [discriminate| |];
      unfold total_weight; simpl; lra.
Qed.

Lemma twin_matching_unique : forall mate,
  MaxWeightMatching twin_edges mate -> mate = [1; 0]%Z.
Proof.
  intros mate (M & HM & -> & Hcard & _).
  destruct (star_matching twin_edges 0%nat M twin_star HM)
    as [->|(e & [<-|[<-|[]]] & ->)].
  - specialize (Hcard _ twin_first_is_matching). simpl in Hcard. lia.
  - reflexivity.
  - reflexivity.
Qed.

Lemma twin_not_disjoint :
  ~ NoDup (qubits_of twin_layout ["A"; "B"]%string).
Proof.
  simpl. intros H. apply NoDup_cons_iff in H. destruct H as [H _].
  apply H. simpl. auto.
Qed.

Lemma calculateFrac_half : calculateFrac (1 / 2) = Ok (1 / 2).
Proof.
  rewrite TransformFacts.calculateFrac_in_domain by lra.
  replace (1 / 2) with (/ 2) by lra.
  rewrite sqrt_inv, asin_inv_sqrt2. f_equal.
  pose proof PI_RGT_0. field. lra.
Qed.

Lemma calculateFracDifference_half_0 : calculateFracDifference (1 / 2) 0 = 1 / 2.
Proof.
  unfold calculateFracDifference. rewrite TransformFacts.max_minus_min.
  unfold Rabs, Rmin.
  destruct (Rcase_abs _); destruct (Rle_dec _ _); lra.
Qed.

Lemma calculateFracDifference_0_0 : calculateFracDifference 0 0 = 0.
Proof.
  unfold calculateFracDifference. rewrite TransformFacts.max_minus_min.
  unfold Rabs, Rmin.
  destruct (Rcase_abs _); destruct (Rle_dec _ _); lra.
Qed.

Lemma fake_edges_eq :
  getEdges fake_layout fake_oneProb draws50 = Ok fake_edges.
Proof.
  unfold getEdges, fake_layout, fake_oneProb. simpl weights.
  unfold pair_weight, index. simpl nth_error. simpl fst. simpl snd.
  rewrite calculateFrac_half, TransformFacts.calculateFrac_0. simpl.
  rewrite calculateFracDifference_half_0, calculateFracDifference_0_0.
  unfold fake_edges. replace (- 0) with 0 by lra. reflexivity.
Qed.

Lemma fake_star : forall e, In e fake_edges -> In 1%nat [edge_a e; edge_b e].
Proof. intros e [<-|[<-|[]]]; simpl; auto. Qed.

Lemma fake_second_is_matching : is_matching fake_edges [(1%nat, 2%nat, 0)].
Proof.
  split.
  - intros e [<-|[]]. right. now left.
  - repeat constructor; simpl; intuition discriminate.
Qed.

Lemma fake_matching : MaxWeightMatching fake_edges [-1; 2; 1]%Z.
Proof.
  exists [(1%nat, 2%nat, 0)].
  split; [exact fake_second_is_matching|]. split; [reflexivity|]. split.
  - intros M' HM'.
    destruct (star_matching fake_edges 1%nat M' fake_star HM')
      as [->|(e & _ & ->)]; simpl; lia.
  - intros M' HM' Hl.
    destruct (star_matching fake_edges 1%nat M' fake_star HM')
      as [->|(e & [<-|[<-|[]]] & ->)]; [discriminate| |];
      unfold total_weight; simpl; lra.
Qed.

Lemma fake_matching_unique : forall mate,
  MaxWeightMatching fake_edges mate -> mate = [-1; 2; 1]%Z.
Proof.
  intros mate (M & HM & -> & Hcard & Hweight).
  destruct (star_matching fake_edges 1%nat M fake_star HM)
    as [->|(e & [<-|[<-|[]]] & ->)].
  - specialize (Hcard _ fake_second_is_matching). simpl in Hcard. lia.
  - specialize (Hweight _ fake_second_is_matching eq_refl).
    unfold total_weight in Hweight. simpl in Hweight. lra.
  - reflexivity.
Qed.

Lemma fake_A_disjoint : disjoint_pairs fake_layout ["A"%string].
Proof.
  split; [|split].
  - repeat constructor. simpl. tauto.
  - intros p [<-|[]]. simpl. auto.
  - simpl. repeat constructor; simpl; intuition discriminate.
Qed.

(** C1, as stated, fails on two layouts.  When two names stand for the
    same two qubits, both are returned, so that a qubit is in two returned
    pairs.  When a fake pair is the better match, the real pair next to it
    is dropped and the returned list, here empty, is smaller than a set of
    disjoint pairs of the layout. *)
Lemma getDisjointPairs_not_disjoint_not_largest :
  (getEdges twin_layout [] draws50 = Ok twin_edges /\
   MaxWeightMatching twin_edges [1; 0]%Z /\
   (forall mw, MaxWeightMatching twin_edges (mw twin_edges) ->
      getDisjointPairs mw twin_layout [] draws50 = Ok ["A"; "B"]%string) /\
   ~ NoDup (qubits_of twin_layout ["A"; "B"]%string)) /\
  (getEdges fake_layout fake_oneProb draws50 = Ok fake_edges /\
   MaxWeightMatching fake_edges [-1; 2; 1]%Z /\
   (forall mw, MaxWeightMatching fake_edges (mw fake_edges) ->
      getDisjointPairs mw fake_layout fake_oneProb draws50 = Ok []) /\
   disjoint_pairs fake_layout ["A"%string] /\
   is_fake "A" = false /\
   (length (@nil string) < length ["A"%string])%nat).
Proof.
  split.
  - split; [exact twin_edges_eq|]. split; [exact twin_matching|].
    split; [|exact twin_not_disjoint].
    intros mw H.
    rewrite (getDisjointPairs_eq mw _ _ _ _ twin_edges_eq).
    rewrite (twin_matching_unique _ H). reflexivity.
  - split; [exact fake_edges_eq|]. split; [exact fake_matching|].
    split; [|split; [exact fake_A_disjoint|split; [reflexivity|simpl; lia]]].
    intros mw H.
    rewrite (getDisjointPairs_eq mw _ _ _ _ fake_edges_eq).
    rewrite (fake_matching_unique _ H). reflexivity.
Qed.

End MatchingFacts.
(** ** Properties of the wait for the backend *)

Module BackendFacts.

Import Backend.

(** As long as the passes fail, the QISKit loop is running, and each
    failed pass has added its sleep. *)
Lemma QISKit_keeps_retrying :
  forall (V : Type) (execute : nat -> option (list (string * V)))
         fuel k slept,
    (forall i, k <= i < k + fuel -> no_data (execute i)) ->
    getResults_QISKit fuel execute k slept =
      Retrying (k + fuel)
               (slept ++ map (fun i => sleep_after (execute i)) (seq k fuel)).
Proof.
  intros V execute fuel. induction fuel as [|fuel IH]; intros k slept H.
  - simpl. rewrite Nat.add_0_r, app_nil_r. reflexivity.
  - cbn [getResults_QISKit seq map]. pose proof (H k ltac:(lia)) as Hk.
    destruct (execute k) as [d|]; cbn [no_data] in Hk; cbn [sleep_after].
    + rewrite Hk, IH by (intros i Hi; apply H; lia).
      rewrite <- app_assoc. cbn [app]. f_equal. lia.
    + rewrite IH by (intros i Hi; apply H; lia).
      rewrite <- app_assoc. cbn [app]. f_equal. lia.
Qed.

Lemma QISKit_returns_first_data :
  forall (V : Type) (execute : nat -> option (list (string * V)))
         n counts fuel k slept,
    (forall i, k <= i < k + n -> no_data (execute i)) ->
    execute (k + n) = Some counts -> is_data counts = true -> n < fuel ->
    getResults_QISKit fuel execute k slept =
      Returned counts (S (k + n))
               (slept ++ map (fun i => sleep_after (execute i)) (seq k n)).
Proof.
  intros V execute n counts.
  induction n as [|n IH]; intros fuel k slept H E D F.
  - destruct fuel as [|fuel]; [lia|]. cbn [getResults_QISKit seq map].
    rewrite Nat.add_0_r in *. rewrite E, D, app_nil_r. reflexivity.
  - destruct fuel as [|fuel]; [lia|]. cbn [getResults_QISKit seq map].
    pose proof (H k ltac:(lia)) as Hk.
    assert (E' : execute (S k + n) = Some counts).
    { rewrite <- E. f_equal. lia. }
    destruct (execute k) as [d|]; cbn [no_data] in Hk; cbn [sleep_after].
    + rewrite Hk, (IH fuel (S k)); auto; [| intros i Hi; apply H; lia | lia].
      rewrite <- app_assoc. cbn [app]. f_equal. lia.
    + rewrite (IH fuel (S k)); auto; [| intros i Hi; apply H; lia | lia].
      rewrite <- app_assoc. cbn [app]. f_equal. lia.
Qed.

Lemma Forest_keeps_retrying :
  forall (A : Type) (run : nat -> option A) fuel k slept,
    (forall i, k <= i < k + fuel -> run i = None) ->
    getResults_Forest fuel run k slept =
      Retrying (k + fuel) (slept ++ repeat 1800 fuel).
Proof.
  intros A run fuel. induction fuel as [|fuel IH]; intros k slept H.
  - simpl. rewrite Nat.add_0_r, app_nil_r. reflexivity.
  - cbn [getResults_Forest repeat]. rewrite (H k) by lia.
    rewrite IH by (intros i Hi; apply H; lia).
    rewrite <- app_assoc. cbn [app]. f_equal. lia.
Qed.

Lemma Forest_returns_first_data :
  forall (A : Type) (run : nat -> option A) n samples fuel k slept,
    (forall i, k <= i < k + n -> run i = None) ->
    run (k + n) = Some samples -> n < fuel ->
    getResults_Forest fuel run k slept =
      Returned samples (S (k + n)) (slept ++ repeat 1800 n).
Proof.
  intros A run n samples. induction n as [|n IH]; intros fuel k slept H E F.
  - destruct fuel as [|fuel]; [lia|]. cbn [getResults_Forest repeat].
    rewrite Nat.add_0_r in *. rewrite E, app_nil_r. reflexivity.
  - destruct fuel as [|fuel]; [lia|]. cbn [getResults_Forest repeat].
    rewrite (H k) by lia. rewrite (IH fuel (S k)).
    + rewrite <- app_assoc. cbn [app]. f_equal. lia.
    + intros i Hi. apply H. lia.
    + rewrite <- E. f_equal. lia.
    + lia.
Qed.

(** The sleeps of the QISKit loop, one by one. *)
Lemma sleeps_nth :
  forall (V : Type) (execute : nat -> option (list (string * V))) n i,
    i < n ->
    nth_error (map (fun i => sleep_after (execute i)) (seq 0 n)) i
      = Some (sleep_after (execute i)).
Proof.
  intros V execute n i H.
  rewrite nth_error_map, nth_error_nth' with (d := 0)
    by (rewrite length_seq; exact H).
  rewrite seq_nth by exact H. reflexivity.
Qed.

(** C9, as stated, fails: against a backend that never answers, the loop
    of the Forest branch and the one of the QISKit branch never end, so
    that there is no last attempt and no error is ever raised. *)
Lemma getResults_retries_forever :
  ~ (exists fuel, ended (getResults_Forest fuel forest_down 0 [])) /\
  ~ (exists fuel, ended (getResults_QISKit fuel qiskit_down 0 [])).
Proof.
  split; intros [fuel H].
  - rewrite Forest_keeps_retrying in H by reflexivity. exact H.
  - rewrite QISKit_keeps_retrying in H by (intros i _; exact I). exact H.
Qed.

(** C9, amended: a failed attempt is followed by a sleep of fixed length
    and by another attempt, as many times as the backend fails.  For
    QISKit the sleep is of 600 s after an attempt that raised and of
    300 s after one that gave a dict with a 'status' key; for Forest it
    is of 1800 s.  So the first results the backend gives are returned,
    however many failures precede them, after exactly these sleeps; and
    as long as the backend fails the loop is still running: it gives up
    after no number of attempts and raises nothing. *)
Theorem getResults_retries_until_data :
  forall (V A : Type) (execute : nat -> option (list (string * V)))
         (run : nat -> option A) n,
    (forall i, i < n -> no_data (execute i)) ->
    (forall i, i < n -> run i = None) ->
    (exists slept,
       getResults_QISKit n execute 0 [] = Retrying n slept /\
       (forall counts fuel,
          execute n = Some counts -> is_data counts = true -> n < fuel ->
          getResults_QISKit fuel execute 0 [] = Returned counts (S n) slept) /\
       length slept = n /\
       (forall i, i < n -> execute i = None ->
                  nth_error slept i = Some 600) /\
       (forall i report, i < n -> execute i = Some report ->
                         nth_error slept i = Some 300)) /\
    getResults_Forest n run 0 [] = Retrying n (repeat 1800 n) /\
    (forall samples fuel, run n = Some samples -> n < fuel ->
       getResults_Forest fuel run 0 [] =
         Returned samples (S n) (repeat 1800 n)).
Proof.
  intros V A execute run n He Hr. split; [|split].
  - exists (map (fun i => sleep_after (execute i)) (seq 0 n)).
    split; [|split; [|split; [|split]]].
    + rewrite (QISKit_keeps_retrying V execute n 0 []); [reflexivity|].
      intros i Hi. apply He. lia.
    + intros counts fuel E D F.
      rewrite (QISKit_returns_first_data V execute n counts fuel 0 []);
        auto.
      intros i Hi. apply He. lia.
    + now rewrite length_map, length_seq.
    + intros i Hi E. rewrite sleeps_nth by exact Hi. now rewrite E.
    + intros i report Hi E. rewrite sleeps_nth by exact Hi. now rewrite E.
  - rewrite (Forest_keeps_retrying A run n 0 []); [reflexivity|].
    intros i Hi. apply Hr. lia.
  - intros samples fuel E F.
    rewrite (Forest_returns_first_data A run n samples fuel 0 []); auto.
    intros i Hi. apply Hr. lia.
Qed.

Lemma getResults_retries_until_data_witness :
  (forall i, i < 2 -> no_data (qiskit_flaky i)) /\
  (forall i, i < 2 -> forest_flaky i = None) /\
  getResults_QISKit 3 qiskit_flaky 0 []
    = Returned [("00"%string, Count 1024)] 3 [600; 300] /\
  getResults_QISKit 2 qiskit_flaky 0 [] = Retrying 2 [600; 300] /\
  getResults_Forest 3 forest_flaky 0 [] = Returned [] 3 [1800; 1800] /\
  getResults_Forest 2 forest_flaky 0 [] = Retrying 2 [1800; 1800].
Proof.
  assert (H1 : forall i, i < 2 -> no_data (qiskit_flaky i)).
  { intros [|[|i]] H; simpl; auto. lia. }
  assert (H2 : forall i, i < 2 -> forest_flaky i = None).
  { intros [|[|i]] H; simpl; auto. lia. }
  split; [exact H1|]. split; [exact H2|].
  destruct (getResults_retries_until_data Value (list (list bool))
              qiskit_flaky forest_flaky 2 H1 H2)
    as ((slept & Q & Qd & L & S600 & S300) & R & F).
  assert (E : slept = [600; 300]).
  { pose proof (S600 0 ltac:(lia) eq_refl) as A0.
    pose proof (S300 1 _ ltac:(lia) eq_refl) as A1.
    destruct slept as [|a [|b [|c slept]]]; simpl in L; try discriminate.
    simpl in A0, A1. congruence. }
  subst slept.
  split; [apply Qd; [reflexivity | reflexivity | lia]|].
  split; [exact Q|]. split; [|exact R].
  apply F; [reflexivity | lia].
Defined.

End BackendFacts.
(** ** Properties of the round engine *)

Module RoundEngineFacts.

Import Transform Matching RoundEngine.
Local Open Scope R_scope.

(** Splits a successful monadic computation [H] at its first bind. *)
Ltac bind_inv H :=
  match type of H with
  | bind ?m _ = Ok _ =>
      let E := fresh "E" in
      destruct m eqn:E; simpl in H; [|discriminate H]
  end.

Section Lengths.

Variable maxWeightMatching : list Edge -> list Z.
Variable layout : Layout.
Variable move : string.
Variable maxScore : nat.
Variable recording : Recording.
Variable world : nat -> RoundWorld.

Local Abbreviation step_on dataNeeded :=
  (step maxWeightMatching layout move maxScore dataNeeded recording world).

Lemma fresh_step : forall c c',
  step_on true c = Ok c' -> fresh_lengths c -> fresh_lengths c'.
Proof.
  intros [ph st] c' H I. unfold step in H.
  destruct ph as [|oneProb matchingPairs|gameOn|].
  - unfold get_puzzle in H. bind_inv H. bind_inv H.
    inversion H; subst; clear H.
    unfold fresh_lengths in *. simpl in *.
    rewrite length_app. simpl. lia.
  - unfold score_round in H. bind_inv H.
    destruct a as [guessedPairs restart'].
    bind_inv H. bind_inv H. bind_inv H.
    inversion H; subst; clear H.
    unfold fresh_lengths in *. simpl in *.
    rewrite !length_app. simpl. lia.
  - inversion H; subst; clear H.
    unfold fresh_lengths in *. destruct gameOn; simpl in *; lia.
  - inversion H; subst; clear H. exact I.
Qed.

Lemma replay_step : forall n0 c c',
  step_on false c = Ok c' -> replay_lengths n0 c -> replay_lengths n0 c'.
Proof.
  intros n0 [ph st] c' H I. unfold step in H.
  destruct ph as [|oneProb matchingPairs|gameOn|].
  - unfold get_puzzle in H. bind_inv H. bind_inv H.
    inversion H; subst; clear H.
    unfold replay_lengths in *. simpl in *. lia.
  - unfold score_round in H. bind_inv H.
    destruct a as [guessedPairs restart'].
    bind_inv H. bind_inv H. bind_inv H.
    inversion H; subst; clear H.
    unfold replay_lengths in *. simpl in *.
    rewrite !length_app. simpl. lia.
  - inversion H; subst; clear H.
    unfold replay_lengths in *. destruct gameOn; simpl in *; lia.
  - inversion H; subst; clear H. exact I.
Qed.

End Lengths.

(** C4, amended.  In every game that [runGame] plays on new data
    ([dataNeeded] true), [gates] has [2r] entries after round [r] and
    [2r - 1] between the two appends of round [r], and [conjugates] has
    [r - 1] entries while round [r] is under way.  In a game on saved
    data the gates of the puzzles are loaded before the first round and a
    round appends the guessed gates only: [gates] has [r] entries more
    than were loaded after round [r]; [conjugates] is as before. *)
Theorem runGame_lengths :
  forall mw layout move maxScore dataNeeded recording world c,
    reachable mw layout move maxScore dataNeeded recording world c ->
    if dataNeeded then fresh_lengths c
    else replay_lengths (length (rec_gates recording)) c.
Proof.
  intros mw layout move maxScore dataNeeded recording world c H.
  induction H as [|c c' _ IH Hs].
  - unfold initial. destruct dataNeeded; simpl.
    + unfold fresh_lengths. simpl. auto.
    + unfold replay_lengths. simpl. split; [lia | reflexivity].
  - destruct dataNeeded.
    + eapply fresh_step; eauto.
    + eapply replay_step; eauto.
Qed.

Lemma runGame_lengths_witness :
  reachable (fun _ => [1; 0]%Z) two_qubits "C" 1 true saved_round quiet_world
    (AwaitingGuess [0; 0] ["A"%string],
     {| gates := [[("A"%string, 0 / 2)]]; conjugates := [];
        totalFuzz := []; oneProbs := []; score := 1; restart := false |}) /\
  fresh_lengths
    (AwaitingGuess [0; 0] ["A"%string],
     {| gates := [[("A"%string, 0 / 2)]]; conjugates := [];
        totalFuzz := []; oneProbs := []; score := 1; restart := false |}).
Proof.
  assert (H : reachable (fun _ => [1; 0]%Z) two_qubits "C" 1 true saved_round
                quiet_world
                (AwaitingGuess [0; 0] ["A"%string],
                 {| gates := [[("A"%string, 0 / 2)]]; conjugates := [];
                    totalFuzz := []; oneProbs := []; score := 1;
                    restart := false |})).
  { eapply reach_step; [apply reach_initial | reflexivity]. }
  split; [exact H|].
  exact (runGame_lengths _ _ _ _ true _ _ _ H).
Defined.

(** When [entangle] is called in round [r] of a game on new data, its
    [rounds] is [r]. *)
Lemma entangle_rounds_is_round : forall oneProb matchingPairs st,
  fresh_lengths (AwaitingGuess oneProb matchingPairs, st) ->
  entangle_rounds (gates st) = score st.
Proof.
  intros oneProb matchingPairs st H.
  unfold fresh_lengths in H. cbn [fst snd] in H. destruct H as (H1 & Hg & _).
  unfold entangle_rounds. rewrite Hg.
  replace (2 * score st - 1 + 1)%nat with (score st * 2)%nat by lia.
  apply Nat.div_mul. lia.
Qed.

(** *** A game on saved data *)

Lemma calculateFrac_mean_0 : calculateFrac (0 + 0 / 2 + 0 / 2) = Ok 0.
Proof.
  replace (0 + 0 / 2 + 0 / 2) with 0 by lra.
  exact TransformFacts.calculateFrac_0.
Qed.

(** C4, as stated, fails in a game on saved data: with the two gate
    records of one saved round loaded, [gates] has three entries after
    round 1, not two. *)
Lemma replay_gates_too_long :
  exists c,
    reachable (fun _ => [1; 0]%Z) two_qubits "C" 1 false saved_round
              quiet_world c /\
    fst c = RoundScored false /\
    score (snd c) = 1%nat /\
    length (gates (snd c)) = 3%nat /\
    ~ fresh_lengths c.
Proof.
  eexists. split; [|split; [|split; [|split]]].
  - eapply reach_step.
    + eapply reach_step; [apply reach_initial | reflexivity].
    + unfold step, score_round. simpl get_guess. simpl bind at 1.
      unfold calculateFuzz. simpl fuzz_loop. simpl bind at 1.
      simpl guess_gates. rewrite calculateFrac_mean_0. simpl bind at 1.
      unfold getDisjointPairs, getEdges. simpl weights.
      unfold pair_weight, index. simpl nth_error. simpl fst. simpl snd.
      rewrite TransformFacts.calculateFrac_0. simpl. reflexivity.
  - reflexivity.
  - reflexivity.
  - reflexivity.
  - unfold fresh_lengths. simpl. lia.
Qed.

(** *** The loop ends *)

Lemma initial_score : forall dataNeeded recording,
  score (snd (initial dataNeeded recording)) = 0%nat.
Proof. intros [|] recording; reflexivity. Qed.

Section Termination.

Variable maxWeightMatching : list Edge -> list Z.
Variable layout : Layout.
Variable move : string.
Variable maxScore : nat.
Variable dataNeeded : bool.
Variable recording : Recording.
Variable world : nat -> RoundWorld.

Local Abbreviation run' :=
  (run maxWeightMatching layout move maxScore dataNeeded recording world).
Local Abbreviation M := (max_score maxScore dataNeeded recording).

Lemma get_puzzle_phase : forall st c,
  get_puzzle maxWeightMatching layout dataNeeded world st = Ok c ->
  exists oneProb matchingPairs st',
    c = (AwaitingGuess oneProb matchingPairs, st') /\
    score st' = S (score st).
Proof.
  intros st c H. unfold get_puzzle in H. destruct dataNeeded.
  - bind_inv H. bind_inv H. inversion H; subst. eauto.
  - bind_inv H. bind_inv H. inversion H; subst. eauto.
Qed.

Lemma score_round_phase : forall st oneProb matchingPairs c,
  score_round maxWeightMatching layout move maxScore dataNeeded recording
              world st oneProb matchingPairs = Ok c ->
  exists gameOn st',
    c = (RoundScored gameOn, st') /\ score st' = score st /\
    (gameOn = true -> (score st < M)%nat).
Proof.
  intros st oneProb matchingPairs c H. unfold score_round in H.
  bind_inv H. destruct a as [guessedPairs restart'].
  bind_inv H. bind_inv H. bind_inv H. inversion H; subst.
  do 2 eexists. split; [reflexivity|]. split; [reflexivity|].
  simpl. intros G. apply andb_true_iff in G. destruct G as [G _].
  now apply Nat.ltb_lt in G.
Qed.

Lemma run_GameOver : forall fuel st,
  run' fuel (GameOver, st) = Ok (GameOver, st).
Proof.
  induction fuel as [|fuel IH]; intros st; [reflexivity|].
  simpl. apply IH.
Qed.

Lemma run_rounds : forall n st c,
  (1 <= n)%nat -> (M <= score st + n)%nat ->
  run' (3 * n) (AwaitingPuzzle, st) = Ok c -> fst c = GameOver.
Proof.
  induction n as [|n IH]; intros st c Hn HM H; [lia|].
  replace (3 * S n)%nat with (S (S (S (3 * n)))) in H by lia.
  simpl in H. bind_inv H.
  destruct (get_puzzle_phase st _ E) as (op & mp & st1 & -> & S1).
  simpl in H. bind_inv H.
  destruct (score_round_phase st1 op mp _ E0) as (g & st2 & -> & S2 & G).
  simpl in H. destruct g.
  - specialize (G eq_refl).
    apply (IH st2 c); [lia | lia | exact H].
  - rewrite run_GameOver in H. inversion H. reflexivity.
Qed.

Lemma run_reachable : forall fuel c c',
  reachable maxWeightMatching layout move maxScore dataNeeded recording
            world c ->
  run' fuel c = Ok c' ->
  reachable maxWeightMatching layout move maxScore dataNeeded recording
            world c'.
Proof.
  induction fuel as [|fuel IH]; intros c c' R H.
  - inversion H; subst. exact R.
  - unfold run' in H. simpl in H. bind_inv H.
    apply (IH a c'); [|exact H].
    eapply reach_step; eauto.
Qed.

(** When no call raises, [runGame] comes to the end of its loop, in a
    configuration that the game goes through. *)
Lemma runGame_ends : forall c,
  runGame maxWeightMatching layout move maxScore dataNeeded recording world
    = Ok c ->
  fst c = GameOver /\
  reachable maxWeightMatching layout move maxScore dataNeeded recording
            world c.
Proof.
  intros c H. unfold runGame in H. split.
  - pose proof (initial_score dataNeeded recording) as S0.
    unfold initial in H, S0. cbn [snd] in S0.
    eapply (run_rounds (Nat.max 1 (max_score maxScore dataNeeded recording)));
      [lia | | exact H].
    rewrite S0. lia.
  - eapply run_reachable; [apply reach_initial | exact H].
Qed.

End Termination.

End RoundEngineFacts.
(** ** Properties of the calibration engine *)

Module CalibrationFacts.

Import Transform Calibration.
Local Open Scope R_scope.

(** *** Assignment to one entry of a list *)

Lemma length_list_set : forall xs n v, length (list_set xs n v) = length xs.
Proof.
  induction xs as [|a xs IH]; intros [|n] v; simpl; auto.
Qed.

Lemma nth_error_list_set_other : forall xs n v i,
  i <> n -> nth_error (list_set xs n v) i = nth_error xs i.
Proof.
  induction xs as [|a xs IH]; intros [|n] v [|i] H; simpl; auto.
  contradiction.
Qed.

Lemma nth_error_list_set_same : forall xs n v,
  (n < length xs)%nat -> nth_error (list_set xs n v) n = Some v.
Proof.
  induction xs as [|a xs IH]; intros [|n] v H; simpl in *; try lia; auto.
  apply IH. lia.
Qed.

Lemma list_set_twice : forall xs n v w,
  list_set (list_set xs n v) n w = list_set xs n w.
Proof.
  induction xs as [|a xs IH]; intros [|n] v w; simpl; auto.
  now rewrite IH.
Qed.

Lemma list_set_same : forall xs n v,
  nth_error xs n = Some v -> list_set xs n v = xs.
Proof.
  induction xs as [|a xs IH]; intros [|n] v H; simpl in *; try discriminate.
  - now inversion H.
  - now rewrite IH.
Qed.

Lemma add_at_inv : forall xs n delta x1,
  add_at xs n delta = Ok x1 ->
  exists v, nth_error xs n = Some v /\ x1 = list_set xs n (v + delta).
Proof.
  intros xs n delta x1 H. unfold add_at, index in H.
  destruct (nth_error xs n) as [v|] eqn:E; simpl in H; [|discriminate].
  inversion H. now exists v.
Qed.

(** [x[n] -= delta] undoes [x[n] += delta]. *)
Lemma sub_at_undoes_add_at : forall xs n delta x1,
  add_at xs n delta = Ok x1 -> sub_at x1 n delta = Ok xs.
Proof.
  intros xs n delta x1 H. apply add_at_inv in H. destruct H as (v & E & ->).
  assert (Hn : (n < length xs)%nat).
  { apply nth_error_Some. rewrite E. discriminate. }
  unfold sub_at, index. rewrite nth_error_list_set_same by exact Hn.
  simpl. rewrite list_set_twice.
  replace (v + delta - delta) with v by lra.
  now rewrite list_set_same.
Qed.

(** *** The range of the floats *)

Lemma pow2_le_exp : forall n, 2 ^ n <= exp (INR n).
Proof.
  induction n as [|n IH].
  - simpl. rewrite exp_0. lra.
  - rewrite S_INR, exp_plus. cbn [pow].
    pose proof (exp_ineq1_le 1) as E1.
    assert (P : 0 < 2 ^ n) by (apply pow_lt; lra).
    rewrite (Rmult_comm 2). apply Rmult_le_compat; lra.
Qed.

Lemma exp_le_pow4 : forall n, exp (INR n) <= 4 ^ n.
Proof.
  induction n as [|n IH].
  - simpl. rewrite exp_0. lra.
  - rewrite S_INR, exp_plus. cbn [pow].
    pose proof exp_le_3 as E3. pose proof (exp_pos 1) as E0.
    pose proof (exp_pos (INR n)) as En.
    rewrite (Rmult_comm 4). apply Rmult_le_compat; lra.
Qed.

Lemma float_max_bounds : 2 ^ 1023 <= float_max < 2 ^ 1024.
Proof.
  unfold float_max. change (2 ^ 1024) with (2 * 2 ^ 1023).
  assert (P : 0 < 2 ^ 1023) by (apply pow_lt; lra).
  assert (Q : 0 < / 2 ^ 52 <= 1).
  { assert (Q1 : 1 <= 2 ^ 52) by (apply pow_R1_Rle; lra).
    split; [apply Rinv_0_lt_compat; lra|].
    rewrite <- Rinv_1. apply Rinv_le_contravar; lra. }
  generalize dependent (2 ^ 1023). generalize dependent (/ 2 ^ 52).
  intros q Q p P. nra.
Qed.

Lemma exp_500_bounds :
  exp 500 <= float_max /\ float_tiny <= exp (Ropp 500).
Proof.
  assert (I : 500 = INR 500) by (rewrite INR_IZR_INZ; reflexivity).
  assert (U : exp 500 <= 2 ^ 1000).
  { rewrite I. eapply Rle_trans; [apply exp_le_pow4|].
    replace 4 with (2 ^ 2) by (simpl; lra).
    rewrite <- pow_mult. apply Req_le. reflexivity. }
  assert (M : 2 ^ 1000 <= 2 ^ 1023) by (apply Rle_pow; [lra | lia]).
  assert (M' : 2 ^ 1000 <= 2 ^ 1075) by (apply Rle_pow; [lra | lia]).
  pose proof float_max_bounds as [F _].
  assert (P : 0 < 2 ^ 1000) by (apply pow_lt; lra).
  pose proof (exp_pos 500) as E.
  split; [lra|].
  unfold float_tiny. rewrite exp_Ropp.
  apply Rinv_le_contravar; [exact E | lra].
Qed.

(** The exponential of a quotient of size 500 at most is a float that is
    neither inf nor 0. *)
Lemma exp_in_float_range : forall x,
  - 500 <= x <= 500 -> float_tiny <= exp x <= float_max.
Proof.
  intros x [L U]. destruct exp_500_bounds as [A B].
  assert (M : forall a b, a <= b -> exp a <= exp b).
  { intros a b [H|<-]; [left; now apply exp_increasing | lra]. }
  assert (L' : Ropp 500 <= x) by lra.
  pose proof (M _ _ L'). pose proof (M _ _ U). lra.
Qed.

Lemma exp_2000_overflows : float_max < exp 2000.
Proof.
  assert (I : 2000 = INR 2000) by (rewrite INR_IZR_INZ; reflexivity).
  rewrite I. pose proof (pow2_le_exp 2000) as E.
  assert (M : 2 ^ 1024 <= 2 ^ 2000) by (apply Rle_pow; [lra | lia]).
  pose proof float_max_bounds as [_ F]. lra.
Qed.

(** *** The acceptance test *)

Lemma math_exp_in_range : forall x,
  float_tiny <= exp x <= float_max -> math_exp x = Ok (exp x).
Proof.
  intros x [L U]. unfold math_exp.
  destruct (Rlt_dec float_max (exp x)) as [H|_]; [lra|].
  destruct (Rlt_dec (exp x) float_tiny) as [H|_]; [lra|]. reflexivity.
Qed.

Lemma accept_in_range : forall u diff T,
  T <> 0 -> float_tiny <= exp (diff / T) <= float_max ->
  accept u diff T = Ok (if Rlt_dec u (exp (diff / T)) then true else false).
Proof.
  intros u diff T HT R. unfold accept.
  destruct (Req_dec_T T 0) as [E|_]; [contradiction|].
  destruct (Rlt_dec float_max (diff / T)) as [H|_].
  { pose proof (exp_ineq1_le (diff / T)). lra. }
  rewrite math_exp_in_range by exact R. reflexivity.
Qed.

Lemma accept_true_iff : forall u diff T,
  T <> 0 -> float_tiny <= exp (diff / T) <= float_max ->
  exists accepted,
    accept u diff T = Ok accepted /\
    (accepted = true <-> u < exp (diff / T)).
Proof.
  intros u diff T HT R. rewrite accept_in_range by assumption.
  destruct (Rlt_dec u (exp (diff / T))) as [L|L].
  - exists true. split; [reflexivity | tauto].
  - exists false. split; [reflexivity|]. split; [discriminate | contradiction].
Qed.

Lemma accept_overflows : forall u diff T,
  T <> 0 -> float_max < exp (diff / T) -> diff / T <= float_max ->
  accept u diff T = Raise OverflowError.
Proof.
  intros u diff T HT O F. unfold accept, math_exp.
  destruct (Req_dec_T T 0) as [E|_]; [contradiction|].
  destruct (Rlt_dec float_max (diff / T)) as [H|_]; [lra|].
  destruct (Rlt_dec float_max (exp (diff / T))) as [_|H]; [reflexivity|].
  contradiction.
Qed.

Lemma accept_inf : forall u diff T,
  T <> 0 -> float_max < diff / T -> accept u diff T = Ok true.
Proof.
  intros u diff T HT O. unfold accept.
  destruct (Req_dec_T T 0) as [E|_]; [contradiction|].
  destruct (Rlt_dec float_max (diff / T)) as [_|H]; [reflexivity|].
  contradiction.
Qed.

Lemma accept_underflows : forall u diff T,
  T <> 0 -> exp (diff / T) < float_tiny ->
  accept u diff T = Ok (if Rlt_dec u 0 then true else false).
Proof.
  intros u diff T HT U. unfold accept, math_exp.
  assert (P : 0 < float_tiny).
  { unfold float_tiny. apply Rinv_0_lt_compat. apply pow_lt. lra. }
  pose proof float_max_bounds as [F _].
  assert (P2 : 0 < 2 ^ 1023) by (apply pow_lt; lra).
  assert (T1 : float_tiny <= 1).
  { unfold float_tiny. rewrite <- Rinv_1.
    apply Rinv_le_contravar; [lra | apply pow_R1_Rle; lra]. }
  assert (F1 : 1 <= float_max).
  { assert (1 <= 2 ^ 1023) by (apply pow_R1_Rle; lra). lra. }
  pose proof (exp_ineq1_le (diff / T)).
  destruct (Req_dec_T T 0) as [E|_]; [contradiction|].
  destruct (Rlt_dec float_max (diff / T)) as [H0|_]; [lra|].
  destruct (Rlt_dec float_max (exp (diff / T))) as [H0|_]; [lra|].
  destruct (Rlt_dec (exp (diff / T)) float_tiny) as [_|H0];
    [reflexivity | contradiction].
Qed.

Lemma exp_ratio_ge_1 : forall diff T, 0 < T -> 0 <= diff -> 1 <= exp (diff / T).
Proof.
  intros diff T HT Hd.
  assert (0 <= diff / T).
  { apply Rmult_le_pos; [exact Hd|]. left. now apply Rinv_0_lt_compat. }
  pose proof (exp_ineq1_le (diff / T)). lra.
Qed.

Lemma exp_ratio_lt_1 : forall diff T,
  0 < T -> diff < 0 -> 0 < exp (diff / T) < 1.
Proof.
  intros diff T HT Hd. split; [apply exp_pos|].
  rewrite <- exp_0. apply exp_increasing.
  unfold Rdiv. pose proof (Rinv_0_lt_compat T HT). nra.
Qed.

(** *** One step of the search *)

Section Step.

Variable quality_of : list R -> result Quality.
Variable num : nat.
Variable T : R.

(** What a step that raises nothing has done. *)
Lemma proposal_step_inv : forall s d s',
  proposal_step quality_of num T s d = Ok s' ->
  exists x1 proposedQuality accepted,
    num <> 0%nat /\
    add_at (x s) (coord d) (random_delta d) = Ok x1 /\
    quality_of x1 = Ok proposedQuality /\
    accept (uniform d) (proposal_diff proposedQuality (quality s)) T
      = Ok accepted /\
    x s' = (if accepted then x1 else x s) /\
    quality s' = (if accepted then proposedQuality else quality s) /\
    ((fst (bestQuality s) < fst (quality s') /\
      best_x s' = x s' /\ bestQuality s' = quality s') \/
     (~ fst (bestQuality s) < fst (quality s') /\
      best_x s' = best_x s /\ bestQuality s' = bestQuality s)).
Proof.
  intros s d s' H. unfold proposal_step in H.
  destruct (Nat.eqb num 0) eqn:En; simpl in H; [discriminate|].
  apply Nat.eqb_neq in En.
  destruct (add_at (x s) (coord d) (random_delta d)) as [x1|] eqn:Ea;
    simpl in H; [|discriminate].
  destruct (quality_of x1) as [pq|] eqn:Eq; simpl in H; [|discriminate].
  destruct (accept (uniform d) (proposal_diff pq (quality s)) T)
    as [acc|] eqn:Ec; simpl in H; [|discriminate].
  exists x1, pq, acc. split; [exact En|]. split; [reflexivity|].
  split; [exact Eq|]. split; [exact Ec|].
  destruct acc; simpl in H.
  - destruct (Rlt_dec (fst (bestQuality s)) (fst pq)) as [L|L];
      inversion H; subst; simpl;
      (split; [reflexivity|]; split; [reflexivity|]);
      [left | right]; auto.
  - rewrite (sub_at_undoes_add_at _ _ _ _ Ea) in H. simpl in H.
    destruct (Rlt_dec (fst (bestQuality s)) (fst (quality s))) as [L|L];
      inversion H; subst; simpl;
      (split; [reflexivity|]; split; [reflexivity|]);
      [left | right]; auto.
Qed.

(** The step, when the acceptance test returns [accepted]. *)
Lemma proposal_step_eval : forall s d x1 proposedQuality accepted,
  num <> 0%nat ->
  add_at (x s) (coord d) (random_delta d) = Ok x1 ->
  quality_of x1 = Ok proposedQuality ->
  accept (uniform d) (proposal_diff proposedQuality (quality s)) T
    = Ok accepted ->
  proposal_step quality_of num T s d =
    Ok (let x2 := if accepted then x1 else x s in
        let quality2 := if accepted then proposedQuality else quality s in
        if Rlt_dec (fst (bestQuality s)) (fst quality2)
        then {| x := x2; quality := quality2;
                best_x := x2; bestQuality := quality2 |}
        else {| x := x2; quality := quality2;
                best_x := best_x s; bestQuality := bestQuality s |}).
Proof.
  intros s d x1 pq acc Hn Ea Eq Ec. unfold proposal_step.
  apply Nat.eqb_neq in Hn. rewrite Hn. cbn [bind]. rewrite Ea. cbn [bind].
  rewrite Eq. cbn [bind]. rewrite Ec. cbn [bind]. destruct acc; cbn [bind].
  - destruct (Rlt_dec _ _); reflexivity.
  - rewrite (sub_at_undoes_add_at _ _ _ _ Ea). cbn [bind].
    destruct (Rlt_dec _ _); reflexivity.
Qed.

(** When the draw, the quality function and the acceptance test raise
    nothing, neither does the step. *)
Lemma proposal_step_runs : forall s d x1 proposedQuality accepted,
  num <> 0%nat ->
  add_at (x s) (coord d) (random_delta d) = Ok x1 ->
  quality_of x1 = Ok proposedQuality ->
  accept (uniform d) (proposal_diff proposedQuality (quality s)) T
    = Ok accepted ->
  exists s', proposal_step quality_of num T s d = Ok s'.
Proof.
  intros s d x1 pq acc Hn Ea Eq Ec.
  rewrite (proposal_step_eval s d x1 pq acc Hn Ea Eq Ec). eauto.
Qed.

(** What the acceptance test raises, the step raises. *)
Lemma proposal_step_raises : forall s d x1 proposedQuality e,
  num <> 0%nat ->
  add_at (x s) (coord d) (random_delta d) = Ok x1 ->
  quality_of x1 = Ok proposedQuality ->
  accept (uniform d) (proposal_diff proposedQuality (quality s)) T
    = Raise e ->
  proposal_step quality_of num T s d = Raise e.
Proof.
  intros s d x1 pq e Hn Ea Eq Ec. unfold proposal_step.
  apply Nat.eqb_neq in Hn. rewrite Hn. cbn [bind]. rewrite Ea. cbn [bind].
  rewrite Eq. cbn [bind]. rewrite Ec. reflexivity.
Qed.

End Step.

(** The search of the examples: from [x = [0]] of quality [(0, 0)], the
    step that adds 1 proposes [[0 + 1]], of quality [(0 + 1 + 0, 0)] and
    of [diff] 1. *)
Lemma up_diff : proposal_diff (0 + 1 + 0, 0) (0, 0) = 1.
Proof. unfold proposal_diff. simpl. lra. Qed.

(** C5, as stated, fails: at the temperature 1/2000 the proposal of the
    step [up_draw] has [diff = 1 >= 0], and the draw of the test is 1/2,
    but the proposal is not accepted: [math.exp(2000)] raises
    [OverflowError], which ends the search. *)
Lemma Metropolis_acceptance_overflows :
  0 < 1 / 2000 /\
  0 <= proposal_diff (0 + 1 + 0, 0) (0, 0) /\
  0 <= uniform up_draw < 1 /\
  accept (uniform up_draw) (proposal_diff (0 + 1 + 0, 0) (0, 0)) (1 / 2000)
    = Raise OverflowError /\
  proposal_step sum_quality 1 (1 / 2000) (start [0] (0, 0)) up_draw
    = Raise OverflowError.
Proof.
  assert (A : accept (uniform up_draw)
                (proposal_diff (0 + 1 + 0, 0) (0, 0)) (1 / 2000)
              = Raise OverflowError).
  { assert (D : proposal_diff (0 + 1 + 0, 0) (0, 0) / (1 / 2000) = 2000).
    { rewrite up_diff. field. }
    apply accept_overflows; [lra | |]; rewrite D.
    - exact exp_2000_overflows.
    - pose proof float_max_bounds as [F _].
      assert (M : 2 ^ 11 <= 2 ^ 1023) by (apply Rle_pow; [lra | lia]).
      assert (E : 2 ^ 11 = 2048) by (simpl; lra).
      lra. }
  split; [lra|]. split; [rewrite up_diff; lra|].
  split; [simpl; lra|]. split; [exact A|].
  apply (proposal_step_raises sum_quality 1 (1 / 2000) (start [0] (0, 0))
           up_draw [0 + 1] (0 + 1 + 0, 0));
    [discriminate | reflexivity | reflexivity | exact A].
Qed.

(** C5, amended: in a step, where [diff] is 1 * (change of
    fractionCorrect) + 2 * (change of closeness), and as long as
    [exp (diff / T)] is in the range of the floats, the proposal is
    accepted exactly when the draw [u] satisfies [u < exp (diff / T)]:
    the new point and its quality are kept when it is, the old ones when
    it is not.  So, at a temperature [T > 0], a proposal with
    [diff >= 0] is then accepted whatever the draw [u] of [0, 1), and one
    with [diff < 0] is accepted for the draws of [0, exp (diff / T)), an
    interval of length [exp (diff / T) < 1].  Out of this range: when
    [exp (diff / T)] is above the largest float, the step raises
    [OverflowError], unless the quotient [diff / T] is itself above the
    largest float, in which case the proposal is accepted; when
    [exp (diff / T)] is rounded to 0, the proposal is accepted for no
    draw of [0, 1). *)
Theorem Metropolis_acceptance :
  forall quality_of num T s d x1 proposedQuality,
    T <> 0 -> num <> 0%nat ->
    add_at (x s) (coord d) (random_delta d) = Ok x1 ->
    quality_of x1 = Ok proposedQuality ->
    let diff := 1 * (fst proposedQuality - fst (quality s)) +
                2 * (snd proposedQuality - snd (quality s)) in
    (float_tiny <= exp (diff / T) <= float_max ->
     exists accepted s',
       accept (uniform d) diff T = Ok accepted /\
       proposal_step quality_of num T s d = Ok s' /\
       (accepted = true <-> uniform d < exp (diff / T)) /\
       x s' = (if accepted then x1 else x s) /\
       quality s' = (if accepted then proposedQuality else quality s) /\
       (0 < T -> uniform d < 1 -> 0 <= diff -> accepted = true) /\
       (0 < T -> diff < 0 -> 0 < exp (diff / T) < 1)) /\
    (float_max < exp (diff / T) -> diff / T <= float_max ->
     accept (uniform d) diff T = Raise OverflowError /\
     proposal_step quality_of num T s d = Raise OverflowError) /\
    (float_max < diff / T ->
     accept (uniform d) diff T = Ok true /\
     exists s', proposal_step quality_of num T s d = Ok s' /\
                x s' = x1 /\ quality s' = proposedQuality) /\
    (exp (diff / T) < float_tiny -> 0 <= uniform d ->
     accept (uniform d) diff T = Ok false /\
     exists s', proposal_step quality_of num T s d = Ok s' /\
                x s' = x s /\ quality s' = quality s).
Proof.
  intros quality_of num T s d x1 pq HT0 Hn Ea Eq diff.
  assert (Kept : forall acc,
             accept (uniform d) diff T = Ok acc ->
             exists s', proposal_step quality_of num T s d = Ok s' /\
                        x s' = (if acc then x1 else x s) /\
                        quality s' = (if acc then pq else quality s)).
  { intros acc Ec.
    destruct (proposal_step_runs quality_of num T s d x1 pq acc Hn Ea Eq Ec)
      as (s' & Hs).
    destruct (proposal_step_inv quality_of num T s d s' Hs)
      as (x1' & pq' & acc' & _ & Ea' & Eq' & Ec' & Hx & Hq & _).
    rewrite Ea in Ea'. inversion Ea'; subst x1'.
    rewrite Eq in Eq'. inversion Eq'; subst pq'.
    change (proposal_diff pq (quality s)) with diff in Ec'.
    rewrite Ec in Ec'. inversion Ec'; subst acc'.
    exists s'. auto. }
  split; [|split; [|split]].
  - intros R.
    destruct (accept_true_iff (uniform d) diff T HT0 R) as (acc & Ec & Hiff).
    destruct (Kept acc Ec) as (s' & Hs & Hx & Hq).
    exists acc, s'.
    split; [exact Ec|]. split; [exact Hs|]. split; [exact Hiff|].
    split; [exact Hx|]. split; [exact Hq|]. split.
    + intros HT Hu Hd. apply Hiff.
      pose proof (exp_ratio_ge_1 diff T HT Hd). lra.
    + intros HT Hd. now apply exp_ratio_lt_1.
  - intros O F.
    pose proof (accept_overflows (uniform d) diff T HT0 O F) as A.
    split; [exact A|].
    exact (proposal_step_raises quality_of num T s d x1 pq OverflowError
             Hn Ea Eq A).
  - intros O. pose proof (accept_inf (uniform d) diff T HT0 O) as A.
    split; [exact A|]. exact (Kept true A).
  - intros U Hu.
    pose proof (accept_underflows (uniform d) diff T HT0 U) as A.
    destruct (Rlt_dec (uniform d) 0) as [L|_]; [lra|].
    split; [exact A|]. exact (Kept false A).
Qed.

Lemma up_accepted : forall T,
  1 / 500 <= T ->
  accept (uniform up_draw) (proposal_diff (0 + 1 + 0, 0) (0, 0)) T = Ok true.
Proof.
  intros T HT. rewrite up_diff.
  assert (P : 0 < / T) by (apply Rinv_0_lt_compat; lra).
  assert (Q : / T <= 500).
  { replace 500 with (/ (1 / 500)) by field.
    apply Rinv_le_contravar; lra. }
  rewrite accept_in_range; [| lra |].
  - destruct (Rlt_dec _ _) as [_|N]; [reflexivity|].
    exfalso. apply N. simpl.
    pose proof (exp_ratio_ge_1 1 T). lra.
  - apply exp_in_float_range. unfold Rdiv. lra.
Qed.

Lemma Metropolis_acceptance_witness :
  exists accepted s',
    accept (uniform up_draw) (1 * (Rsum [0 + 1] - 0) + 2 * (0 - 0)) (1 / 100)
      = Ok accepted /\
    proposal_step sum_quality 1 (1 / 100) (start [0] (0, 0)) up_draw = Ok s' /\
    accepted = true /\
    x s' = [0 + 1].
Proof.
  destruct (Metropolis_acceptance sum_quality 1 (1 / 100) (start [0] (0, 0))
              up_draw [0 + 1] (Rsum [0 + 1], 0))
    as (In_range & _).
  - lra.
  - discriminate.
  - reflexivity.
  - reflexivity.
  - destruct In_range as (acc & s' & Ec & Hs & _ & Hx & _ & Hacc & _).
    + apply exp_in_float_range. simpl. unfold Rdiv.
      replace (/ (1 * / 100)) with 100 by field. lra.
    + exists acc, s'. simpl in *.
      assert (A : acc = true) by (apply Hacc; lra).
      subst acc. auto.
Defined.

(** C10: a step changes the candidate [x] in the drawn coordinate [n] at
    most: the length and the other entries are kept.  After a rejected
    proposal [x] is what it was before the step. *)
Theorem proposal_step_frame :
  forall quality_of num T s d s',
    proposal_step quality_of num T s d = Ok s' ->
    length (x s') = length (x s) /\
    (forall i, i <> coord d -> nth_error (x s') i = nth_error (x s) i) /\
    (forall x1 proposedQuality,
       add_at (x s) (coord d) (random_delta d) = Ok x1 ->
       quality_of x1 = Ok proposedQuality ->
       accept (uniform d) (proposal_diff proposedQuality (quality s)) T
         = Ok false ->
       x s' = x s).
Proof.
  intros quality_of num T s d s' Hs.
  destruct (proposal_step_inv quality_of num T s d s' Hs)
    as (x1 & pq & acc & _ & Ea & Eq & Ec & Hx & _).
  pose proof (add_at_inv _ _ _ _ Ea) as (v & Ev & E1).
  split; [|split].
  - rewrite Hx. destruct acc; [|reflexivity].
    rewrite E1. apply length_list_set.
  - intros i Hi. rewrite Hx. destruct acc; [|reflexivity].
    rewrite E1. now apply nth_error_list_set_other.
  - intros x1' pq' Ea' Eq' Ec'.
    rewrite Ea in Ea'. inversion Ea'; subst x1'.
    rewrite Eq in Eq'. inversion Eq'; subst pq'.
    rewrite Ec in Ec'. inversion Ec'; subst acc. exact Hx.
Qed.

(** *** Two steps of a search *)

Lemma up_step :
  proposal_step sum_quality 1 100 (start [0] (0, 0)) up_draw = Ok up_state.
Proof.
  rewrite (proposal_step_eval sum_quality 1 100 (start [0] (0, 0)) up_draw
             [0 + 1] (0 + 1 + 0, 0) true);
    [| discriminate | reflexivity | reflexivity | apply up_accepted; lra].
  cbn [start bestQuality fst]. destruct (Rlt_dec _ _) as [_|N];
    [reflexivity|]. exfalso. apply N. simpl. lra.
Qed.

Lemma down_step :
  proposal_step sum_quality 1 100 up_state down_draw = Ok down_state.
Proof.
  assert (D : proposal_diff (0 + 1 + -1 + 0, 0) (quality up_state) / 100
              = - (1 / 100)).
  { unfold proposal_diff. simpl. field. }
  rewrite (proposal_step_eval sum_quality 1 100 up_state down_draw
             [0 + 1 + -1] (0 + 1 + -1 + 0, 0) true);
    [| discriminate | reflexivity | reflexivity |].
  - cbn [up_state bestQuality fst]. destruct (Rlt_dec _ _) as [L|_];
      [exfalso; simpl in L; lra | reflexivity].
  - rewrite accept_in_range; [| lra |]; rewrite D.
    + destruct (Rlt_dec _ _) as [_|N]; [reflexivity|].
      exfalso. apply N. simpl.
      pose proof (exp_ineq1_le (- (1 / 100))) as P. lra.
    + apply exp_in_float_range. lra.
Qed.

Lemma cold_rejects :
  accept (uniform down_draw) (proposal_diff (Rsum [0 + -1], 0) (0, 0))
         (1 / 100) = Ok false.
Proof.
  assert (D : proposal_diff (Rsum [0 + -1], 0) (0, 0) / (1 / 100) = - 100).
  { unfold proposal_diff. simpl. field. }
  rewrite accept_in_range; [| lra |]; rewrite D.
  - destruct (Rlt_dec _ _) as [L|_]; [exfalso|reflexivity].
    simpl in L.
    pose proof (exp_ineq1_le 100) as P.
    pose proof (exp_plus (- 100) 100) as Q.
    replace (- 100 + 100) with 0 in Q by lra. rewrite exp_0 in Q.
    pose proof (exp_pos (- 100)). nra.
  - apply exp_in_float_range. lra.
Qed.

Lemma proposal_step_frame_witness :
  exists s',
    proposal_step sum_quality 1 (1 / 100) (start [0] (0, 0)) down_draw
      = Ok s' /\
    x s' = [0].
Proof.
  destruct (proposal_step_runs sum_quality 1 (1 / 100) (start [0] (0, 0))
              down_draw [0 + -1] (Rsum [0 + -1], 0) false)
    as (s' & Hs);
    [discriminate | reflexivity | reflexivity | exact cold_rejects |].
  exists s'. split; [exact Hs|].
  destruct (proposal_step_frame sum_quality 1 (1 / 100) (start [0] (0, 0))
              down_draw s' Hs) as (_ & _ & Hrej).
  apply (Hrej [0 + -1] (Rsum [0 + -1], 0)); [reflexivity | reflexivity |].
  exact cold_rejects.
Defined.

(** *** The best point *)

Section Best.

Variable quality_of : list R -> result Quality.
Variable num : nat.
Variable T : R.

Local Abbreviation move' := (move quality_of num T).
Local Abbreviation follows' := (follows quality_of num T).

Lemma move_best_monotone : forall s s',
  move' s s' -> fst (bestQuality s) <= fst (bestQuality s').
Proof.
  intros s s' [s0 d s1 Hs|s0].
  - destruct (proposal_step_inv quality_of num T s0 d s1 Hs)
      as (_ & _ & _ & _ & _ & _ & _ & _ & _ & [(L & _ & E)|(_ & _ & E)]).
    + rewrite E. lra.
    + rewrite E. apply Rle_refl.
  - simpl. apply Rle_refl.
Qed.

Lemma follows_best_monotone : forall s t,
  follows' s t -> fst (bestQuality s) <= fst (bestQuality t).
Proof.
  intros s t H. induction H as [|t t' _ IH Hm].
  - apply Rle_refl.
  - pose proof (move_best_monotone t t' Hm). lra.
Qed.

Lemma follows_trans : forall a b c,
  follows' a b -> follows' b c -> follows' a c.
Proof.
  intros a b c Hab Hbc. induction Hbc as [|t t' _ IH Hm].
  - exact Hab.
  - eapply follows_move; eauto.
Qed.

(** The current point is never better than the best one. *)
Lemma move_current_le_best : forall s s',
  move' s s' -> fst (quality s') <= fst (bestQuality s').
Proof.
  intros s s' [s0 d s1 Hs|s0].
  - destruct (proposal_step_inv quality_of num T s0 d s1 Hs)
      as (_ & _ & _ & _ & _ & _ & _ & _ & _ & [(_ & _ & E)|(N & _ & E)]).
    + rewrite E. apply Rle_refl.
    + rewrite E. lra.
  - simpl. apply Rle_refl.
Qed.

Lemma follows_current_le_best : forall x0 q0 s,
  follows' (start x0 q0) s -> fst (quality s) <= fst (bestQuality s).
Proof.
  intros x0 q0 s H. destruct H as [|t t' _ Hm].
  - simpl. apply Rle_refl.
  - exact (move_current_le_best t t' Hm).
Qed.

(** The best point is one of the points the search went through. *)
Lemma best_was_current : forall x0 q0 t,
  follows' (start x0 q0) t ->
  exists s, follows' (start x0 q0) s /\ follows' s t /\
            best_x t = x s /\ bestQuality t = quality s.
Proof.
  intros x0 q0 t H. induction H as [|t t' Ht IH Hm].
  - exists (start x0 q0). repeat split; constructor.
  - destruct IH as (s & Hs & Hst & Ex & Eq).
    assert (Ht' : follows quality_of num T (start x0 q0) t').
    { exact (follows_move quality_of num T _ t t' Ht Hm). }
    pose proof Hm as Hm'.
    destruct Hm as [s0 d s1 Hstep|s0].
    + destruct (proposal_step_inv quality_of num T s0 d s1 Hstep)
        as (_ & _ & _ & _ & _ & _ & _ & _ & _ & [(_ & Bx & Bq)|(_ & Bx & Bq)]).
      * exists s1. repeat split; auto. constructor.
      * exists s. repeat split; auto; try congruence.
        exact (follows_move quality_of num T _ s0 s1 Hst Hm').
    + exists s. repeat split; auto.
      exact (follows_move quality_of num T _ _ _ Hst Hm').
Qed.

(** In exact arithmetic the qualities kept are those of the points kept. *)
Lemma qualities_kept : forall x0 q0 t,
  quality_of x0 = Ok q0 ->
  follows' (start x0 q0) t ->
  quality_of (x t) = Ok (quality t) /\
  quality_of (best_x t) = Ok (bestQuality t).
Proof.
  intros x0 q0 t H0 H. induction H as [|t t' _ IH Hm].
  - simpl. auto.
  - destruct IH as [IHx IHb]. destruct Hm as [s0 d s1 Hstep|s0].
    + destruct (proposal_step_inv quality_of num T s0 d s1 Hstep)
        as (x1 & pq & acc & _ & _ & Eq & _ & Hx & Hq & B).
      assert (C : quality_of (x s1) = Ok (quality s1)).
      { rewrite Hx, Hq. destruct acc; assumption. }
      split; [exact C|].
      destruct B as [(_ & Bx & Bq)|(_ & Bx & Bq)]; rewrite Bx, Bq; assumption.
    + simpl. auto.
Qed.

(** The loops of [Metropolis] make moves of the search. *)
Lemma run_steps_follows : forall steps draws k s s',
  run_steps quality_of num T steps draws k s = Ok s' -> follows' s s'.
Proof.
  induction steps as [|steps IH]; intros draws k s s' H; simpl in H.
  - inversion H. constructor.
  - destruct (proposal_step quality_of num T s (draws k)) as [s1|] eqn:E;
      simpl in H; [|discriminate].
    apply (follows_trans s s1 s').
    + eapply follows_move; [constructor | eapply move_step; eauto].
    + eapply IH; eauto.
Qed.

Lemma run_repetitions_follows : forall steps draws reps rep s s',
  run_repetitions quality_of num T steps draws reps rep s = Ok s' ->
  follows' s s'.
Proof.
  intros steps draws. induction reps as [|reps IH]; intros rep s s' H;
    simpl in H.
  - inversion H. constructor.
  - destruct (run_steps quality_of num T steps (draws rep) 0
                        (restart_from_best s)) as [s1|] eqn:E;
      simpl in H; [|discriminate].
    apply (follows_trans s (restart_from_best s) s').
    + eapply follows_move; [constructor | apply move_restart].
    + apply (follows_trans _ s1 s').
      * eapply run_steps_follows; eauto.
      * eapply IH; eauto.
Qed.

Lemma Metropolis_follows : forall x0 steps repetitions draws best,
  Metropolis quality_of num T x0 steps repetitions draws = Ok best ->
  exists q0 t,
    quality_of x0 = Ok q0 /\ follows' (start x0 q0) t /\ best = best_x t.
Proof.
  intros x0 steps repetitions draws best H. unfold Metropolis in H.
  destruct (quality_of x0) as [q0|] eqn:E0; simpl in H; [|discriminate].
  destruct (run_repetitions quality_of num T steps draws repetitions 0
                            (start x0 q0)) as [t|] eqn:E;
    simpl in H; [|discriminate].
  inversion H. exists q0, t. repeat split.
  eapply run_repetitions_follows; eauto.
Qed.

End Best.

(** C6: at every point [t] of a search, the best fraction of correct
    pairs kept is at least that of every point [s] the search has been at,
    in all repetitions and steps so far, and the best point kept, with its
    quality, is one of these points (not the last one accepted, when a
    worse one was accepted since); the best fraction kept does not go
    down from one step to the next. *)
Theorem Metropolis_keeps_best :
  forall quality_of num T x0 q0 t,
    follows quality_of num T (start x0 q0) t ->
    (forall s, follows quality_of num T (start x0 q0) s ->
               follows quality_of num T s t ->
               fst (quality s) <= fst (bestQuality t)) /\
    (exists s, follows quality_of num T (start x0 q0) s /\
               follows quality_of num T s t /\
               best_x t = x s /\ bestQuality t = quality s) /\
    (quality_of x0 = Ok q0 ->
       quality_of (best_x t) = Ok (bestQuality t)) /\
    (forall t', move quality_of num T t t' ->
                fst (bestQuality t) <= fst (bestQuality t')).
Proof.
  intros quality_of num T x0 q0 t H. split; [|split; [|split]].
  - intros s Hs Hst.
    pose proof (follows_current_le_best quality_of num T x0 q0 s Hs).
    pose proof (follows_best_monotone quality_of num T s t Hst). lra.
  - now apply best_was_current.
  - intros H0. now apply (qualities_kept quality_of num T x0 q0 t H0).
  - intros t' Hm. exact (move_best_monotone quality_of num T t t' Hm).
Qed.

(** A proposal that is rejected is not a point of the search: it is not
    kept, even when its fraction of correct pairs is above the best one. *)
Remark rejected_proposal_not_kept :
  exists s',
    proposal_step fraction_against_closeness 1 (1 / 100) (start [0] (0, 0))
                  up_draw = Ok s' /\
    fraction_against_closeness [0 + 1] = Ok (0 + 1 + 0, - (0 + 1 + 0)) /\
    bestQuality s' = (0, 0) /\ best_x s' = [0].
Proof.
  assert (Rej : accept (uniform up_draw)
                  (proposal_diff (0 + 1 + 0, - (0 + 1 + 0)) (0, 0)) (1 / 100)
                = Ok false).
  { assert (D : proposal_diff (0 + 1 + 0, - (0 + 1 + 0)) (0, 0) / (1 / 100)
                = - 100).
    { unfold proposal_diff. simpl. field. }
    rewrite accept_in_range; [| lra |]; rewrite D.
    - destruct (Rlt_dec _ _) as [L|_]; [exfalso|reflexivity].
      simpl in L.
      pose proof (exp_ineq1_le 100) as P.
      pose proof (exp_plus (- 100) 100) as Q.
      replace (- 100 + 100) with 0 in Q by lra. rewrite exp_0 in Q.
      pose proof (exp_pos (- 100)). nra.
    - apply exp_in_float_range. lra. }
  destruct (proposal_step_runs fraction_against_closeness 1 (1 / 100)
              (start [0] (0, 0)) up_draw [0 + 1] (0 + 1 + 0, - (0 + 1 + 0))
              false)
    as (s' & Hs); [discriminate | reflexivity | reflexivity | exact Rej |].
  exists s'. split; [exact Hs|]. split; [reflexivity|].
  destruct (proposal_step_inv _ _ _ _ _ _ Hs)
    as (x1 & pq & acc & _ & Ea & Eq & Ec & Hx & Hq & B).
  inversion Ea; subst x1. inversion Eq; subst pq.
  assert (A : Ok acc = Ok false) by (rewrite <- Ec; exact Rej).
  inversion A; subst acc.
  destruct B as [(L & _)|(_ & Bx & Bq)].
  - exfalso. rewrite Hq in L. simpl in L. lra.
  - rewrite Bx, Bq. auto.
Qed.

Lemma down_state_follows :
  follows sum_quality 1 100 (start [0] (0, 0)) down_state.
Proof.
  eapply follows_move; [eapply follows_move; [apply follows_refl|]|].
  - eapply move_step. exact up_step.
  - eapply move_step. exact down_step.
Qed.

Lemma Metropolis_keeps_best_witness :
  follows sum_quality 1 100 (start [0] (0, 0)) down_state /\
  fst (quality down_state) <= fst (bestQuality down_state) /\
  best_x down_state = [0 + 1] /\ x down_state = [0 + 1 + -1].
Proof.
  split; [exact down_state_follows|]. split; [|split; reflexivity].
  destruct (Metropolis_keeps_best sum_quality 1 100 [0] (0, 0) down_state
              down_state_follows) as (H & _).
  apply H; [exact down_state_follows | apply follows_refl].
Defined.

End CalibrationFacts.
(** ** More on the probability-angle transform *)

Module TransformMore.

Import Transform Born TransformFacts.
Local Open Scope R_scope.

Lemma calculateFrac_Ok_inv : forall p f,
  calculateFrac p = Ok f -> 0 <= p <= 1 /\ f = asin (sqrt p) * 2 / PI.
Proof.
  intros p f H.
  destruct (Rlt_le_dec p 0) as [N|P].
  - rewrite calculateFrac_negative in H by exact N. discriminate.
  - destruct (Rlt_le_dec 1 p) as [A|B].
    + rewrite calculateFrac_above_one in H by exact A. discriminate.
    + rewrite calculateFrac_in_domain in H by lra.
      inversion H. split; [lra | reflexivity].
Qed.

Lemma quarter_turn : forall f,
  0 <= f <= 1 -> 0 <= f * PI / 2 <= PI / 2.
Proof.
  intros f [H0 H1]. pose proof PI_RGT_0. split; nra.
Qed.

(** X1: [calculateFrac] and the Born rule are inverse to one another: the
    fraction computed from the probability that a rotation by [f] gives is
    [f], for [f] in [0, 1]; and the rotation by a computed fraction gives
    back the probability. *)
Theorem calculateFrac_born_inverse :
  (forall f, 0 <= f <= 1 -> calculateFrac (born f) = Ok f) /\
  (forall p f, calculateFrac p = Ok f -> born f = p).
Proof.
  split.
  - intros f Hf. pose proof (quarter_turn f Hf) as [T0 T1].
    pose proof PI_RGT_0 as HPI.
    assert (S0 : 0 <= sin (f * PI / 2)) by (apply sin_ge_0; lra).
    pose proof (SIN_bound (f * PI / 2)) as [_ S1].
    rewrite calculateFrac_in_domain.
    + unfold born. rewrite sqrt_Rsqr by exact S0.
      rewrite asin_sin by lra. f_equal. field. lra.
    + unfold born, Rsqr. split; nra.
  - intros p f H. apply calculateFrac_Ok_inv in H. destruct H as [[P0 P1] ->].
    pose proof PI_RGT_0 as HPI.
    assert (Hs0 : 0 <= sqrt p) by apply sqrt_pos.
    assert (Hs1 : sqrt p <= 1).
    { rewrite <- sqrt_1. apply sqrt_le_1; lra. }
    unfold born.
    replace (asin (sqrt p) * 2 / PI * PI / 2) with (asin (sqrt p))
      by (field; lra).
    rewrite sin_asin by lra. now apply Rsqr_sqrt.
Qed.

Lemma calculateFrac_born_inverse_witness :
  calculateFrac (born (1 / 2)) = Ok (1 / 2).
Proof.
  apply (proj1 calculateFrac_born_inverse). lra.
Defined.

Lemma frac_half_iff : forall p,
  0 <= p <= 1 -> (1 / 2 <= asin (sqrt p) * 2 / PI <-> 1 / 2 <= p).
Proof.
  intros p [P0 P1]. pose proof PI_RGT_0 as HPI.
  assert (Hs0 : 0 <= sqrt p) by apply sqrt_pos.
  assert (Hs1 : sqrt p <= 1).
  { rewrite <- sqrt_1. apply sqrt_le_1; lra. }
  pose proof (asin_bound (sqrt p)) as [B0 B1].
  assert (Q : sqrt (1 / 2) = / sqrt 2).
  { replace (1 / 2) with (/ 2) by lra. apply sqrt_inv. }
  split.
  - intros H.
    assert (A : PI / 4 <= asin (sqrt p)).
    { apply (Rmult_le_reg_r (2 / PI)).
      - apply Rdiv_lt_0_compat; lra.
      - replace (PI / 4 * (2 / PI)) with (1 / 2) by (field; lra).
        replace (asin (sqrt p) * (2 / PI)) with (asin (sqrt p) * 2 / PI)
          by (field; lra).
        exact H. }
    assert (S : sin (PI / 4) <= sin (asin (sqrt p))).
    { apply sin_incr_1; lra. }
    rewrite sin_asin in S by lra. rewrite sin_PI4 in S.
    replace (1 / sqrt 2) with (sqrt (1 / 2)) in S by (rewrite Q; lra).
    destruct (Rle_lt_dec (1 / 2) p) as [L|L]; [exact L|].
    exfalso. apply (sqrt_lt_1 p (1 / 2)) in L; lra.
  - intros H.
    assert (S : sqrt (1 / 2) <= sqrt p) by (apply sqrt_le_1; lra).
    assert (A : asin (sqrt (1 / 2)) <= asin (sqrt p)).
    { apply asin_monotone; try lra.
      pose proof (sqrt_pos (1 / 2)). lra. }
    rewrite Q, asin_inv_sqrt2 in A.
    apply (Rmult_le_reg_r (PI / 2)); [lra|].
    replace (asin (sqrt p) * 2 / PI * (PI / 2)) with (asin (sqrt p))
      by (field; lra).
    lra.
Qed.

(** X2: [calculateEntanglement] of a probability of [0, 1] is in
    [0, 1]; it is 1 exactly from probability 1/2 on.  Of a negative
    probability it raises [ValueError]. *)
Theorem calculateEntanglement_saturates : forall p,
  (0 <= p <= 1 ->
     exists E, calculateEntanglement p = Ok E /\ 0 <= E <= 1 /\
               (E = 1 <-> 1 / 2 <= p)) /\
  (p < 0 -> calculateEntanglement p = Raise ValueError).
Proof.
  intros p. split.
  - intros Hp. unfold calculateEntanglement.
    rewrite calculateFrac_in_domain by exact Hp. simpl.
    pose proof (frac_value_range p Hp) as [F0 F1].
    pose proof (frac_half_iff p Hp) as Hh.
    eexists. split; [reflexivity|]. unfold Rmin.
    destruct (Rle_dec (2 * (asin (sqrt p) * 2 / PI)) 1) as [L|L].
    + split; [lra|]. split; intros H.
      * apply Hh. lra.
      * apply Hh in H. lra.
    + split; [lra|]. split; intros H; [|reflexivity].
      apply Hh. lra.
  - intros H. unfold calculateEntanglement.
    now rewrite calculateFrac_negative.
Qed.

Lemma calculateEntanglement_saturates_witness :
  (exists E, calculateEntanglement (3 / 4) = Ok E /\ 0 <= E <= 1 /\
             (E = 1 <-> 1 / 2 <= 3 / 4)) /\
  calculateEntanglement (- (1 / 4)) = Raise ValueError.
Proof.
  split.
  - apply (calculateEntanglement_saturates (3 / 4)). lra.
  - apply (calculateEntanglement_saturates (- (1 / 4))). lra.
Defined.

(** X3: Two fractions at most 1 apart disagree by 0 exactly when they are
    equal or 1 apart: the fractions 0 and 1 are identified. *)
Theorem calculateFracDifference_zero : forall f1 f2,
  Rabs (f1 - f2) <= 1 ->
  (calculateFracDifference f1 f2 = 0 <-> f1 = f2 \/ Rabs (f1 - f2) = 1).
Proof.
  intros f1 f2 H. unfold calculateFracDifference.
  rewrite max_minus_min. revert H. unfold Rabs, Rmin.
  destruct (Rcase_abs (f1 - f2)); intros H; destruct (Rle_dec _ _);
    (split; [intros E | intros [E|E]]);
    first [lra | left; lra | right; lra].
Qed.

Lemma calculateFracDifference_zero_witness :
  Rabs (0 - 1) <= 1 /\ calculateFracDifference 0 1 = 0.
Proof.
  assert (A : Rabs (0 - 1) = 1).
  { unfold Rabs. destruct (Rcase_abs _); lra. }
  split; [lra|].
  apply (calculateFracDifference_zero 0 1); [lra | now right].
Defined.

(** *** [calculateFuzz] *)

Lemma fuzz_loop_Ok_inv : forall oneProb pairs n rest acc r,
  fuzz_loop oneProb pairs n rest acc = Ok r ->
  indexes_into oneProb pairs rest.
Proof.
  intros oneProb pairs n rest. induction rest as [|p rest IH];
    intros acc r H q Hq; [contradiction|].
  simpl in H.
  destruct (lookup pairs p) as [[a b]|] eqn:L; simpl in H; [|discriminate].
  unfold index in H.
  destruct (nth_error oneProb a) as [pa|] eqn:Ea; simpl in H; [|discriminate].
  destruct (nth_error oneProb b) as [pb|] eqn:Eb; simpl in H; [|discriminate].
  destruct Hq as [<-|Hq].
  - exists a, b. split; [exact L|]. split; apply nth_error_Some; congruence.
  - eapply IH; eauto.
Qed.

(** X4: [calculateFuzz] raises nothing exactly when each pair of the
    matching is a pair of the layout whose two qubits index into
    [oneProb]. *)
Theorem calculateFuzz_defined : forall oneProb pairs matchingPairs,
  (exists fuzzAv, calculateFuzz oneProb pairs matchingPairs = Ok fuzzAv) <->
  indexes_into oneProb pairs matchingPairs.
Proof.
  intros oneProb pairs matchingPairs. split.
  - intros [r H]. unfold calculateFuzz in H.
    eapply fuzz_loop_Ok_inv; eauto.
  - intros H. unfold calculateFuzz. rewrite fuzz_loop_sum by exact H. eauto.
Qed.

Lemma Rsum_bounds : forall l,
  (forall v, In v l -> 0 <= v <= 1) -> 0 <= Rsum l <= INR (length l).
Proof.
  induction l as [|a l IH]; intros H.
  - simpl. lra.
  - change (Rsum (a :: l)) with (a + Rsum l).
    change (length (a :: l)) with (S (length l)). rewrite S_INR.
    pose proof (H a (or_introl eq_refl)).
    assert (0 <= Rsum l <= INR (length l)).
    { apply IH. intros v Hv. apply H. now right. }
    lra.
Qed.

Lemma gap_bounds : forall oneProb pairs p,
  (forall v, In v oneProb -> 0 <= v <= 1) ->
  0 <= gap oneProb pairs p <= 1.
Proof.
  intros oneProb pairs p H. unfold gap.
  destruct (lookup pairs p) as [[a b]|]; [|lra].
  assert (B : forall n, 0 <= nth n oneProb 0 <= 1).
  { intros n. destruct (Nat.lt_ge_cases n (length oneProb)) as [L|L].
    - apply H. now apply nth_In.
    - rewrite nth_overflow by exact L. lra. }
  pose proof (B a). pose proof (B b).
  unfold Rabs. destruct (Rcase_abs _); lra.
Qed.

(** X5: The fuzz of measured probabilities, all of [0, 1], is in [0, 1]. *)
Theorem calculateFuzz_bounds : forall oneProb pairs matchingPairs fuzzAv,
  (forall v, In v oneProb -> 0 <= v <= 1) ->
  calculateFuzz oneProb pairs matchingPairs = Ok fuzzAv ->
  0 <= fuzzAv <= 1.
Proof.
  intros oneProb pairs matchingPairs fuzzAv Hp H.
  assert (I : indexes_into oneProb pairs matchingPairs).
  { unfold calculateFuzz in H. eapply fuzz_loop_Ok_inv; eauto. }
  unfold calculateFuzz in H. rewrite fuzz_loop_sum in H by exact I.
  inversion H; subst; clear H.
  pose proof (Rsum_bounds (map (gap oneProb pairs) matchingPairs)) as B.
  rewrite length_map in B.
  destruct B as [B0 B1].
  { intros v Hv. apply in_map_iff in Hv. destruct Hv as (p & <- & _).
    now apply gap_bounds. }
  destruct matchingPairs as [|p rest].
  - simpl. unfold Rdiv. rewrite Rmult_0_l. lra.
  - assert (N : 0 < INR (length (p :: rest))).
    { apply lt_0_INR. simpl. lia. }
    rewrite Rplus_0_l. split.
    + apply Rmult_le_pos; [exact B0|]. left. now apply Rinv_0_lt_compat.
    + apply (Rmult_le_reg_r (INR (length (p :: rest)))); [exact N|].
      unfold Rdiv. rewrite Rmult_assoc, Rinv_l; lra.
Qed.

Lemma calculateFuzz_bounds_witness :
  (forall v, In v [1 / 4; 3 / 4] -> 0 <= v <= 1) /\
  0 <= 0 + Rabs (1 / 4 - 3 / 4) / INR 1 <= 1.
Proof.
  assert (H : forall v, In v [1 / 4; 3 / 4] -> 0 <= v <= 1).
  { intros v [<-|[<-|[]]]; lra. }
  split; [exact H|].
  exact (calculateFuzz_bounds [1 / 4; 3 / 4] Matching.single_layout
           ["A"%string] _ H eq_refl).
Defined.

End TransformMore.
(** ** Properties of the read-out *)

Module ReadoutFacts.

Import Transform Backend RoundEngine Calibration Readout.
Local Open Scope R_scope.

(** *** Assignment to a dict *)

Lemma has_key_In : forall {V : Type} (d : list (string * V)) p,
  has_key d p = true <-> In p (keys d).
Proof.
  intros V d p. unfold has_key. rewrite existsb_exists. split.
  - intros (k & Hk & E). apply String.eqb_eq in E. now subst.
  - intros H. exists p. split; [exact H | apply String.eqb_refl].
Qed.

Lemma dict_set_new : forall {V : Type} (d : list (string * V)) k v,
  ~ In k (keys d) -> dict_set d k v = d ++ [(k, v)].
Proof.
  induction d as [|[q w] d IH]; intros k v H; simpl.
  - reflexivity.
  - destruct (String.eqb q k) eqn:E.
    + apply String.eqb_eq in E. subst. exfalso. apply H. now left.
    + rewrite IH; [reflexivity|]. intros I. apply H. now right.
Qed.

Lemma keys_dict_set : forall {V : Type} (d : list (string * V)) k v p,
  In p (keys (dict_set d k v)) <-> p = k \/ In p (keys d).
Proof.
  induction d as [|[q w] d IH]; intros k v p; simpl.
  - intuition.
  - destruct (String.eqb q k) eqn:E; simpl.
    + apply String.eqb_eq in E. subst. intuition.
    + rewrite IH. intuition.
Qed.

Lemma NoDup_keys_dict_set : forall {V : Type} (d : list (string * V)) k v,
  NoDup (keys d) -> NoDup (keys (dict_set d k v)).
Proof.
  induction d as [|[q w] d IH]; intros k v H; simpl.
  - repeat constructor. simpl. tauto.
  - simpl in H. apply NoDup_cons_iff in H. destruct H as [Hq H].
    destruct (String.eqb q k) eqn:E; simpl.
    + now constructor.
    + constructor; [|now apply IH].
      intros I. apply keys_dict_set in I. destruct I as [I|I].
      * subst. rewrite String.eqb_refl in E. discriminate.
      * contradiction.
Qed.

Lemma lookup_dict_set_same : forall {V : Type} (d : list (string * V)) k v,
  lookup (dict_set d k v) k = Ok v.
Proof.
  induction d as [|[q w] d IH]; intros k v; simpl.
  - now rewrite String.eqb_refl.
  - destruct (String.eqb q k) eqn:E; simpl; rewrite E; auto.
Qed.

Lemma lookup_dict_set_other : forall {V : Type} (d : list (string * V)) k v p,
  k <> p -> lookup (dict_set d k v) p = lookup d p.
Proof.
  induction d as [|[q w] d IH]; intros k v p H; simpl.
  - destruct (String.eqb k p) eqn:E; [|reflexivity].
    apply String.eqb_eq in E. contradiction.
  - destruct (String.eqb q k) eqn:E; simpl.
    + apply String.eqb_eq in E. subst q.
      destruct (String.eqb k p) eqn:E'; [|reflexivity].
      apply String.eqb_eq in E'. contradiction.
    + destruct (String.eqb q p); [reflexivity | now apply IH].
Qed.

Lemma Rsum_app : forall l l', Rsum (l ++ l') = Rsum l + Rsum l'.
Proof.
  induction l as [|a l IH]; intros l'; simpl.
  - lra.
  - rewrite IH. lra.
Qed.

(** Assignment changes the sum of the values by the change of the entry. *)
Lemma Rsum_dict_set : forall (d : list (string * R)) k v,
  Rsum (map snd (dict_set d k v)) =
  Rsum (map snd d) + v - match lookup d k with Ok old => old | Raise _ => 0 end.
Proof.
  induction d as [|[q w] d IH]; intros k v; simpl.
  - lra.
  - destruct (String.eqb q k) eqn:E; simpl.
    + lra.
    + rewrite IH. lra.
Qed.

(** *** Bit strings *)

Lemma get_nth_error : forall s n,
  String.get n s = nth_error (list_ascii_of_string s) n.
Proof.
  induction s as [|c s IH]; intros [|n]; simpl; auto.
Qed.

Lemma length_list_ascii : forall s,
  length (list_ascii_of_string s) = String.length s.
Proof.
  induction s as [|c s IH]; simpl; auto.
Qed.

Lemma get_None : forall s n, String.get n s = None <-> (String.length s <= n)%nat.
Proof.
  intros s n. rewrite get_nth_error, nth_error_None, length_list_ascii.
  tauto.
Qed.

Lemma reverse_string_involutive : forall s,
  reverse_string (reverse_string s) = s.
Proof.
  intros s. unfold reverse_string.
  rewrite list_ascii_of_string_of_list_ascii, rev_involutive.
  apply string_of_list_ascii_of_string.
Qed.

Lemma reverse_string_inj : forall s t,
  reverse_string s = reverse_string t -> s = t.
Proof.
  intros s t H.
  rewrite <- (reverse_string_involutive s), <- (reverse_string_involutive t).
  now rewrite H.
Qed.

(** X6: The inverted string has the characters of the string in the opposite
    order: qubit [v] is read from the character [len - 1 - v] of the
    string of QISKit.  Inverting twice gives the string back. *)
Theorem reverse_string_get : forall s v,
  reverse_string (reverse_string s) = s /\
  String.length (reverse_string s) = String.length s /\
  ((v < String.length s)%nat ->
   String.get v (reverse_string s) = String.get (String.length s - S v) s).
Proof.
  intros s v. split; [apply reverse_string_involutive|].
  unfold reverse_string. split.
  - rewrite <- length_list_ascii, list_ascii_of_string_of_list_ascii,
      length_rev. apply length_list_ascii.
  - intros H. rewrite !get_nth_error, list_ascii_of_string_of_list_ascii.
    rewrite nth_error_rev, length_list_ascii.
    apply Nat.ltb_lt in H. now rewrite H.
Qed.

Lemma reverse_string_get_witness :
  String.get 0 (reverse_string "011") = String.get 2 "011".
Proof.
  apply (reverse_string_get "011" 0). simpl. lia.
Defined.

(** *** QISKit *)

Lemma invert_counts_app : forall shots veryRaw acc,
  shots <> 0%nat ->
  NoDup (keys acc ++ map reverse_string (keys veryRaw)) ->
  invert_counts shots veryRaw acc = Ok (acc ++ map (inverted shots) veryRaw).
Proof.
  intros shots veryRaw. induction veryRaw as [|[s c] rest IH];
    intros acc Hs ND; simpl.
  - now rewrite app_nil_r.
  - destruct shots as [|n]; [contradiction|]. simpl bind.
    assert (Hnew : ~ In (reverse_string s) (keys acc)).
    { simpl in ND. apply NoDup_remove_2 in ND.
      intros I. apply ND. apply in_or_app. now left. }
    rewrite dict_set_new by exact Hnew.
    rewrite IH; [| discriminate |].
    + rewrite <- app_assoc. reflexivity.
    + unfold keys in *. rewrite map_app, <- app_assoc. exact ND.
Qed.

(** X7: QISKit's counts, a dict, become the list of their inverted entries,
    in the same order, each count divided by [shots]; the frequencies
    add up to the sum of the counts over [shots].  With [shots = 0] the
    first entry raises [ZeroDivisionError]. *)
Theorem invert_counts_frequencies : forall shots resultsVeryRaw,
  NoDup (keys resultsVeryRaw) ->
  ((shots <> 0)%nat ->
     invert_counts shots resultsVeryRaw []
       = Ok (map (inverted shots) resultsVeryRaw) /\
     Rsum (map snd (map (inverted shots) resultsVeryRaw))
       = Rsum (map snd resultsVeryRaw) / INR shots) /\
  (shots = 0%nat -> resultsVeryRaw <> [] ->
     invert_counts shots resultsVeryRaw [] = Raise ZeroDivisionError).
Proof.
  intros shots veryRaw ND. split.
  - intros Hs. split.
    + apply (invert_counts_app shots veryRaw [] Hs). simpl.
      clear - ND. induction veryRaw as [|[s c] rest IH]; simpl.
      * constructor.
      * simpl in ND. apply NoDup_cons_iff in ND. destruct ND as [Hn ND].
        constructor; [|now apply IH].
        intros I. apply in_map_iff in I. destruct I as (t & E & It).
        apply reverse_string_inj in E. subst t. contradiction.
    + clear ND. induction veryRaw as [|[s c] rest IH]; simpl.
      * unfold Rdiv. now rewrite Rmult_0_l.
      * rewrite IH. unfold Rdiv. ring.
  - intros -> Hne. destruct veryRaw as [|[s c] rest]; [contradiction|].
    reflexivity.
Qed.

Lemma invert_counts_frequencies_witness :
  invert_counts 4 [("01"%string, 3); ("11"%string, 1)] []
    = Ok (map (inverted 4) [("01"%string, 3); ("11"%string, 1)]).
Proof.
  apply (invert_counts_frequencies 4 [("01"%string, 3); ("11"%string, 1)]).
  - repeat constructor; simpl; intuition discriminate.
  - discriminate.
Defined.

(** *** ProjectQ *)

Lemma all_strings_length : forall n s,
  In s (all_strings n) -> String.length s = n.
Proof.
  induction n as [|n IH]; intros s H; simpl in H.
  - destruct H as [<-|[]]. reflexivity.
  - apply in_app_or in H.
    destruct H as [H|H]; apply in_map_iff in H;
      destruct H as (t & <- & Ht); simpl; f_equal; now apply IH.
Qed.

Lemma all_strings_complete : forall s,
  (forall v c, String.get v s = Some c -> c = "0"%char \/ c = "1"%char) ->
  In s (all_strings (String.length s)).
Proof.
  induction s as [|c s IH]; intros H; simpl.
  - now left.
  - assert (Hs : In s (all_strings (String.length s))).
    { apply IH. intros v c' Hv. apply (H (S v)). exact Hv. }
    apply in_or_app.
    destruct (H 0%nat c eq_refl) as [->| ->];
      [left | right]; now apply in_map.
Qed.

Lemma NoDup_map_inj : forall {A B : Type} (f : A -> B) (l : list A),
  (forall a b, f a = f b -> a = b) -> NoDup l -> NoDup (map f l).
Proof.
  intros A B f l Hf ND. induction ND as [|a l Ha ND IH]; simpl.
  - constructor.
  - constructor; [|exact IH].
    intros I. apply in_map_iff in I. destruct I as (b & E & Ib).
    apply Hf in E. subst b. contradiction.
Qed.

Lemma all_strings_NoDup : forall n, NoDup (all_strings n).
Proof.
  induction n as [|n IH]; simpl.
  - repeat constructor. simpl. tauto.
  - apply NoDup_app.
    + apply NoDup_map_inj; [|exact IH].
      intros a b E. now inversion E.
    + apply NoDup_map_inj; [|exact IH].
      intros a b E. now inversion E.
    + intros s H0 H1. apply in_map_iff in H0, H1.
      destruct H0 as (t & <- & _). destruct H1 as (t' & E & _).
      discriminate.
Qed.

(** X8: The bit strings that ProjectQ is asked for are the [2^num] strings of
    [num] characters "0" or "1", each once. *)
Theorem all_strings_enumerates : forall num,
  length (all_strings num) = (2 ^ num)%nat /\
  NoDup (all_strings num) /\
  (forall s, In s (all_strings num) <->
     String.length s = num /\
     forall v c, String.get v s = Some c -> c = "0"%char \/ c = "1"%char).
Proof.
  intros num. split; [|split].
  - induction num as [|n IH]; simpl; [reflexivity|].
    rewrite length_app, !length_map, IH. lia.
  - apply all_strings_NoDup.
  - intros s. split.
    + intros H. split; [now apply all_strings_length|].
      revert s H. induction num as [|n IH]; intros s H v c G; simpl in H.
      * destruct H as [<-|[]]. destruct v; discriminate.
      * apply in_app_or in H.
        destruct H as [H|H]; apply in_map_iff in H;
          destruct H as (t & <- & Ht); destruct v as [|v]; simpl in G.
        -- inversion G. now left.
        -- eapply IH; eauto.
        -- inversion G. now right.
        -- eapply IH; eauto.
    + intros [<- H]. now apply all_strings_complete.
Qed.

(** *** Forest *)

Lemma bit_string_shape : forall active sample qubits d bs,
  bit_string active sample qubits d = Ok bs ->
  String.length bs = length qubits /\
  forall i q, nth_error qubits i = Some q -> is_active active q = false ->
              String.get i bs = Some "0"%char.
Proof.
  intros active sample qubits.
  induction qubits as [|q qs IH]; intros d bs H; simpl in H.
  - inversion H. split; [reflexivity|]. intros [|i] q; discriminate.
  - destruct (is_active active q) eqn:A.
    + destruct (index sample (q - d)) as [b|]; simpl in H; [|discriminate].
      destruct (bit_string active sample qs d) as [bits|] eqn:E;
        simpl in H; [|discriminate].
      inversion H; subst. destruct (IH d bits E) as [L G].
      split; [simpl; now rewrite L|].
      intros [|i] q' Hq Hd; simpl in *.
      * inversion Hq; subst. congruence.
      * eapply G; eauto.
    + destruct (bit_string active sample qs (S d)) as [bits|] eqn:E;
        simpl in H; [|discriminate].
      inversion H; subst. destruct (IH (S d) bits E) as [L G].
      split; [simpl; now rewrite L|].
      intros [|i] q' Hq Hd; simpl in *.
      * reflexivity.
      * eapply G; eauto.
Qed.

Lemma lookup_has_key : forall {V : Type} (d : list (string * V)) p,
  has_key d p = false -> exists e, lookup d p = Raise e.
Proof.
  intros V d p H. destruct (lookup d p) as [v|e] eqn:L; [|eauto].
  apply lookup_In, keys_In, has_key_In in L. congruence.
Qed.

(** What the loop over the samples keeps true of [resultsRaw]. *)
Lemma count_samples_keeps : forall num shots active samples acc res,
  count_samples num shots active samples acc = Ok res ->
  NoDup (keys acc) ->
  (forall s, In s (keys acc) ->
     String.length s = num /\
     forall v, (v < num)%nat -> is_active active v = false ->
               String.get v s = Some "0"%char) ->
  (forall e, In e acc -> 0 <= snd e) ->
  NoDup (keys res) /\
  (forall s, In s (keys res) ->
     String.length s = num /\
     forall v, (v < num)%nat -> is_active active v = false ->
               String.get v s = Some "0"%char) /\
  (forall e, In e res -> 0 <= snd e) /\
  Rsum (map snd res) = Rsum (map snd acc) + INR (length samples) / INR shots.
Proof.
  intros num shots active samples.
  induction samples as [|sample rest IH]; intros acc res H ND Hk Hv.
  - inversion H; subst. repeat split; auto; try apply Hk; auto.
    simpl. unfold Rdiv. rewrite Rmult_0_l. lra.
  - simpl in H.
    destruct (bit_string active sample (seq 0 num) 0) as [bs|] eqn:Eb;
      simpl in H; [|discriminate].
    set (acc1 := if has_key acc bs then acc else dict_set acc bs 0) in *.
    destruct (lookup acc1 bs) as [old|] eqn:Eo; simpl in H; [|discriminate].
    destruct shots as [|n]; [discriminate|]. cbn [div_len bind] in H.
    destruct (bit_string_shape active sample (seq 0 num) 0 bs Eb) as [Lb Gb].
    rewrite length_seq in Lb.
    assert (Hbs : forall v, (v < num)%nat -> is_active active v = false ->
                            String.get v bs = Some "0"%char).
    { intros v Hlt Hd. apply (Gb v v); [|exact Hd].
      rewrite nth_error_seq. apply Nat.ltb_lt in Hlt. now rewrite Hlt. }
    assert (S1 : Rsum (map snd acc1) = Rsum (map snd acc) /\ 0 <= old /\
                 NoDup (keys acc1) /\
                 (forall s, In s (keys acc1) -> s = bs \/ In s (keys acc)) /\
                 (forall e, In e acc1 -> 0 <= snd e)).
    { unfold acc1 in *. destruct (has_key acc bs) eqn:Hh.
      - split; [reflexivity|]. split.
        + apply lookup_In in Eo. apply (Hv (bs, old) Eo).
        + split; [exact ND|]. split; auto.
      - destruct (lookup_has_key acc bs Hh) as (e & Le).
        rewrite Rsum_dict_set, Le.
        rewrite lookup_dict_set_same in Eo. inversion Eo; subst old.
        split; [lra|]. split; [lra|].
        split; [now apply NoDup_keys_dict_set|]. split.
        + intros s Hs. now apply keys_dict_set in Hs.
        + intros e' He'.
          assert (Hn : ~ In bs (keys acc)).
          { intros I. apply has_key_In in I. congruence. }
          rewrite dict_set_new in He' by exact Hn.
          apply in_app_or in He'. destruct He' as [He'|[<-|[]]].
          * now apply Hv.
          * simpl. lra. }
    destruct S1 as (Sum1 & Hold & ND1 & Hk1 & Hv1).
    assert (Pos : 0 < / INR (S n)).
    { apply Rinv_0_lt_compat. apply lt_0_INR. lia. }
    apply IH in H.
    + destruct H as (A & B & C & D). repeat split; auto; try apply B; auto.
      rewrite D, Rsum_dict_set, Eo, Sum1.
      change (length (sample :: rest)) with (S (length rest)).
      rewrite (S_INR (length rest)). unfold Rdiv. ring.
    + now apply NoDup_keys_dict_set.
    + intros s Hs. apply keys_dict_set in Hs.
      assert (Hs' : s = bs \/ In s (keys acc)).
      { destruct Hs as [Hs|Hs]; [now left | now apply Hk1]. }
      destruct Hs' as [->|Hs']; [split; assumption | now apply Hk].
    + intros e He.
      destruct (String.eqb_spec (fst e) bs) as [Ee|Ne].
      * assert (L : lookup (dict_set acc1 bs (old + 1 / INR (S n))) (fst e)
                    = Ok (snd e)).
        { apply In_lookup; [now apply NoDup_keys_dict_set|].
          now destruct e. }
        rewrite Ee, lookup_dict_set_same in L.
        assert (E2 : snd e = old + 1 / INR (S n)) by congruence.
        rewrite E2. unfold Rdiv. lra.
      * assert (L : lookup (dict_set acc1 bs (old + 1 / INR (S n))) (fst e)
                    = Ok (snd e)).
        { apply In_lookup; [now apply NoDup_keys_dict_set|].
          now destruct e. }
        rewrite lookup_dict_set_other in L by congruence.
        apply lookup_In in L. apply (Hv1 _ L).
Qed.

(** X9: Forest: when the loop over the samples ends, [resultsRaw] is a dict
    of bit strings of [num] characters, with "0" for every dead qubit;
    its values are not negative and add up to the number of samples over
    [shots]. *)
Theorem count_samples_shape : forall num shots active samples resultsRaw,
  count_samples num shots active samples [] = Ok resultsRaw ->
  NoDup (keys resultsRaw) /\
  (forall s, In s (keys resultsRaw) ->
     String.length s = num /\
     forall v, (v < num)%nat -> is_active active v = false ->
               String.get v s = Some "0"%char) /\
  (forall e, In e resultsRaw -> 0 <= snd e) /\
  Rsum (map snd resultsRaw) = INR (length samples) / INR shots.
Proof.
  intros num shots active samples res H.
  destruct (count_samples_keeps num shots active samples [] res H)
    as (A & B & C & D).
  - constructor.
  - intros s [].
  - intros e [].
  - repeat split; auto; try apply B; auto.
    rewrite D. simpl. lra.
Qed.

Lemma two_samples_counted :
  count_samples 3 2 [0; 2]%nat two_samples []
    = Ok [("100"%string, 0 + 1 / INR 2); ("101"%string, 0 + 1 / INR 2)].
Proof. reflexivity. Qed.

Lemma count_samples_shape_witness :
  Rsum (map snd [("100"%string, 0 + 1 / INR 2); ("101"%string, 0 + 1 / INR 2)])
    = INR (length two_samples) / INR 2.
Proof.
  apply (count_samples_shape 3 2 [0; 2]%nat two_samples _ two_samples_counted).
Defined.

(** *** From [results] to [oneProb] *)

Lemma bit_is_one_share : forall s prob v one,
  bit_is_one s v = Ok one ->
  (if one then prob else 0) = share_at v (s, prob).
Proof.
  intros s prob v one H. unfold bit_is_one in H. unfold share_at. simpl.
  destruct (String.get v s) as [c|]; [|discriminate].
  inversion H. reflexivity.
Qed.

(** One bit string of at least [k + m] characters adds its share to each
    of the [m] entries from qubit [k] on; a shorter one raises. *)
Lemma add_string_spec : forall s prob m k op,
  length op = m ->
  ((k + m <= String.length s)%nat ->
     exists op', add_string s prob (seq k m) op = Ok op' /\
       length op' = m /\
       forall i, (i < m)%nat ->
         nth i op' 0 = nth i op 0 + share_at (k + i) (s, prob)) /\
  ((0 < m)%nat -> (String.length s < k + m)%nat ->
     add_string s prob (seq k m) op = Raise IndexError).
Proof.
  intros s prob. induction m as [|m IH]; intros k op Hl.
  - split; [|lia]. intros _. exists []. simpl. repeat split. intros i Hi. lia.
  - destruct op as [|pv op]; [discriminate|]. simpl in Hl.
    injection Hl as Hl. destruct (IH (S k) op Hl) as [IHok IHbad].
    simpl. unfold bit_is_one. split.
    + intros Hlen.
      destruct (String.get k s) as [c|] eqn:G.
      * simpl. destruct IHok as (op' & E & L & N); [lia|].
        rewrite E. simpl. eexists. split; [reflexivity|].
        split; [simpl; now rewrite L|].
        intros [|i] Hi; simpl.
        -- rewrite Nat.add_0_r. unfold share_at. simpl. rewrite G.
           destruct (Ascii.eqb c "1"); lra.
        -- rewrite N by lia. now rewrite Nat.add_succ_r.
      * apply get_None in G. lia.
    + intros _ Hlen.
      destruct (String.get k s) as [c|] eqn:G; [|reflexivity].
      assert (Hk : (k < String.length s)%nat).
      { destruct (Nat.lt_ge_cases k (String.length s)) as [L|L]; [exact L|].
        apply get_None in L. congruence. }
      simpl. rewrite IHbad by lia. reflexivity.
Qed.

Lemma oneProb_of_from : forall n results op oneProb,
  length op = n ->
  oneProb_of n results op = Ok oneProb ->
  length oneProb = n /\
  (forall s, In s (keys results) -> (n <= String.length s)%nat) /\
  forall v, (v < n)%nat -> nth v oneProb 0 = nth v op 0 + ones_at v results.
Proof.
  intros n results. induction results as [|[s prob] rest IH];
    intros op oneProb Hl H; simpl in H.
  - inversion H; subst. split; [reflexivity|]. split; [intros s []|].
    intros v _. unfold ones_at. simpl. lra.
  - destruct (add_string_spec s prob n 0 op Hl) as [Hok Hbad].
    destruct (Nat.le_gt_cases n (String.length s)) as [Hlen|Hlen].
    + destruct Hok as (op' & E & L & N); [lia|].
      rewrite E in H. simpl in H.
      destruct (IH op' oneProb L H) as (A & B & C).
      split; [exact A|]. split.
      * intros t [<-|Ht]; [exact Hlen | now apply B].
      * intros v Hv. rewrite C, N by exact Hv.
        unfold ones_at. simpl. lra.
    + rewrite Hbad in H by lia. discriminate.
Qed.

Lemma oneProb_of_runs : forall n results op,
  length op = n ->
  (forall s, In s (keys results) -> (n <= String.length s)%nat) ->
  exists oneProb, oneProb_of n results op = Ok oneProb.
Proof.
  intros n results. induction results as [|[s prob] rest IH];
    intros op Hl Hs; simpl.
  - eauto.
  - destruct (add_string_spec s prob n 0 op Hl) as [Hok _].
    destruct Hok as (op' & E & L & _).
    { simpl. apply Hs. now left. }
    rewrite E. simpl. apply IH; [exact L|].
    intros t Ht. apply Hs. now right.
Qed.

Lemma nth_repeat_0 : forall n v, nth v (repeat 0 n) 0 = 0.
Proof.
  induction n as [|n IH]; intros [|v]; simpl; auto.
Qed.

(** X10: [oneProb] is computed exactly when every bit string has a character
    for each of the [num] qubits (a shorter one raises [IndexError]);
    it has [num] entries, entry [v] being the total frequency of the bit
    strings with "1" for qubit [v]. *)
Theorem oneProb_of_sums : forall n results,
  ((exists oneProb, oneProb_of n results (repeat 0 n) = Ok oneProb) <->
   (forall s, In s (keys results) -> (n <= String.length s)%nat)) /\
  (forall oneProb, oneProb_of n results (repeat 0 n) = Ok oneProb ->
     length oneProb = n /\
     forall v, (v < n)%nat -> nth v oneProb 0 = ones_at v results).
Proof.
  intros n results. split; [split|].
  - intros [oneProb H].
    now apply (oneProb_of_from n results (repeat 0 n) oneProb
                 (repeat_length 0 n) H).
  - intros H. apply oneProb_of_runs; [apply repeat_length | exact H].
  - intros oneProb H.
    destruct (oneProb_of_from n results (repeat 0 n) oneProb
                (repeat_length 0 n) H) as (A & _ & C).
    split; [exact A|]. intros v Hv. rewrite C by exact Hv.
    rewrite nth_repeat_0. lra.
Qed.

Lemma share_at_bounds : forall v e, 0 <= snd e -> 0 <= share_at v e <= snd e.
Proof.
  intros v [s prob] H. unfold share_at. simpl in *.
  destruct (String.get v s) as [c|]; [|lra].
  destruct (Ascii.eqb c "1"); lra.
Qed.

Lemma ones_at_bounds : forall v results,
  (forall e, In e results -> 0 <= snd e) ->
  0 <= ones_at v results <= Rsum (map snd results).
Proof.
  intros v results. unfold ones_at.
  induction results as [|e rest IH]; intros H; simpl.
  - lra.
  - pose proof (share_at_bounds v e (H e (or_introl eq_refl))).
    assert (0 <= Rsum (map (share_at v) rest) <= Rsum (map snd rest)).
    { apply IH. intros e' He'. apply H. now right. }
    lra.
Qed.

(** X11: From frequencies that are not negative and add up to 1, every entry
    of [oneProb] is a probability. *)
Theorem oneProb_of_probabilities : forall n results oneProb,
  (forall e, In e results -> 0 <= snd e) ->
  Rsum (map snd results) = 1 ->
  oneProb_of n results (repeat 0 n) = Ok oneProb ->
  forall p, In p oneProb -> 0 <= p <= 1.
Proof.
  intros n results oneProb Hpos Hsum H p Hp.
  destruct (oneProb_of_from n results (repeat 0 n) oneProb
              (repeat_length 0 n) H) as (A & _ & C).
  destruct (In_nth oneProb p 0 Hp) as (v & Hv & <-).
  rewrite C by lia. rewrite nth_repeat_0.
  pose proof (ones_at_bounds v results Hpos). lra.
Qed.

Lemma oneProb_of_probabilities_witness :
  oneProb_of 2 [("01"%string, 1 / 2); ("10"%string, 1 / 2)] (repeat 0 2)
    = Ok [0 + 1 / 2; 0 + 1 / 2] /\
  0 <= 0 + 1 / 2 <= 1.
Proof.
  split; [reflexivity|].
  apply (oneProb_of_probabilities 2
           [("01"%string, 1 / 2); ("10"%string, 1 / 2)]
           [0 + 1 / 2; 0 + 1 / 2]).
  - intros e [<-|[<-|[]]]; simpl; lra.
  - simpl. lra.
  - reflexivity.
  - now left.
Defined.

(** X12: Forest: a dead qubit is never measured as 1, its entry of
    [oneProb] is 0; no entry of [oneProb] is negative. *)
Theorem Forest_oneProb : forall num shots active samples resultsRaw oneProb,
  count_samples num shots active samples [] = Ok resultsRaw ->
  oneProb_of num resultsRaw (repeat 0 num) = Ok oneProb ->
  (forall v, (v < num)%nat -> is_active active v = false ->
             nth v oneProb 0 = 0) /\
  (forall p, In p oneProb -> 0 <= p).
Proof.
  intros num shots active samples res oneProb Hc Ho.
  destruct (count_samples_keeps num shots active samples [] res Hc)
    as (ND & Hk & Hv & Hs).
  { constructor. }
  { intros s []. }
  { intros e []. }
  destruct (oneProb_of_from num res (repeat 0 num) oneProb
              (repeat_length 0 num) Ho) as (A & _ & C).
  split.
  - intros v Hlt Hd. rewrite C by exact Hlt. rewrite nth_repeat_0.
    assert (Z : ones_at v res = 0).
    { unfold ones_at. clear - Hk Hlt Hd.
      induction res as [|[s prob] rest IH]; simpl; [reflexivity|].
      rewrite IH.
      - destruct (Hk s (or_introl eq_refl)) as [_ G].
        unfold share_at. simpl. rewrite (G v Hlt Hd). simpl. lra.
      - intros t Ht. apply Hk. now right. }
    lra.
  - intros p Hp.
    destruct (In_nth oneProb p 0 Hp) as (v & Hv' & <-).
    rewrite C by lia. rewrite nth_repeat_0.
    pose proof (ones_at_bounds v res Hv) as B. lra.
Qed.

Lemma Forest_oneProb_witness :
  nth 1 [0 + (0 + 1 / INR 2) + (0 + 1 / INR 2); 0; 0 + (0 + 1 / INR 2)] 0
    = 0.
Proof.
  refine (proj1 (Forest_oneProb 3 2 [0; 2]%nat two_samples _ _
                   two_samples_counted _) 1%nat _ _).
  - reflexivity.
  - lia.
  - reflexivity.
Defined.

End ReadoutFacts.
(** ** More on the matching engine *)

Module MatchingMore.

Import Transform Matching Vocabulary TransformFacts MatchingFacts.
Local Open Scope R_scope.

Lemma make_edges_runs : forall (weight : list (string * R)) pairs,
  (forall p, In p (keys pairs) -> In p (keys weight)) ->
  exists es, make_edges weight pairs = Ok es.
Proof.
  intros weight. induction pairs as [|[p ab] pairs IH]; intros H; simpl.
  - eauto.
  - destruct (lookup_keys weight p) as (w & Lw).
    { apply H. now left. }
    rewrite Lw. simpl.
    destruct IH as (es & E).
    { intros q Hq. apply H. now right. }
    rewrite E. simpl. eauto.
Qed.

Lemma weights_keys : forall oneProb draws pairs k weight,
  weights oneProb draws k pairs = Ok weight -> keys weight = keys pairs.
Proof.
  intros oneProb draws. induction pairs as [|[p ab] pairs IH];
    intros k weight H; simpl in H.
  - inversion H. reflexivity.
  - destruct (pair_weight oneProb (draws k) ab) as [w|]; simpl in H;
      [|discriminate].
    destruct (weights oneProb draws (S k) pairs) as [ws|] eqn:E; simpl in H;
      [|discriminate].
    inversion H. simpl. f_equal. eapply IH; eauto.
Qed.

Lemma pair_weight_defined : forall oneProb randint ab,
  oneProb <> [] ->
  ((exists w, pair_weight oneProb randint ab = Ok w) <-> measured oneProb ab).
Proof.
  intros oneProb randint [a b] Hne. unfold pair_weight, measured, index.
  destruct oneProb as [|p0 rest]; [contradiction|].
  set (oneProb := p0 :: rest). simpl fst. simpl snd. split.
  - intros [w H].
    destruct (nth_error oneProb a) as [pa|]; simpl in H; [|discriminate].
    destruct (calculateFrac pa) as [fa|] eqn:Fa; simpl in H; [|discriminate].
    destruct (nth_error oneProb b) as [pb|]; simpl in H; [|discriminate].
    destruct (calculateFrac pb) as [fb|] eqn:Fb; simpl in H; [|discriminate].
    exists pa, pb. repeat split; auto.
    + destruct (Rlt_le_dec pa 0) as [N|P]; [|exact P].
      rewrite calculateFrac_negative in Fa by exact N. discriminate.
    + destruct (Rlt_le_dec 1 pa) as [N|P]; [|exact P].
      rewrite calculateFrac_above_one in Fa by exact N. discriminate.
    + destruct (Rlt_le_dec pb 0) as [N|P]; [|exact P].
      rewrite calculateFrac_negative in Fb by exact N. discriminate.
    + destruct (Rlt_le_dec 1 pb) as [N|P]; [|exact P].
      rewrite calculateFrac_above_one in Fb by exact N. discriminate.
  - intros (pa & pb & Ea & Eb & Ha & Hb). rewrite Ea. simpl.
    rewrite calculateFrac_in_domain by exact Ha. simpl.
    rewrite Eb. simpl. rewrite calculateFrac_in_domain by exact Hb. simpl.
    eauto.
Qed.

Lemma weights_defined : forall oneProb draws pairs k,
  oneProb <> [] ->
  ((exists weight, weights oneProb draws k pairs = Ok weight) <->
   (forall p ab, In (p, ab) pairs -> measured oneProb ab)).
Proof.
  intros oneProb draws pairs k Hne. revert k.
  induction pairs as [|[p ab] pairs IH]; intros k; simpl.
  - split; [intros _ q cd [] | eauto].
  - split.
    + intros [weight H].
      destruct (pair_weight oneProb (draws k) ab) as [w|] eqn:Ew;
        simpl in H; [|discriminate].
      destruct (weights oneProb draws (S k) pairs) as [ws|] eqn:E;
        simpl in H; [|discriminate].
      intros q cd [Hq|Hq].
      * inversion Hq; subst.
        apply (pair_weight_defined oneProb (draws k) cd Hne). eauto.
      * apply (proj1 (IH (S k))) with (p := q); eauto.
    + intros H.
      destruct (proj2 (pair_weight_defined oneProb (draws k) ab Hne))
        as (w & Ew).
      { apply (H p). now left. }
      rewrite Ew. simpl.
      destruct (proj2 (IH (S k))) as (ws & E).
      { intros q cd Hq. apply (H q). now right. }
      rewrite E. simpl. eauto.
Qed.

Lemma weights_random : forall draws pairs k,
  exists weight, weights [] draws k pairs = Ok weight.
Proof.
  intros draws. induction pairs as [|[p ab] pairs IH]; intros k; simpl.
  - eauto.
  - destruct (IH (S k)) as (ws & E). rewrite E. simpl. eauto.
Qed.

Lemma getEdges_of_weights : forall pairs oneProb draws,
  (exists es, getEdges pairs oneProb draws = Ok es) <->
  (exists weight, weights oneProb draws 0 pairs = Ok weight).
Proof.
  intros pairs oneProb draws. unfold getEdges. split.
  - intros [es H].
    destruct (weights oneProb draws 0 pairs) as [w|]; [eauto | discriminate].
  - intros [w E]. rewrite E. simpl. apply make_edges_runs.
    intros p Hp. now rewrite (weights_keys _ _ _ _ _ E).
Qed.

Lemma names_of_match_empty : forall mate vs, names_of_match [] mate vs = [].
Proof.
  intros mate. induction vs as [|v vs IH]; simpl; auto.
Qed.

(** X13: [getDisjointPairs] with random weights never raises.  With the
    weights taken from a non-empty [oneProb] it raises nothing when both
    qubits of every pair index entries of [oneProb] that are in [0, 1];
    and it raises when a qubit of some pair indexes no entry of [oneProb]
    or a negative one: when it returns, both qubits of every pair index
    entries that are not negative.  For a layout without pairs it returns
    the empty list.  All this whatever the matcher returns. *)
Theorem getDisjointPairs_defined : forall mw pairs oneProb draws,
  (exists L, getDisjointPairs mw pairs [] draws = Ok L) /\
  (oneProb <> [] ->
     ((forall p ab, In (p, ab) pairs -> measured oneProb ab) ->
      exists L, getDisjointPairs mw pairs oneProb draws = Ok L) /\
     ((exists L, getDisjointPairs mw pairs oneProb draws = Ok L) ->
      forall p ab, In (p, ab) pairs -> not_negative oneProb ab)) /\
  getDisjointPairs mw [] oneProb draws = Ok [].
Proof.
  intros mw pairs oneProb draws.
  assert (G : forall op,
            (exists L, getDisjointPairs mw pairs op draws = Ok L) <->
            (exists es, getEdges pairs op draws = Ok es)).
  { intros op. unfold getDisjointPairs. split.
    - intros [L H].
      destruct (getEdges pairs op draws) as [es|]; [eauto | discriminate].
    - intros [es E]. rewrite E. simpl. eauto. }
  split; [|split].
  - apply G, getEdges_of_weights, weights_random.
  - intros Hne. split.
    + intros H. apply G, getEdges_of_weights.
      now apply (weights_defined oneProb draws pairs 0 Hne).
    + intros H p ab Hp. apply G, getEdges_of_weights in H.
      pose proof (proj1 (weights_defined oneProb draws pairs 0 Hne) H) as M.
      destruct (M p ab Hp) as (pa & pb & Ea & Eb & Ha & Hb).
      exists pa, pb. repeat split; auto; lra.
  - unfold getDisjointPairs, getEdges. simpl.
    unfold matchingPairs_of. now rewrite names_of_match_empty.
Qed.

Lemma getDisjointPairs_defined_witness :
  exists L, getDisjointPairs (fun _ => [1; 0]%Z) single_layout [1 / 2; 1 / 4]
              draws50 = Ok L.
Proof.
  refine (proj1 (proj1 (proj2 (getDisjointPairs_defined
            (fun _ => [1; 0]%Z) single_layout [1 / 2; 1 / 4] draws50)) _) _).
  - discriminate.
  - intros p ab [E|[]]. inversion E; subst.
    exists (1 / 2), (1 / 4). simpl. repeat split; lra.
Defined.

Lemma disagreement_unit : forall f1 f2,
  0 <= f1 <= 1 -> 0 <= f2 <= 1 ->
  0 <= calculateFracDifference f1 f2 <= 1 / 2.
Proof.
  intros f1 f2 H1 H2. unfold calculateFracDifference.
  rewrite max_minus_min. unfold Rabs, Rmin.
  destruct (Rcase_abs (f1 - f2)); destruct (Rle_dec _ _); lra.
Qed.

Lemma pair_weight_bounds : forall oneProb randint ab w,
  oneProb <> [] -> pair_weight oneProb randint ab = Ok w ->
  - (1 / 2) <= w <= 0.
Proof.
  intros oneProb randint [a b] w Hne H. unfold pair_weight in H.
  destruct oneProb as [|p0 rest]; [contradiction|].
  destruct (index (p0 :: rest) (fst (a, b))) as [pa|]; simpl in H;
    [|discriminate].
  destruct (calculateFrac pa) as [fa|] eqn:Fa; simpl in H; [|discriminate].
  destruct (index (p0 :: rest) b) as [pb|]; simpl in H; [|discriminate].
  destruct (calculateFrac pb) as [fb|] eqn:Fb; simpl in H; [|discriminate].
  inversion H; subst.
  assert (Ra : 0 <= fa <= 1).
  { apply TransformMore.calculateFrac_Ok_inv in Fa. destruct Fa as [Pa ->].
    now apply frac_value_range. }
  assert (Rb : 0 <= fb <= 1).
  { apply TransformMore.calculateFrac_Ok_inv in Fb. destruct Fb as [Pb ->].
    now apply frac_value_range. }
  pose proof (disagreement_unit fa fb Ra Rb). lra.
Qed.

Lemma weights_bounds : forall oneProb draws pairs k weight,
  oneProb <> [] -> weights oneProb draws k pairs = Ok weight ->
  forall e, In e weight -> - (1 / 2) <= snd e <= 0.
Proof.
  intros oneProb draws. induction pairs as [|[p ab] pairs IH];
    intros k weight Hne H e He; simpl in H.
  - inversion H; subst. contradiction.
  - destruct (pair_weight oneProb (draws k) ab) as [w|] eqn:Ew;
      simpl in H; [|discriminate].
    destruct (weights oneProb draws (S k) pairs) as [ws|] eqn:E;
      simpl in H; [|discriminate].
    inversion H; subst. destruct He as [<-|He].
    + simpl. eapply pair_weight_bounds; eauto.
    + eapply IH; eauto.
Qed.

Lemma make_edges_weights : forall weight pairs es,
  make_edges weight pairs = Ok es ->
  forall e, In e es -> exists p, In (p, edge_w e) weight.
Proof.
  intros weight. induction pairs as [|[p ab] pairs IH]; intros es H e He;
    simpl in H.
  - inversion H; subst. contradiction.
  - destruct (lookup weight p) as [w|] eqn:Lw; simpl in H; [|discriminate].
    destruct (make_edges weight pairs) as [es'|] eqn:E; simpl in H;
      [|discriminate].
    inversion H; subst. destruct He as [<-|He].
    + exists p. apply lookup_In in Lw. exact Lw.
    + eapply IH; eauto.
Qed.

(** X14: With the weights taken from a non-empty [oneProb], every edge handed
    to the matcher has a weight between -1/2 and 0: the matcher prefers
    the pairs whose fractions agree. *)
Theorem getEdges_weights : forall pairs oneProb draws edges e,
  oneProb <> [] ->
  getEdges pairs oneProb draws = Ok edges ->
  In e edges -> - (1 / 2) <= edge_w e <= 0.
Proof.
  intros pairs oneProb draws edges e Hne H He. unfold getEdges in H.
  destruct (weights oneProb draws 0 pairs) as [weight|] eqn:Ew;
    simpl in H; [|discriminate].
  destruct (make_edges_weights weight pairs edges H e He) as (p & Hp).
  apply (weights_bounds oneProb draws pairs 0 weight Hne Ew (p, edge_w e) Hp).
Qed.

Lemma getEdges_weights_witness :
  - (1 / 2) <= edge_w (0%nat, 1%nat, - (1 / 2)) <= 0.
Proof.
  apply (getEdges_weights fake_layout fake_oneProb draws50 fake_edges).
  - discriminate.
  - exact fake_edges_eq.
  - now left.
Defined.

End MatchingMore.
(** ** More on the round engine *)

Module RoundEngineMore.

Import Transform Matching RoundEngine Vocabulary.
Import TransformFacts MatchingFacts RoundEngineFacts ReadoutFacts.
Local Open Scope R_scope.

(** *** The gate records *)

Lemma dict_set_entries : forall (d : list (string * R)) q v p f,
  In (p, f) (dict_set d q v) -> In (p, f) d \/ (p = q /\ f = v).
Proof.
  induction d as [|[r w] d IH]; intros q v p f H; simpl in H.
  - destruct H as [E|[]]. inversion E. now right.
  - destruct (String.eqb r q) eqn:E.
    + destruct H as [H|H].
      * inversion H; subst. apply String.eqb_eq in E. now right.
      * left. now right.
    + destruct H as [H|H].
      * left. now left.
      * destruct (IH _ _ _ _ H) as [H'|H']; [left; now right | now right].
Qed.

Lemma apply_gates_entries : forall fracs ps k acc p f,
  (forall i, 0 <= fracs i < 1) ->
  In (p, f) (apply_gates fracs k ps acc) ->
  In (p, f) acc \/ (In p ps /\ 0 <= f < 1 / 2).
Proof.
  intros fracs. induction ps as [|q ps IH]; intros k acc p f Hf H; simpl in H.
  - now left.
  - apply IH in H; [|exact Hf]. destruct H as [H|[H B]].
    + apply dict_set_entries in H. destruct H as [H|[-> ->]]; [now left|].
      right. split; [now left|]. pose proof (Hf k). lra.
    + right. split; [now right | exact B].
Qed.

Lemma guess_gates_entries : forall pairs oneProb ps acc g p f,
  guess_gates pairs oneProb ps acc = Ok g ->
  In (p, f) g ->
  In (p, f) acc \/ (In p ps /\ In p (keys pairs) /\ - 1 <= f <= 0).
Proof.
  intros pairs oneProb. induction ps as [|q ps IH]; intros acc g p f H Hin;
    simpl in H.
  - inversion H; subst. now left.
  - destruct (lookup pairs q) as [[a b]|] eqn:L; simpl in H; [|discriminate].
    destruct (index oneProb a) as [pa|]; simpl in H; [|discriminate].
    destruct (index oneProb b) as [pb|]; simpl in H; [|discriminate].
    destruct (calculateFrac (0 + pa / 2 + pb / 2)) as [gf|] eqn:F;
      simpl in H; [|discriminate].
    destruct (IH _ _ _ _ H Hin) as [I|(I & K & B)].
    + apply dict_set_entries in I. destruct I as [I|[-> ->]]; [now left|].
      right. split; [now left|]. split.
      * apply lookup_In in L. eapply keys_In; eauto.
      * apply TransformMore.calculateFrac_Ok_inv in F.
        destruct F as [Hp ->].
        pose proof (frac_value_range _ Hp). lra.
    + right. split; [now right | auto].
Qed.

(** X15: The fractions of the gates of a puzzle are in [0, 1/2), a quarter
    turn at most, when [random.random()] draws from [0, 1); the fractions
    of the guessed gates are in [-1, 0].  Both dicts name pairs of the
    list they are built from only. *)
Theorem gate_fractions :
  (forall fracs ps p f,
     (forall i, 0 <= fracs i < 1) ->
     In (p, f) (apply_gates fracs 0 ps []) ->
     In p ps /\ 0 <= f < 1 / 2) /\
  (forall pairs oneProb ps g p f,
     guess_gates pairs oneProb ps [] = Ok g ->
     In (p, f) g ->
     In p ps /\ In p (keys pairs) /\ - 1 <= f <= 0).
Proof.
  split.
  - intros fracs ps p f Hf H.
    destruct (apply_gates_entries fracs ps 0 [] p f Hf H) as [[]|B].
    exact B.
  - intros pairs oneProb ps g p f H Hin.
    destruct (guess_gates_entries pairs oneProb ps [] g p f H Hin) as [[]|B].
    exact B.
Qed.

Lemma gate_fractions_witness :
  In "A"%string ["A"%string] /\ 0 <= 1 / 2 / 2 < 1 / 2.
Proof.
  apply (proj1 gate_fractions (fun _ => 1 / 2) ["A"%string]).
  - intros i. lra.
  - now left.
Defined.

(** *** The circuit of [entangle] *)

Lemma conjugation_runs :
  forall l (cs : list ConjugateRecord) r (c : ConjugateRecord) turn ns,
  nth_error cs r = Some c -> length c = num l ->
  (forall n, In n ns -> (n < num l)%nat) ->
  exists ops, conjugation l cs r turn ns = Ok ops.
Proof.
  intros l cs r c turn ns Hc Hl. induction ns as [|n ns IH];
    intros Hn; cbn [conjugation].
  - eauto.
  - unfold index. rewrite Hc. cbn [bind].
    assert (Ln : (n < num l)%nat) by (apply Hn; now left).
    destruct (nth_error c n) as [[axis frac]|] eqn:E.
    + cbn [bind]. unfold qubit.
      apply Nat.ltb_lt in Ln. rewrite Ln. cbn [bind].
      destruct IH as (ops & Eo).
      { intros m Hm. apply Hn. now right. }
      unfold index in Eo. rewrite Eo. cbn [bind]. eauto.
    + apply nth_error_None in E. lia.
Qed.

Lemma entangling_runs : forall l frac_of ps,
  in_register l ->
  (forall p, In p ps ->
     In p (keys (pairs l)) /\ exists f, frac_of p = Ok f) ->
  exists ops, entangling l frac_of ps = Ok ops.
Proof.
  intros l frac_of ps Hreg. induction ps as [|p ps IH]; intros H; simpl.
  - eauto.
  - destruct (H p (or_introl eq_refl)) as (Hk & f & Ef).
    destruct (lookup_keys (pairs l) p Hk) as ([a b] & L).
    rewrite L. simpl.
    destruct (Hreg p a b (lookup_In _ _ _ L)) as [Ha Hb].
    unfold qubit. apply Nat.ltb_lt in Ha, Hb. rewrite Ha, Hb. simpl.
    rewrite Ef. simpl.
    destruct IH as (ops & Eo).
    { intros q Hq. apply H. now right. }
    rewrite Eo. simpl. eauto.
Qed.

Section Circuit.

Variable l : Layout.
Variable gates : list GateRecord.
Variable conjugates : list ConjugateRecord.
Hypothesis register : in_register l.
Hypothesis rotations : forall c, In c conjugates -> length c = num l.
Hypothesis names :
  forall g p, In g gates -> In p (keys g) -> In p (keys (pairs l)).

Lemma past_round_runs : forall r,
  (r < length conjugates)%nat -> (2 * r + 1 < length gates)%nat ->
  exists ops, past_round l gates conjugates r = Ok ops.
Proof.
  intros r Hc Hg. unfold past_round.
  destruct (nth_error conjugates r) as [c|] eqn:Ec;
    [|apply nth_error_None in Ec; lia].
  assert (Lc : length c = num l).
  { apply rotations. eapply nth_error_In; eauto. }
  assert (Hseq : forall n, In n (seq 0 (num l)) -> (n < num l)%nat).
  { intros n Hn. apply in_seq in Hn. lia. }
  destruct (conjugation_runs l conjugates r c Ropp _ Ec Lc Hseq) as (inv & Ei).
  rewrite Ei. cbn [bind].
  destruct (nth_error gates (2 * r)) as [gc|] eqn:Egc;
    [|apply nth_error_None in Egc; lia].
  destruct (nth_error gates (2 * r + 1)) as [gr|] eqn:Egr;
    [|apply nth_error_None in Egr; lia].
  unfold index. rewrite Egc. cbn [bind]. rewrite Egr. cbn [bind].
  assert (Ic : In gc gates) by (eapply nth_error_In; eauto).
  assert (Ir : In gr gates) by (eapply nth_error_In; eauto).
  destruct (entangling_runs l
              (fun p => c1 <- lookup gc p ;; c2 <- lookup gr p ;; Ok (c1 + c2))
              (filter (has_key gr) (keys gc)) register) as (both & Eb).
  { intros p Hp. apply filter_In in Hp. destruct Hp as [Hp Hh].
    split; [now apply (names gc)|].
    destruct (lookup_keys gc p Hp) as (c1 & L1).
    destruct (lookup_keys gr p (proj1 (has_key_In gr p) Hh)) as (c2 & L2).
    rewrite L1, L2. cbn [bind]. eauto. }
  rewrite Eb. cbn [bind].
  destruct (entangling_runs l (lookup gc)
              (filter (fun p => negb (has_key gr p)) (keys gc)) register)
    as (create & Ecr).
  { intros p Hp. apply filter_In in Hp. destruct Hp as [Hp _].
    split; [now apply (names gc) | now apply lookup_keys]. }
  rewrite Ecr. cbn [bind].
  destruct (entangling_runs l (lookup gr)
              (filter (fun p => negb (has_key gc p)) (keys gr)) register)
    as (remove & Erm).
  { intros p Hp. apply filter_In in Hp. destruct Hp as [Hp _].
    split; [now apply (names gr) | now apply lookup_keys]. }
  rewrite Erm. cbn [bind].
  destruct (conjugation_runs l conjugates r c (fun frac => frac) _ Ec Lc Hseq)
    as (fwd & Ef).
  rewrite Ef. cbn [bind]. eauto.
Qed.

Lemma past_rounds_runs : forall rs,
  (forall r, In r rs ->
     (r < length conjugates)%nat /\ (2 * r + 1 < length gates)%nat) ->
  exists ops, past_rounds l gates conjugates rs = Ok ops.
Proof.
  induction rs as [|r rs IH]; intros H; simpl.
  - eauto.
  - destruct (H r (or_introl eq_refl)) as [Hc Hg].
    destruct (past_round_runs r Hc Hg) as (ops & E). rewrite E. cbn [bind].
    destruct IH as (rest & Er).
    { intros r' Hr'. apply H. now right. }
    rewrite Er. cbn [bind]. eauto.
Qed.

(** With two gate records and one conjugation for each past round, and
    the record of the current round, the circuit is built. *)
Lemma circuit_runs : forall r,
  length gates = (2 * r + 1)%nat -> (r <= length conjugates)%nat ->
  exists ops, circuit l gates conjugates = Ok ops.
Proof.
  intros r Hg Hc. unfold circuit, entangle_rounds. rewrite Hg.
  replace ((2 * r + 1 + 1) / 2)%nat with (S r).
  2:{ replace (2 * r + 1 + 1)%nat with (S r * 2)%nat by lia.
      now rewrite Nat.div_mul by lia. }
  replace (S r - 1)%nat with r by lia.
  destruct (past_rounds_runs (seq 0 r)) as (past & Ep).
  { intros r' Hr'. apply in_seq in Hr'. lia. }
  rewrite Ep. cbn [bind].
  destruct (nth_error gates (2 * r)) as [g|] eqn:Eg;
    [|apply nth_error_None in Eg; lia].
  unfold index. rewrite Eg. cbn [bind].
  destruct (entangling_runs l (lookup g) (keys g) register) as (now_ops & En).
  { intros p Hp. split; [|now apply lookup_keys].
    apply (names g); [eapply nth_error_In; eauto | exact Hp]. }
  rewrite En. cbn [bind]. eauto.
Qed.

End Circuit.

Lemma apply_gates_keys : forall fracs ps k acc p,
  In p (keys (apply_gates fracs k ps acc)) -> In p (keys acc) \/ In p ps.
Proof.
  intros fracs. induction ps as [|q ps IH]; intros k acc p H; simpl in H.
  - now left.
  - apply IH in H. destruct H as [H|H]; [|right; now right].
    apply keys_dict_set in H. destruct H as [->|H]; [right; now left|now left].
Qed.

Lemma getDisjointPairs_names : forall mw pairs oneProb draws L p,
  getDisjointPairs mw pairs oneProb draws = Ok L -> In p L ->
  In p (keys pairs).
Proof.
  intros mw pairs oneProb draws L p H Hp. unfold getDisjointPairs in H.
  destruct (getEdges pairs oneProb draws) as [es|]; simpl in H;
    [|discriminate].
  inversion H; subst. rewrite matchingPairs_of_filter in Hp.
  apply filter_In in Hp. destruct Hp as [Hp _].
  apply In_matched_names in Hp. destruct Hp as (a & b & Hab & _).
  eapply keys_In; eauto.
Qed.

Section History.

Variable maxWeightMatching : list Edge -> list Z.
Variable layout : Layout.
Variable move : string.
Variable maxScore : nat.
Variable recording : Recording.
Variable world : nat -> RoundWorld.

Local Abbreviation step1 :=
  (step maxWeightMatching layout move maxScore true recording world).
Local Abbreviation reachable1 :=
  (reachable maxWeightMatching layout move maxScore true recording world).

Lemma history_step : forall c c',
  step1 c = Ok c' -> history_ok layout (snd c) -> history_ok layout (snd c').
Proof.
  intros [ph st] c' H [Hc Hg]. unfold step in H.
  destruct ph as [|oneProb matchingPairs|gameOn|].
  - unfold get_puzzle in H. bind_inv H. bind_inv H.
    inversion H; subst; clear H. split; simpl.
    + exact Hc.
    + intros g p Ig Ip. apply in_app_or in Ig. destruct Ig as [Ig|[<-|[]]].
      * eapply Hg; eauto.
      * apply apply_gates_keys in Ip. destruct Ip as [[]|Ip].
        eapply getDisjointPairs_names; eauto.
  - unfold score_round in H. bind_inv H.
    destruct a as [guessedPairs restart'].
    bind_inv H. bind_inv H. bind_inv H.
    inversion H; subst; clear H. split; simpl.
    + intros c Ic. apply in_app_or in Ic. destruct Ic as [Ic|[<-|[]]].
      * now apply Hc.
      * unfold new_conjugates. now rewrite length_map, length_seq.
    + intros g p Ig Ip. apply in_app_or in Ig. destruct Ig as [Ig|[<-|[]]].
      * eapply Hg; eauto.
      * apply In_keys in Ip. destruct Ip as (f & Ip).
        destruct (guess_gates_entries _ _ _ _ _ _ _ E1 Ip) as [[]|(_ & K & _)].
        exact K.
  - inversion H; subst; clear H. split; assumption.
  - inversion H; subst; clear H. split; assumption.
Qed.

Lemma history_reachable : forall c,
  reachable1 c -> history_ok layout (snd c).
Proof.
  intros c H. induction H as [|c c' _ IH Hs].
  - split; simpl.
    + intros c [].
    + intros g p [].
  - eapply history_step; eauto.
Qed.

End History.

(** X16: In a game on new data, on a layout whose pairs join qubits of the
    register, [entangle] builds its circuit in every round: no gate
    record, conjugation, pair or qubit it asks for is missing.  (It can
    still raise what the backend raises.) *)
Theorem entangle_circuit_defined :
  forall mw layout move maxScore recording world st matchingPairs,
    in_register layout ->
    reachable mw layout move maxScore true recording world
              (AwaitingPuzzle, st) ->
    getDisjointPairs mw (pairs layout) []
      (puzzle_draws (world (S (score st)))) = Ok matchingPairs ->
    exists ops,
      circuit layout
        (gates st ++
         [apply_gates (puzzle_fracs (world (S (score st)))) 0
                      matchingPairs []])
        (conjugates st) = Ok ops.
Proof.
  intros mw layout move maxScore recording world st matchingPairs
         Hreg Hr Hm.
  pose proof (history_reachable mw layout move maxScore recording world
                _ Hr) as [Hc Hg].
  assert (Hl : fresh_lengths (AwaitingPuzzle, st)).
  { assert (G : forall c,
       reachable mw layout move maxScore true recording world c ->
       fresh_lengths c).
    { intros c R. induction R as [|c c' _ IH Hs].
      - unfold fresh_lengths. simpl. auto.
      - eapply fresh_step; eauto. }
    now apply G. }
  unfold fresh_lengths in Hl. cbn [fst snd] in Hl. destruct Hl as [Lg Lc].
  apply (circuit_runs layout _ _ Hreg) with (r := score st).
  - exact Hc.
  - intros g p Ig Ip. apply in_app_or in Ig. destruct Ig as [Ig|[<-|[]]].
    + eapply Hg; eauto.
    + apply apply_gates_keys in Ip. destruct Ip as [[]|Ip].
      eapply getDisjointPairs_names; eauto.
  - rewrite length_app, Lg. simpl. lia.
  - lia.
Qed.

Lemma two_qubits_in_register : in_register two_qubits.
Proof.
  intros p a b [E|[]]. inversion E; subst. simpl. lia.
Qed.

Lemma entangle_circuit_defined_witness :
  exists ops,
    circuit two_qubits
      ([] ++ [apply_gates (fun _ => 0) 0 ["A"%string] []]) [] = Ok ops.
Proof.
  apply (entangle_circuit_defined (fun _ => [1; 0]%Z) two_qubits "C" 1
           saved_round quiet_world
           {| gates := []; conjugates := []; totalFuzz := []; oneProbs := [];
              score := 0; restart := false |} ["A"%string]).
  - exact two_qubits_in_register.
  - apply reach_initial.
  - reflexivity.
Defined.

(** *** The number of rounds *)

Section Rounds.

Variable maxWeightMatching : list Edge -> list Z.
Variable layout : Layout.
Variable move : string.
Variable maxScore : nat.
Variable dataNeeded : bool.
Variable recording : Recording.
Variable world : nat -> RoundWorld.
Hypothesis not_manual : String.eqb move "M" = false.

Local Abbreviation M := (max_score maxScore dataNeeded recording).

Lemma get_guess_keeps_restart : forall st oneProb matchingPairs g r,
  get_guess maxWeightMatching layout move world st oneProb matchingPairs
    = Ok (g, r) ->
  r = restart st.
Proof.
  intros st oneProb matchingPairs g r H. unfold get_guess in H.
  rewrite not_manual in H.
  destruct (String.eqb move "C"); [now inversion H|].
  destruct (String.eqb move "R").
  { bind_inv H. now inversion H. }
  destruct (String.eqb move "B").
  { bind_inv H. now inversion H. }
  now inversion H.
Qed.

Lemma rounds_step : forall c c',
  step maxWeightMatching layout move maxScore dataNeeded recording world c
    = Ok c' ->
  rounds_invariant M c -> rounds_invariant M c'.
Proof.
  intros [ph st] c' H I. unfold step in H.
  unfold rounds_invariant in I. cbn [fst snd] in I. destruct I as [Hr I].
  destruct ph as [|oneProb matchingPairs|gameOn|].
  - unfold get_puzzle in H. destruct dataNeeded.
    + bind_inv H. bind_inv H. inversion H; subst; clear H.
      unfold rounds_invariant. cbn [fst snd score restart totalFuzz].
      split; [exact Hr|]. lia.
    + bind_inv H. bind_inv H. inversion H; subst; clear H.
      unfold rounds_invariant. cbn [fst snd score restart totalFuzz].
      split; [exact Hr|]. lia.
  - unfold score_round in H. bind_inv H.
    destruct a as [guessedPairs restart'].
    apply get_guess_keeps_restart in E. subst restart'.
    bind_inv H. bind_inv H. bind_inv H. inversion H; subst; clear H.
    unfold rounds_invariant. cbn [fst snd score restart totalFuzz].
    split; [exact Hr|]. rewrite Hr, length_app. simpl.
    rewrite andb_true_r. repeat split; try lia.
  - inversion H; subst; clear H.
    destruct I as (H1 & H2 & -> & H3).
    unfold rounds_invariant.
    destruct (Nat.ltb (score st) M) eqn:E; cbn [fst snd].
    + apply Nat.ltb_lt in E. split; [exact Hr|]. split; [lia | exact H3].
    + apply Nat.ltb_ge in E. split; [exact Hr|]. split; [lia | exact H3].
  - inversion H; subst; clear H. unfold rounds_invariant. cbn [fst snd].
    split; [exact Hr | exact I].
Qed.

Lemma rounds_reachable : forall c,
  reachable maxWeightMatching layout move maxScore dataNeeded recording
            world c ->
  rounds_invariant M c.
Proof.
  intros c H. induction H as [|c c' _ IH Hs].
  - unfold initial, rounds_invariant. destruct dataNeeded; simpl; auto.
  - eapply rounds_step; eauto.
Qed.

End Rounds.

(** X17: When the move is not 'M' and nothing raises, [runGame] plays
    [maxScore] rounds, and one round if [maxScore] is 0 (on saved data a
    [maxScore] of 0 stands for the number of rounds of the first saved
    game): the lists [totalFuzz] and [conjugates] it returns have one
    entry for each. *)
Theorem runGame_rounds :
  forall mw layout move maxScore dataNeeded recording world c,
    String.eqb move "M" = false ->
    runGame mw layout move maxScore dataNeeded recording world = Ok c ->
    fst c = GameOver /\
    score (snd c) = Nat.max 1 (max_score maxScore dataNeeded recording) /\
    length (totalFuzz (snd c)) = score (snd c) /\
    length (conjugates (snd c)) = score (snd c).
Proof.
  intros mw layout move maxScore dataNeeded recording world c Hm H.
  destruct (runGame_ends mw layout move maxScore dataNeeded recording world
              c H) as [Hover Hreach].
  pose proof (rounds_reachable mw layout move maxScore dataNeeded recording
                world Hm c Hreach) as [_ I].
  rewrite Hover in I. destruct I as [I1 I2].
  split; [exact Hover|]. split; [exact I1|]. split; [exact I2|].
  assert (L : if dataNeeded then fresh_lengths c
              else replay_lengths (length (rec_gates recording)) c).
  { clear - Hreach. induction Hreach as [|c c' _ IH Hs].
    - unfold initial. destruct dataNeeded; simpl.
      + unfold fresh_lengths. simpl. auto.
      + unfold replay_lengths. simpl. split; [lia | reflexivity].
    - destruct dataNeeded.
      + eapply fresh_step; eauto.
      + eapply replay_step; eauto. }
  destruct dataNeeded.
  - unfold fresh_lengths in L. rewrite Hover in L. tauto.
  - unfold replay_lengths in L. rewrite Hover in L. tauto.
Qed.

Lemma saved_game_runs :
  exists c,
    runGame (fun _ => [1; 0]%Z) two_qubits "C" 0 false saved_round
            quiet_world = Ok c.
Proof.
  unfold runGame. simpl run.
  unfold score_round. simpl get_guess. simpl bind at 1.
  unfold calculateFuzz. simpl fuzz_loop. simpl bind at 1.
  simpl guess_gates. rewrite calculateFrac_mean_0. simpl bind at 1.
  unfold getDisjointPairs, getEdges. simpl weights.
  unfold pair_weight, index. simpl nth_error. simpl fst. simpl snd.
  rewrite TransformFacts.calculateFrac_0. simpl. eauto.
Qed.

Lemma runGame_rounds_witness :
  exists c,
    runGame (fun _ => [1; 0]%Z) two_qubits "C" 0 false saved_round
            quiet_world = Ok c /\
    score (snd c) = 1%nat.
Proof.
  destruct saved_game_runs as (c & H). exists c. split; [exact H|].
  destruct (runGame_rounds (fun _ => [1; 0]%Z) two_qubits "C" 0 false
              saved_round quiet_world c eq_refl H) as (_ & S & _).
  exact S.
Defined.

End RoundEngineMore.

(** ** More on the calibration engine *)

Module CalibrationMore.

Import Transform Matching RoundEngine Calibration Vocabulary.
Import TransformFacts RoundEngineFacts CalibrationFacts.
Local Open Scope R_scope.

(** *** [CleanData] *)

Lemma CleanData_from_runs : forall xs p n,
  (2 * (n + length p) <= length xs)%nat ->
  exists c, CleanData_from xs n p = Ok c.
Proof.
  intros xs. induction p as [|v p IH]; intros n H; cbn [CleanData_from].
  - eauto.
  - cbn [length] in H.
    rewrite (index_Ok xs (2 * n) 0) by lia. cbn [bind].
    rewrite (index_Ok xs (2 * n + 1) 0) by lia. cbn [bind].
    destruct (IH (S n)) as (c & ->); [lia|]. cbn [bind]. eauto.
Qed.

Lemma CleanData_from_raises : forall xs p n,
  p <> [] ->
  (length xs < 2 * (n + length p))%nat ->
  CleanData_from xs n p = Raise IndexError.
Proof.
  intros xs. induction p as [|v p IH]; intros n Hp H; [congruence|].
  cbn [CleanData_from]. cbn [length] in H.
  destruct (le_lt_dec (length xs) (2 * n)) as [L|L].
  { rewrite index_Raise by exact L. reflexivity. }
  rewrite (index_Ok xs (2 * n) 0) by exact L. cbn [bind].
  destruct (le_lt_dec (length xs) (2 * n + 1)) as [L1|L1].
  { rewrite index_Raise by exact L1. reflexivity. }
  rewrite (index_Ok xs (2 * n + 1) 0) by exact L1. cbn [bind].
  rewrite IH; [reflexivity | | lia].
  destruct p; [simpl in H; lia | discriminate].
Qed.

Lemma CleanData_from_range : forall xs p n c,
  CleanData_from xs n p = Ok c ->
  length c = length p /\ Forall (fun v => 0 <= v <= 1) c.
Proof.
  intros xs. induction p as [|v p IH]; intros n c H; cbn [CleanData_from] in H.
  - inversion H. split; [reflexivity | constructor].
  - destruct (index xs (2 * n)) as [scale|]; cbn [bind] in H; [|discriminate].
    destruct (index xs (2 * n + 1)) as [offset|]; cbn [bind] in H;
      [|discriminate].
    destruct (CleanData_from xs (S n) p) as [rest|] eqn:E; cbn [bind] in H;
      [|discriminate].
    inversion H; subst; clear H. destruct (IH (S n) rest E) as [L F].
    split; [simpl; now rewrite L|]. constructor; [|exact F].
    split.
    + apply Rmax_l.
    + apply Rmax_lub; [lra | apply Rmin_l].
Qed.

(** X18: [CleanData ( x, oneProb )] returns when [x] has two entries for each
    probability, and raises [IndexError] when it has less. *)
Theorem CleanData_defined : forall xs oneProb,
  if Nat.leb (2 * length oneProb) (length xs)
  then exists c, CleanData xs oneProb = Ok c
  else CleanData xs oneProb = Raise IndexError.
Proof.
  intros xs oneProb. unfold CleanData.
  destruct (Nat.leb (2 * length oneProb) (length xs)) eqn:E.
  - apply Nat.leb_le in E. apply CleanData_from_runs. lia.
  - apply Nat.leb_gt in E. apply CleanData_from_raises; [|lia].
    destruct oneProb; [simpl in E; lia | discriminate].
Qed.

(** X19: What [CleanData] returns has one entry for each probability, each in
    [0, 1], whatever [x] and the probabilities are. *)
Theorem CleanData_range : forall xs oneProb c,
  CleanData xs oneProb = Ok c ->
  length c = length oneProb /\ Forall (fun v => 0 <= v <= 1) c.
Proof.
  intros xs oneProb c H. exact (CleanData_from_range xs oneProb 0 c H).
Qed.

Lemma CleanData_range_witness :
  CleanData [2; 0] [3 / 4] = Ok [Rmax 0 (Rmin 1 (2 * (3 / 4) + 0))] /\
  length [Rmax 0 (Rmin 1 (2 * (3 / 4) + 0))] = 1%nat /\
  Forall (fun v => 0 <= v <= 1) [Rmax 0 (Rmin 1 (2 * (3 / 4) + 0))].
Proof.
  split; [reflexivity|].
  exact (CleanData_range [2; 0] [3 / 4] _ eq_refl).
Defined.

Lemma index_identity_profile : forall k n,
  (n < k)%nat ->
  index (identity_profile k) (2 * n) = Ok 1 /\
  index (identity_profile k) (2 * n + 1) = Ok 0.
Proof.
  induction k as [|k IH]; intros n H; [lia|].
  destruct n as [|n].
  - split; reflexivity.
  - destruct (IH n) as [A B]; [lia|].
    replace (2 * S n)%nat with (S (S (2 * n))) by lia.
    replace (S (S (2 * n)) + 1)%nat with (S (S (2 * n + 1))) by lia.
    split; [exact A | exact B].
Qed.

Lemma CleanData_from_identity : forall k p n,
  (n + length p <= k)%nat ->
  CleanData_from (identity_profile k) n p = Ok (map clamp01 p).
Proof.
  intros k. induction p as [|v p IH]; intros n H; cbn [CleanData_from].
  - reflexivity.
  - cbn [length] in H.
    destruct (index_identity_profile k n) as [-> ->]; [lia|]. cbn [bind].
    rewrite IH by lia. cbn [bind map]. unfold clamp01.
    rewrite (Rmin_comm 1). replace (1 * v + 0) with v by ring. reflexivity.
Qed.

(** X20: With the profile [[1,0]*num], from which every search of
    [CreateCleaningProfile] starts, [CleanData] only cuts the
    probabilities of up to [num] qubits to [0, 1]: probabilities that are
    in this range come back as they are. *)
Theorem CleanData_identity : forall num oneProb,
  (length oneProb <= num)%nat ->
  CleanData (identity_profile num) oneProb = Ok (map clamp01 oneProb) /\
  (Forall (fun v => 0 <= v <= 1) oneProb ->
   CleanData (identity_profile num) oneProb = Ok oneProb).
Proof.
  intros num oneProb H.
  assert (E : CleanData (identity_profile num) oneProb
              = Ok (map clamp01 oneProb)).
  { apply CleanData_from_identity. simpl. exact H. }
  split; [exact E|]. intros F. rewrite E. f_equal.
  clear E H. induction F as [|v p Hv _ IH]; [reflexivity|].
  simpl. rewrite IH. f_equal. apply clamp01_id. exact Hv.
Qed.

Lemma CleanData_identity_witness :
  CleanData (identity_profile 2) [1 / 4; 3 / 4]
    = Ok (map clamp01 [1 / 4; 3 / 4]) /\
  CleanData (identity_profile 2) [1 / 4; 3 / 4] = Ok [1 / 4; 3 / 4].
Proof.
  assert (L : (length [1 / 4; 3 / 4] <= 2)%nat) by (simpl; lia).
  destruct (CleanData_identity 2 [1 / 4; 3 / 4] L) as [A B].
  split; [exact A|]. apply B.
  repeat constructor; lra.
Defined.

(** *** [CalculateQuality] *)

Lemma share_bounds : forall a b s,
  div_len (INR a) b = Ok s -> (a <= b)%nat -> 0 <= s <= 1.
Proof.
  intros a b s H L. destruct b as [|b]; [discriminate|].
  cbn [div_len] in H. inversion H; subst; clear H.
  assert (P : 0 < INR (S b)) by (apply lt_0_INR; lia).
  assert (Q : INR a <= INR (S b)) by (apply le_INR; exact L).
  assert (Z : 0 <= INR a) by apply pos_INR.
  split.
  - apply Rmult_le_pos; [exact Z|]. left. now apply Rinv_0_lt_compat.
  - apply (Rmult_le_reg_r (INR (S b))); [exact P|].
    unfold Rdiv. rewrite Rmult_assoc, Rinv_l by lra. lra.
Qed.

Lemma correct_guesses_bound : forall (guessedPairs matchingPairs : list string),
  (length (filter (fun p => existsb (String.eqb p) matchingPairs)
                  (nodup string_dec guessedPairs))
   <= length matchingPairs)%nat.
Proof.
  intros guessedPairs matchingPairs. apply NoDup_incl_length.
  - apply NoDup_filter. apply NoDup_nodup.
  - intros p H. apply filter_In in H. destruct H as [_ H].
    apply existsb_exists in H. destruct H as (q & Hq & E).
    apply String.eqb_eq in E. now subst.
Qed.

Section QualityRange.

Variable maxWeightMatching : list Edge -> list Z.
Variable pairs : Pairs.
Variable score : nat.
Variable randint : nat -> nat -> Z.

Lemma quality_of_sample_bounds : forall xs i oneProbs gates acc acc',
  quality_of_sample maxWeightMatching pairs score randint xs i oneProbs gates
                    acc = Ok acc' ->
  fst acc <= fst acc' <= fst acc + 1.
Proof.
  intros xs i oneProbs gates acc acc' H. unfold quality_of_sample in H.
  bind_inv H. bind_inv H. bind_inv H. bind_inv H. bind_inv H. bind_inv H.
  bind_inv H. inversion H; subst; clear H. cbn [fst].
  match goal with
  | E : div_len _ _ = Ok ?s |- _ =>
      pose proof (share_bounds _ _ _ E (correct_guesses_bound _ _))
  end.
  lra.
Qed.

Lemma quality_loop_bounds : forall xs ops gs i acc acc',
  quality_loop maxWeightMatching pairs score randint xs i ops gs acc
    = Ok acc' ->
  fst acc <= fst acc' <= fst acc + INR (length ops).
Proof.
  intros xs. induction ops as [|o ops IH]; intros gs i acc acc' H.
  - simpl in H. inversion H. simpl. lra.
  - destruct gs as [|g gs].
    + simpl in H. inversion H. subst.
      pose proof (pos_INR (length (o :: ops))). lra.
    + cbn [quality_loop] in H. bind_inv H.
      apply quality_of_sample_bounds in E. apply IH in H.
      cbn [length]. rewrite S_INR. lra.
Qed.

End QualityRange.

(** X21: The quality [[fractionCorrect, closenessToIdeal]] that
    [CalculateQuality] returns has its fraction of correct pairs in
    [0, 1] and its closeness at most 1. *)
Theorem CalculateQuality_range :
  forall mw oneProbSamples gateSamples pairs score randint xs q,
    CalculateQuality mw oneProbSamples gateSamples pairs score randint xs
      = Ok q ->
    0 <= fst q <= 1 /\ snd q <= 1.
Proof.
  intros mw oneProbSamples gateSamples pairs score randint xs q H.
  unfold CalculateQuality in H. bind_inv H.
  destruct a as [fractionCorrect closenessToIdeal].
  bind_inv H. bind_inv H. bind_inv H. inversion H; subst; clear H.
  cbn [fst snd].
  apply quality_loop_bounds in E. cbn [fst] in E.
  split.
  - destruct (length oneProbSamples) as [|n] eqn:L; [discriminate|].
    cbn [div_len] in E0. inversion E0; subst; clear E0.
    assert (P : 0 < INR (S n)) by (apply lt_0_INR; lia).
    split.
    + apply Rmult_le_pos; [lra|]. left. now apply Rinv_0_lt_compat.
    + apply (Rmult_le_reg_r (INR (S n))); [exact P|].
      unfold Rdiv. rewrite Rmult_assoc, Rinv_l by lra. lra.
  - unfold math_sqrt in E2. destruct (Rle_dec 0 a0); [|discriminate].
    inversion E2; subst. pose proof (sqrt_pos a0). lra.
Qed.

Lemma saved_quality_runs :
  exists q,
    CalculateQuality (fun _ => [1; 0]%Z) [[[0; 0]]]
                     [[[("A"%string, 0)]]] single_layout 1
                     (fun _ _ => 0%Z) [] = Ok q.
Proof.
  unfold CalculateQuality, quality_loop, quality_of_sample.
  unfold getDisjointPairs, getEdges.
  cbn -[calculateFrac calculateFracDifference math_sqrt INR].
  rewrite calculateFrac_0.
  cbn -[calculateFrac calculateFracDifference math_sqrt INR].
  unfold math_sqrt. destruct (Rle_dec _ _) as [_|N]; [simpl; eauto|].
  exfalso. apply N. simpl INR. lra.
Qed.

Lemma CalculateQuality_range_witness :
  exists q,
    CalculateQuality (fun _ => [1; 0]%Z) [[[0; 0]]]
                     [[[("A"%string, 0)]]] single_layout 1
                     (fun _ _ => 0%Z) [] = Ok q /\
    0 <= fst q <= 1 /\ snd q <= 1.
Proof.
  destruct saved_quality_runs as (q & H). exists q. split; [exact H|].
  exact (CalculateQuality_range _ _ _ _ _ _ _ q H).
Defined.

(** *** [Metropolis] *)

Lemma within_refl : forall x0, within 0 x0 x0.
Proof.
  intros x0. split; [reflexivity|]. intros i a b A B.
  rewrite A in B. inversion B. subst.
  replace (b - b) with 0 by ring. rewrite Rabs_R0. lra.
Qed.

Lemma within_weaken : forall d d' x0 xs,
  d <= d' -> within d x0 xs -> within d' x0 xs.
Proof.
  intros d d' x0 xs L [Hl H]. split; [exact Hl|].
  intros i a b A B. pose proof (H i a b A B). lra.
Qed.

Lemma within_add_at : forall d delta x0 xs n rd x1,
  Rabs rd <= delta ->
  within d x0 xs ->
  add_at xs n rd = Ok x1 ->
  within (d + delta) x0 x1.
Proof.
  intros d delta x0 xs n rd x1 Hrd [Hl H] Ha.
  apply add_at_inv in Ha. destruct Ha as (v & Ev & ->).
  assert (Hn : (n < length xs)%nat).
  { apply nth_error_Some. rewrite Ev. discriminate. }
  split; [now rewrite length_list_set|].
  intros i a b A B. destruct (Nat.eq_dec i n) as [->|Ne].
  - rewrite nth_error_list_set_same in B by exact Hn.
    inversion B; subst; clear B.
    pose proof (H n a v A Ev) as Hv.
    replace (v + rd - a) with ((v - a) + rd) by ring.
    pose proof (Rabs_triang (v - a) rd). lra.
  - rewrite nth_error_list_set_other in B by exact Ne.
    pose proof (H i a b A B). pose proof (Rabs_pos rd). lra.
Qed.

Section Drift.

Variable quality_of : list R -> result Quality.
Variable num : nat.
Variable T : R.
Variable delta : R.
Variable x0 : list R.

Lemma proposal_step_within : forall s d s' m,
  Rabs (random_delta d) <= delta ->
  proposal_step quality_of num T s d = Ok s' ->
  within m x0 (x s) -> within m x0 (best_x s) ->
  within (m + delta) x0 (x s') /\ within (m + delta) x0 (best_x s').
Proof.
  intros s d s' m Hd H Wx Wb.
  assert (D : 0 <= delta) by (pose proof (Rabs_pos (random_delta d)); lra).
  destruct (proposal_step_inv quality_of num T s d s' H)
    as (x1 & pq & acc & _ & Ea & _ & _ & Ex & _ & Hb).
  assert (W1 : within (m + delta) x0 x1)
    by exact (within_add_at m delta x0 (x s) (coord d) (random_delta d) x1
                Hd Wx Ea).
  assert (Wx' : within (m + delta) x0 (x s')).
  { rewrite Ex. destruct acc; [exact W1|].
    eapply within_weaken; [|exact Wx]. lra. }
  split; [exact Wx'|].
  destruct Hb as [(_ & -> & _)|(_ & -> & _)]; [exact Wx'|].
  eapply within_weaken; [|exact Wb]. lra.
Qed.

Lemma run_steps_within : forall steps draws k s s' m,
  (forall j, Rabs (random_delta (draws j)) <= delta) ->
  run_steps quality_of num T steps draws k s = Ok s' ->
  within m x0 (x s) -> within m x0 (best_x s) ->
  within (m + INR steps * delta) x0 (x s') /\
  within (m + INR steps * delta) x0 (best_x s').
Proof.
  induction steps as [|steps IH]; intros draws k s s' m Hd H Wx Wb.
  - simpl in H. inversion H; subst; clear H.
    replace (m + INR 0 * delta) with m by (simpl; ring). now split.
  - cbn [run_steps] in H. bind_inv H.
    destruct (proposal_step_within s (draws k) a m (Hd k) E Wx Wb)
      as [Wx1 Wb1].
    destruct (IH draws (S k) a s' (m + delta) Hd H Wx1 Wb1) as [A B].
    rewrite S_INR.
    replace (m + (INR steps + 1) * delta)
      with (m + delta + INR steps * delta) by ring.
    now split.
Qed.

Lemma run_repetitions_within : forall steps draws reps rep s s' m,
  (forall r j, Rabs (random_delta (draws r j)) <= delta) ->
  run_repetitions quality_of num T steps draws reps rep s = Ok s' ->
  within m x0 (best_x s) ->
  within (m + INR reps * (INR steps * delta)) x0 (best_x s').
Proof.
  intros steps draws.
  induction reps as [|reps IH]; intros rep s s' m Hd H Wb.
  - simpl in H. inversion H; subst; clear H.
    replace (m + INR 0 * (INR steps * delta)) with m by (simpl; ring).
    exact Wb.
  - cbn [run_repetitions] in H. bind_inv H.
    destruct (run_steps_within steps (draws rep) 0 (restart_from_best s) a m
                (Hd rep) E Wb Wb) as [_ Wb1].
    pose proof (IH (S rep) a s' _ Hd H Wb1) as W.
    rewrite S_INR.
    replace (m + (INR reps + 1) * (INR steps * delta))
      with (m + INR steps * delta + INR reps * (INR steps * delta)) by ring.
    exact W.
Qed.

End Drift.

(** X22: The list that [Metropolis] returns has the length of the [x] it
    starts from, and its fraction of correct pairs, as [CalculateQuality]
    gives it, is not below that of [x]. *)
Theorem Metropolis_not_worse :
  forall quality_of num T x0 steps repetitions draws best,
    Metropolis quality_of num T x0 steps repetitions draws = Ok best ->
    length best = length x0 /\
    exists q0 q,
      quality_of x0 = Ok q0 /\ quality_of best = Ok q /\ fst q0 <= fst q.
Proof.
  intros quality_of num T x0 steps repetitions draws best H.
  pose proof H as H'. unfold Metropolis in H'. bind_inv H'. bind_inv H'.
  inversion H'; subst; clear H'.
  split.
  - assert (L : forall reps rep s s',
               run_repetitions quality_of num T steps draws reps rep s
                 = Ok s' ->
               length (x s) = length x0 ->
               length (best_x s) = length x0 ->
               length (best_x s') = length x0).
    { assert (S1 : forall s d s',
                 proposal_step quality_of num T s d = Ok s' ->
                 length (x s) = length x0 ->
                 length (best_x s) = length x0 ->
                 length (x s') = length x0 /\
                 length (best_x s') = length x0).
      { intros s d s' Hs Lx Lb.
        destruct (proposal_step_inv quality_of num T s d s' Hs)
          as (x1 & pq & acc & _ & Ea & _ & _ & Ex & _ & Hb).
        apply add_at_inv in Ea. destruct Ea as (v & _ & ->).
        assert (Lx' : length (x s') = length x0).
        { rewrite Ex. destruct acc; [|exact Lx].
          now rewrite length_list_set. }
        split; [exact Lx'|].
        destruct Hb as [(_ & -> & _)|(_ & -> & _)]; assumption. }
      assert (S2 : forall n dr k s s',
                 run_steps quality_of num T n dr k s = Ok s' ->
                 length (x s) = length x0 ->
                 length (best_x s) = length x0 ->
                 length (x s') = length x0 /\
                 length (best_x s') = length x0).
      { induction n as [|n IH]; intros dr k s s' Hs Lx Lb.
        - simpl in Hs. inversion Hs; subst. now split.
        - cbn [run_steps] in Hs. bind_inv Hs.
          destruct (S1 _ _ _ E1 Lx Lb) as [Lx1 Lb1].
          exact (IH dr (S k) _ s' Hs Lx1 Lb1). }
      induction reps as [|reps IH]; intros rep s s' Hs Lx Lb.
      - simpl in Hs. inversion Hs; subst. exact Lb.
      - cbn [run_repetitions] in Hs. bind_inv Hs.
        destruct (S2 _ _ _ _ _ E1 Lb Lb) as [Lx1 Lb1].
        exact (IH (S rep) _ s' Hs Lx1 Lb1). }
    exact (L repetitions 0%nat (start x0 a) a0 E0 eq_refl eq_refl).
  - exists a, (bestQuality a0).
    assert (F : follows quality_of num T (start x0 a) a0)
      by (eapply run_repetitions_follows; eauto).
    split; [first [exact E | reflexivity]|]. split.
    + exact (proj2 (qualities_kept quality_of num T x0 a a0 E F)).
    + exact (follows_best_monotone quality_of num T (start x0 a) a0 F).
Qed.

Lemma sample_search :
  Metropolis sum_quality 1 100 [0] 1 1 (fun _ _ => up_draw) = Ok [0 + 1].
Proof.
  unfold Metropolis, run_repetitions, run_steps.
  change (sum_quality [0]) with (Ok (A := Quality) (0 + 0, 0)). cbn [bind].
  assert (A : accept (uniform up_draw)
                (proposal_diff (0 + 1 + 0, 0) (0 + 0, 0)) 100 = Ok true).
  { assert (D : proposal_diff (0 + 1 + 0, 0) (0 + 0, 0) / 100 = 1 / 100).
    { unfold proposal_diff. simpl. field. }
    rewrite accept_in_range; [| lra |]; rewrite D.
    - destruct (Rlt_dec _ _) as [_|N]; [reflexivity|].
      exfalso. apply N. simpl.
      pose proof (exp_ineq1_le (1 / 100)). lra.
    - apply exp_in_float_range. lra. }
  rewrite (proposal_step_eval sum_quality 1 100
             (restart_from_best (start [0] (0 + 0, 0))) up_draw
             [0 + 1] (0 + 1 + 0, 0) true);
    [| discriminate | reflexivity | reflexivity | exact A].
  cbn [bind restart_from_best start bestQuality best_x fst].
  destruct (Rlt_dec _ _) as [_|N]; [reflexivity|].
  exfalso. apply N. simpl. lra.
Qed.

Lemma Metropolis_not_worse_witness :
  Metropolis sum_quality 1 100 [0] 1 1 (fun _ _ => up_draw) = Ok [0 + 1] /\
  length [0 + 1] = length [0] /\
  exists q0 q,
    sum_quality [0] = Ok q0 /\ sum_quality [0 + 1] = Ok q /\
    fst q0 <= fst q.
Proof.
  split; [exact sample_search|].
  exact (Metropolis_not_worse sum_quality 1 100 [0] 1 1 (fun _ _ => up_draw)
           [0 + 1] sample_search).
Defined.

(** X23: When every change drawn by [random.uniform(+delta,-delta)] is at most
    [delta] in size, no entry of the list that [Metropolis] returns is
    further than [repetitions * steps * delta] from the entry of the
    starting [x] at its place. *)
Theorem Metropolis_drift :
  forall quality_of num T delta x0 steps repetitions draws best,
    (forall rep k, Rabs (random_delta (draws rep k)) <= delta) ->
    Metropolis quality_of num T x0 steps repetitions draws = Ok best ->
    within (INR repetitions * (INR steps * delta)) x0 best.
Proof.
  intros quality_of num T delta x0 steps repetitions draws best Hd H.
  unfold Metropolis in H. bind_inv H. bind_inv H.
  inversion H; subst; clear H.
  pose proof (run_repetitions_within quality_of num T delta x0 steps draws
                repetitions 0 (start x0 a) a0 0 Hd E0 (within_refl x0)) as W.
  replace (0 + INR repetitions * (INR steps * delta))
    with (INR repetitions * (INR steps * delta)) in W by ring.
  exact W.
Qed.

Lemma Metropolis_drift_witness :
  Metropolis sum_quality 1 100 [0] 1 1 (fun _ _ => up_draw) = Ok [0 + 1] /\
  within (INR 1 * (INR 1 * 1)) [0] [0 + 1].
Proof.
  split; [exact sample_search|].
  apply (Metropolis_drift sum_quality 1 100 1 [0] 1 1 (fun _ _ => up_draw)).
  - intros rep k. simpl. rewrite Rabs_R1. lra.
  - exact sample_search.
Defined.

End CalibrationMore.

(** ** The manual move *)

Module ManualFacts.

Import Transform Matching RoundEngine Calibration Manual.
Import RoundEngineFacts CalibrationFacts ReadoutFacts.
Local Open Scope R_scope.

Lemma set_at_inv : forall l n v l',
  set_at l n v = Ok l' -> (n < length l)%nat /\ l' = list_set l n v.
Proof.
  intros l n v l' H. unfold set_at, index in H.
  destruct (nth_error l n) as [w|] eqn:E; simpl in H; [|discriminate].
  inversion H. split; [|reflexivity].
  apply nth_error_Some. rewrite E. discriminate.
Qed.

Section Choices.

Variable str_upper : string -> string.
Variable layout : Layout.
Variable pos_keys : list nat.
Variable printPuzzle : list R -> result unit.
Variable oneProb : list R.

Lemma choose_ok : forall c input c',
  choose str_upper layout pos_keys printPuzzle c input = Ok c' ->
  choices_ok layout oneProb c -> choices_ok layout oneProb c'.
Proof.
  intros c input c' H (ND & Hk & Hl & Hg & Hr). unfold choose in H.
  destruct (printPuzzle (displayedOneProb c)) as [[]|]; cbn [bind] in H;
    [|discriminate].
  set (pairGuess := if Nat.leb (num layout) 26 then str_upper input
                    else input) in H.
  destruct (has_key (pairs layout) pairGuess) eqn:K; cbn [andb] in H.
  - destruct (existsb (String.eqb pairGuess) (guessedPairs c)) eqn:G;
      cbn [negb] in H.
    + destruct (String.eqb (str_upper pairGuess) "DONE");
        [inversion H; subst;
          exact (conj ND (conj Hk (conj Hl (conj Hg Hr))))|].
      destruct (String.eqb (str_upper pairGuess) "RESTART");
        inversion H; subst;
          exact (conj ND (conj Hk (conj Hl (conj Hg Hr)))).
    + assert (Hnew : ~ In pairGuess (guessedPairs c)).
      { intros I. assert (X : existsb (String.eqb pairGuess) (guessedPairs c)
                              = true).
        { apply existsb_exists. exists pairGuess.
          split; [exact I | apply String.eqb_refl]. }
        congruence. }
      bind_inv H. destruct a as [a b]. bind_inv H. bind_inv H. bind_inv H.
      inversion H; subst; clear H.
      apply set_at_inv in E0. destruct E0 as [La ->].
      apply set_at_inv in E1. destruct E1 as [Lb ->].
      rewrite length_list_set in Lb.
      assert (Two : forall i,
                 nth_error (displayedOneProb c) i = Some 2 ->
                 nth_error (list_set (list_set (displayedOneProb c) a 2) b 2)
                           i = Some 2).
      { intros i Hi. destruct (Nat.eq_dec i b) as [->|Nb].
        - apply nth_error_list_set_same. now rewrite length_list_set.
        - rewrite nth_error_list_set_other by exact Nb.
          destruct (Nat.eq_dec i a) as [->|Na].
          + now apply nth_error_list_set_same.
          + now rewrite nth_error_list_set_other by exact Na. }
      unfold choices_ok. cbn [guessedPairs displayedOneProb].
      split; [|split; [|split; [|split]]].
      * apply NoDup_app; [exact ND | repeat constructor; simpl; tauto|].
        intros q Hq [<-|[]]. contradiction.
      * intros p Hp. apply in_app_or in Hp. destruct Hp as [Hp|[<-|[]]].
        -- now apply Hk.
        -- now apply has_key_In.
      * now rewrite !length_list_set.
      * intros p a' b' Hp Lp. apply in_app_or in Hp.
        destruct Hp as [Hp|[<-|[]]].
        -- destruct (Hg p a' b' Hp Lp) as [A B]. split; now apply Two.
        -- rewrite E in Lp. inversion Lp; subst. split.
           ++ destruct (Nat.eq_dec a' b') as [<-|Nb].
              ** apply nth_error_list_set_same. now rewrite length_list_set.
              ** rewrite nth_error_list_set_other by exact Nb.
                 now apply nth_error_list_set_same.
           ++ apply nth_error_list_set_same. now rewrite length_list_set.
      * intros n Hn.
        destruct (Hn pairGuess a b) as [Na Nb];
          [apply in_or_app; right; now left | exact E |].
        rewrite nth_error_list_set_other by exact Nb.
        rewrite nth_error_list_set_other by exact Na.
        apply Hr. intros p a' b' Hp Lp.
        apply (Hn p a' b'); [apply in_or_app; now left | exact Lp].
  - destruct (String.eqb (str_upper pairGuess) "DONE");
      [inversion H; subst;
          exact (conj ND (conj Hk (conj Hl (conj Hg Hr))))|].
    destruct (String.eqb (str_upper pairGuess) "RESTART");
      inversion H; subst;
          exact (conj ND (conj Hk (conj Hl (conj Hg Hr)))).
Qed.

Lemma first_choice_ok : choices_ok layout oneProb (first_choice layout oneProb).
Proof.
  unfold choices_ok, first_choice. simpl.
  split; [constructor|]. split; [intros p []|]. split; [reflexivity|].
  split; [intros p a b []|]. intros n _. reflexivity.
Qed.

Lemma choosing_ok : forall inputs c c',
  choosing str_upper layout pos_keys printPuzzle inputs c = Ok c' ->
  choices_ok layout oneProb c -> choices_ok layout oneProb c'.
Proof.
  induction inputs as [|input rest IH]; intros c c' H I; simpl in H.
  - inversion H. now subst.
  - destruct (Nat.ltb 1 (unpaired c)).
    + bind_inv H. eapply IH; [exact H|]. eapply choose_ok; eauto.
    + inversion H. now subst.
Qed.

End Choices.

(** X24: Whatever the player of move 'M' types and the display does,
    the pairs taken as the guess are names of pairs of the layout, none
    of them twice; the qubits of each are shown with the value 2, and
    every other qubit is shown with the probability measured. *)
Theorem manual_choices :
  forall str_upper layout pos_keys printPuzzle oneProb inputs c,
    choosing str_upper layout pos_keys printPuzzle inputs
             (first_choice layout oneProb) = Ok c ->
    choices_ok layout oneProb c.
Proof.
  intros str_upper layout pos_keys printPuzzle oneProb inputs c H.
  eapply choosing_ok; [exact H | apply first_choice_ok].
Qed.

Lemma manual_choices_witness :
  exists c,
    choosing upper two_qubits [0; 1]%nat (fun _ => Ok tt)
             ["b"; "a"; "a"]%string
             (first_choice two_qubits [1 / 4; 3 / 4]) = Ok c /\
    guessedPairs c = ["A"%string] /\
    choices_ok two_qubits [1 / 4; 3 / 4] c.
Proof.
  assert (H : choosing upper two_qubits [0; 1]%nat (fun _ => Ok tt)
                ["b"; "a"; "a"]%string
                (first_choice two_qubits [1 / 4; 3 / 4])
              = Ok {| guessedPairs := ["A"%string];
                      displayedOneProb := [2; 2]; unpaired := 0;
                      asked_restart := false |}).
  { assert (Ub : upper "b" = "B"%string) by reflexivity.
    assert (UB : upper "B" = "B"%string) by reflexivity.
    assert (Ua : upper "a" = "A"%string) by reflexivity.
    unfold choosing, first_choice, choose.
    cbn [unpaired num two_qubits Nat.ltb Nat.leb guessedPairs].
    rewrite Ub, UB, Ua. cbn -[Rle_dec upper].
    destruct (Rle_dec 2 1) as [L|_]; [exfalso; lra|].
    reflexivity. }
  eexists. split; [exact H|]. split; [reflexivity|].
  exact (manual_choices upper two_qubits [0; 1]%nat (fun _ => Ok tt)
           [1 / 4; 3 / 4] ["b"; "a"; "a"]%string _ H).
Defined.

End ManualFacts.
